(** * surface.c : gridding by continuous curvature splines in tension

    A shallow embedding of the numerical core of GMT's [surface] module
    (src/surface.c) and the properties of it that the specification states.

    Modelling conventions.
    - [double] and [gmt_grdfloat] values are exact rationals [Q]; the casts
      between the two C types are the identity and no rounding is modelled.
      Equations between computed values are stated with [==] (Qeq).
    - A bound-grid value is [option Q]; [None] is the NaN that marks a node
      without a bound.
    - C arrays indexed by node ([u], [status], bound grids) are total maps
      from [Z]; only nodes inside the padded grid are ever addressed.
    - The data array is a list; its length is [npoints].
    - Integer counters are [Z]; where the C type is narrower the wrap-around
      is written out. *)

From Stdlib Require Import ZArith QArith Qround Qabs Qminmax Qfield Lqa.
From Stdlib Require Import List Bool Lia Permutation Sorted Finite.
Import ListNotations.

Open Scope Z_scope.
Open Scope Q_scope.

(** ** Small helpers for the C operators *)

Definition Qltb (x y : Q) : bool := (Qnum x * QDen y <? Qnum y * QDen x)%Z.
Definition Qleb (x y : Q) : bool := (Qnum x * QDen y <=? Qnum y * QDen x)%Z.
Definition Qeqb (x y : Q) : bool := (Qnum x * QDen y =? Qnum y * QDen x)%Z.

(** The index values of [for (i = 0; i < n; i++)], in order. *)
Definition Zrange (n : Z) : list Z := map Z.of_nat (seq 0 (Z.to_nat n)).

(** The (row, col) pairs of [for (row = 0; row < ny; row++) for (col = 0;
    col < nx; col++)], in the order the loops visit them. *)
Definition grid_nodes (ny nx : Z) : list (Z * Z) :=
  flat_map (fun row => map (fun col => (row, col)) (Zrange nx)) (Zrange ny).

(** A C array indexed by node, with assignment to one element. *)
Definition upd {A : Type} (a : Z -> A) (n : Z) (v : A) : Z -> A :=
  fun m => if (m =? n)%Z then v else a m.

(** ** Constants and macros of surface.c *)

Module Surface.

Definition SURFACE_OUTSIDE : Z := (2 ^ 63 - 1)%Z.          (* LONG_MAX *)
Definition UINTMAX_MAX : Z := (2 ^ 64 - 1)%Z.
Definition SURFACE_CLOSENESS_FACTOR : Q := 5 # 100.
Definition SURFACE_IS_UNCONSTRAINED : Z := 0.
Definition SURFACE_DATA_IS_IN_QUAD1 : Z := 1.
Definition SURFACE_DATA_IS_IN_QUAD2 : Z := 2.
Definition SURFACE_DATA_IS_IN_QUAD3 : Z := 3.
Definition SURFACE_DATA_IS_IN_QUAD4 : Z := 4.
Definition SURFACE_IS_CONSTRAINED : Z := 5.
Definition SURFACE_UNCONSTRAINED : Z := 0.
Definition SURFACE_CONSTRAINED : Z := 1.
Definition SURFACE_BREAKLINE : Z := 1.
Definition GMT_CONV8_LIMIT : Q := 1 # 100000000.

Definition row_col_to_node (row col mx : Z) : Z := ((row + 2) * mx + col + 2)%Z.
Definition row_col_to_index (row col n_columns : Z) : Z := (row * n_columns + col)%Z.
Definition x_to_fcol (x x0 idx : Q) : Q := (x - x0) * idx.
Definition x_to_col (x x0 idx : Q) : Z := Qfloor (x_to_fcol x x0 idx + (1 # 2)).
Definition y_to_frow (y y0 idy : Q) : Q := (y - y0) * idy.
Definition y_to_row (y y0 idy : Q) (n_rows : Z) : Z := (n_rows - 1 - x_to_col y y0 idy)%Z.
Definition col_to_x (col : Z) (x0 x1 dx : Q) (n_columns : Z) : Q :=
  if (col =? n_columns - 1)%Z then x1 else x0 + inject_Z col * dx.
Definition row_to_y (row : Z) (y0 y1 dy : Q) (n_rows : Z) : Q :=
  if (row =? n_rows - 1)%Z then y0 else y1 - inject_Z row * dy.
(* C's / and % on the unsigned index. *)
Definition index_to_col (index n_columns : Z) : Z := Z.rem index n_columns.
Definition index_to_row (index n_columns : Z) : Z := Z.quot index n_columns.

(** [enum surface_nodes]: the twelve neighbours of the stencil. *)
Inductive surface_nodes : Type :=
  N2 | NW | N1 | NE | W2 | W1 | E1 | E2 | SW | S1 | SE | S2.

Definition all_nodes : list surface_nodes :=
  [N2; NW; N1; NE; W2; W1; E1; E2; SW; S1; SE; S2].

(** [static unsigned int p[5][4]]: the nodes A-D of each quadrant. *)
Definition p (quadrant : Z) : list surface_nodes :=
  match quadrant with
  | 1%Z => [NW; W1; S1; SE]
  | 2%Z => [SW; S1; E1; NE]
  | 3%Z => [SE; E1; N1; NW]
  | 4%Z => [NE; N1; W1; SW]
  | _ => [N2; N2; N2; N2]
  end.

(** [struct SURFACE_DATA] *)
Record SURFACE_DATA : Type := mkData {
  d_x : Q; d_y : Q; d_z : Q;
  kind : Z;
  index : Z
}.

(** [struct SURFACE_BRIGGS]: the six coefficients b[0..5]. *)
Record SURFACE_BRIGGS : Type := mkBriggs {
  b0 : Q; b1 : Q; b2 : Q; b3 : Q; b4 : Q; b5 : Q
}.

(** [surface_solve_Briggs_coefficients]; of [C] it reads [a0_const_1] and
    [a0_const_2] only. *)
Definition surface_solve_Briggs_coefficients
    (a0_const_1 a0_const_2 : Q) (xx yy z : Q) : SURFACE_BRIGGS :=
  let xx_plus_yy := xx + yy in
  let xx_plus_yy_plus_one := 1 + xx_plus_yy in
  let inv_xx_plus_yy_plus_one := 1 / xx_plus_yy_plus_one in
  let xx2 := xx * xx in
  let yy2 := yy * yy in
  let inv_delta := inv_xx_plus_yy_plus_one / xx_plus_yy in
  let b_0 := (xx2 + 2 * xx * yy + xx - yy2 - yy) * inv_delta in
  let b_1 := 2 * (yy - xx + 1) * inv_xx_plus_yy_plus_one in
  let b_2 := 2 * (xx - yy + 1) * inv_xx_plus_yy_plus_one in
  let b_3 := (- xx2 + 2 * xx * yy - xx + yy2 + yy) * inv_delta in
  let b_4 := 4 * inv_delta in
  let b_5 := b_0 + b_1 + b_2 + b_3 + b_4 in
  mkBriggs b_0 b_1 b_2 b_3 (b_4 * z) (1 / (a0_const_1 + a0_const_2 * b_5)).


(** Index enums of the GMT headers: [GMT_X], [GMT_Y]; [XLO] .. [YHI];
    [enum surface_bound]. *)
Inductive gmt_axis : Type := GMT_X | GMT_Y.
Inductive gmt_side : Type := XLO | XHI | YLO | YHI.
Inductive surface_bound : Type := LO | HI.

(** The registration of a grid: [GMT_GRID_NODE_REG], [GMT_GRID_PIXEL_REG]. *)
Inductive gmt_registration : Type := GMT_GRID_NODE_REG | GMT_GRID_PIXEL_REG.

(* enum surface_limit *)
Definition NONE : Z := 0.
Definition DATA : Z := 1.
Definition VALUE : Z := 2.
Definition SURFACE : Z := 3.
(* enum surface_conv *)
Definition BY_VALUE : Z := 0.
Definition BY_PERCENT : Z := 1.
(* enum surface_iter *)
Definition GRID_NODES : Z := 0.
Definition GRID_DATA : Z := 1.
Definition SURFACE_CONV_LIMIT : Q := 1 # 10000.
Definition GMT_NOERROR : Z := 0.

(** [struct SURFACE_SEARCH] *)
Record SURFACE_SEARCH : Type := mkSearch {
  s_current_nx : Z;
  s_current_ny : Z;
  s_inc : gmt_axis -> Q;
  s_wesn : gmt_side -> Q
}.

(** [struct SURFACE_INFO], with the fields of the grid header that the
    solver reads or updates ([h_*]: [Grid->header->n_columns], [n_rows],
    [wesn], [inc], the hidden [r_inc], [pad], [registration] and [mx]).
    [npoints] is the length of [data]. *)
Record SURFACE_INFO : Type := mkInfo {
  data : list SURFACE_DATA;
  Briggs : Z -> SURFACE_BRIGGS;
  u : Z -> Q;                               (* Grid->data *)
  status : Z -> Z;
  Bound : surface_bound -> Z -> option Q;
  set_limit : surface_bound -> Z;
  total_iterations : Z;
  max_iterations : Z;
  converge_mode : Z;
  current_stride : Z;
  n_columns : Z; n_rows : Z; mx : Z;
  current_nx : Z; current_ny : Z; current_mx : Z;
  previous_nx : Z; previous_ny : Z; previous_mx : Z;
  node_sw_corner : Z; node_se_corner : Z;
  node_nw_corner : Z; node_ne_corner : Z;
  info : SURFACE_SEARCH;
  offset : surface_nodes -> Z;
  periodic : bool; constrained : bool;
  inc : gmt_axis -> Q; r_inc : gmt_axis -> Q;
  h_n_columns : Z; h_n_rows : Z;
  h_wesn : gmt_side -> Q; h_inc : gmt_axis -> Q; h_r_inc : gmt_axis -> Q;
  h_pad : gmt_side -> Z; h_registration : gmt_registration; h_mx : Z;
  wesn_orig : gmt_side -> Q;
  converge_limit : Q;
  z_rms : Q; r_z_rms : Q;
  plane_icept : Q; plane_sx : Q; plane_sy : Q;
  coeff : Z -> surface_nodes -> Q;
  relax_old : Q; relax_new : Q;
  alpha : Q; boundary_tension : Q; interior_tension : Q;
  a0_const_1 : Q; a0_const_2 : Q;
  alpha2 : Q; e_m2 : Q; one_plus_e2 : Q;
  eps_p2 : Q; eps_m2 : Q; two_plus_ep2 : Q; two_plus_em2 : Q
}.

(** Assignments to members of [C]. *)
Definition set_u (C : SURFACE_INFO) (v : Z -> Q) : SURFACE_INFO :=
  mkInfo (data C) (Briggs C) v (status C) (Bound C) (set_limit C)
    (total_iterations C) (max_iterations C) (converge_mode C)
    (current_stride C) (n_columns C) (n_rows C) (mx C) (current_nx C)
    (current_ny C) (current_mx C) (previous_nx C) (previous_ny C)
    (previous_mx C) (node_sw_corner C) (node_se_corner C) (node_nw_corner C)
    (node_ne_corner C) (info C) (offset C) (periodic C) (constrained C)
    (inc C) (r_inc C) (h_n_columns C) (h_n_rows C) (h_wesn C) (h_inc C)
    (h_r_inc C) (h_pad C)
    (h_registration C) (h_mx C) (wesn_orig C) (converge_limit C) (z_rms C)
    (r_z_rms C) (plane_icept C)
    (plane_sx C) (plane_sy C) (coeff C) (relax_old C) (relax_new C) (alpha C)
    (boundary_tension C) (interior_tension C) (a0_const_1 C) (a0_const_2 C)
    (alpha2 C) (e_m2 C) (one_plus_e2 C) (eps_p2 C) (eps_m2 C) (two_plus_ep2 C)
    (two_plus_em2 C).

Definition set_status (C : SURFACE_INFO) (v : Z -> Z) : SURFACE_INFO :=
  mkInfo (data C) (Briggs C) (u C) v (Bound C) (set_limit C)
    (total_iterations C) (max_iterations C) (converge_mode C)
    (current_stride C) (n_columns C) (n_rows C) (mx C) (current_nx C)
    (current_ny C) (current_mx C) (previous_nx C) (previous_ny C)
    (previous_mx C) (node_sw_corner C) (node_se_corner C) (node_nw_corner C)
    (node_ne_corner C) (info C) (offset C) (periodic C) (constrained C)
    (inc C) (r_inc C) (h_n_columns C) (h_n_rows C) (h_wesn C) (h_inc C)
    (h_r_inc C) (h_pad C)
    (h_registration C) (h_mx C) (wesn_orig C) (converge_limit C) (z_rms C)
    (r_z_rms C) (plane_icept C)
    (plane_sx C) (plane_sy C) (coeff C) (relax_old C) (relax_new C) (alpha C)
    (boundary_tension C) (interior_tension C) (a0_const_1 C) (a0_const_2 C)
    (alpha2 C) (e_m2 C) (one_plus_e2 C) (eps_p2 C) (eps_m2 C) (two_plus_ep2 C)
    (two_plus_em2 C).

Definition set_Briggs (C : SURFACE_INFO) (v : Z -> SURFACE_BRIGGS) : SURFACE_INFO :=
  mkInfo (data C) v (u C) (status C) (Bound C) (set_limit C)
    (total_iterations C) (max_iterations C) (converge_mode C)
    (current_stride C) (n_columns C) (n_rows C) (mx C) (current_nx C)
    (current_ny C) (current_mx C) (previous_nx C) (previous_ny C)
    (previous_mx C) (node_sw_corner C) (node_se_corner C) (node_nw_corner C)
    (node_ne_corner C) (info C) (offset C) (periodic C) (constrained C)
    (inc C) (r_inc C) (h_n_columns C) (h_n_rows C) (h_wesn C) (h_inc C)
    (h_r_inc C) (h_pad C)
    (h_registration C) (h_mx C) (wesn_orig C) (converge_limit C) (z_rms C)
    (r_z_rms C) (plane_icept C)
    (plane_sx C) (plane_sy C) (coeff C) (relax_old C) (relax_new C) (alpha C)
    (boundary_tension C) (interior_tension C) (a0_const_1 C) (a0_const_2 C)
    (alpha2 C) (e_m2 C) (one_plus_e2 C) (eps_p2 C) (eps_m2 C) (two_plus_ep2 C)
    (two_plus_em2 C).

Definition set_data (C : SURFACE_INFO) (v : list SURFACE_DATA) : SURFACE_INFO :=
  mkInfo v (Briggs C) (u C) (status C) (Bound C) (set_limit C)
    (total_iterations C) (max_iterations C) (converge_mode C)
    (current_stride C) (n_columns C) (n_rows C) (mx C) (current_nx C)
    (current_ny C) (current_mx C) (previous_nx C) (previous_ny C)
    (previous_mx C) (node_sw_corner C) (node_se_corner C) (node_nw_corner C)
    (node_ne_corner C) (info C) (offset C) (periodic C) (constrained C)
    (inc C) (r_inc C) (h_n_columns C) (h_n_rows C) (h_wesn C) (h_inc C)
    (h_r_inc C) (h_pad C)
    (h_registration C) (h_mx C) (wesn_orig C) (converge_limit C) (z_rms C)
    (r_z_rms C) (plane_icept C)
    (plane_sx C) (plane_sy C) (coeff C) (relax_old C) (relax_new C) (alpha C)
    (boundary_tension C) (interior_tension C) (a0_const_1 C) (a0_const_2 C)
    (alpha2 C) (e_m2 C) (one_plus_e2 C) (eps_p2 C) (eps_m2 C) (two_plus_ep2 C)
    (two_plus_em2 C).

Definition set_total_iterations (C : SURFACE_INFO) (v : Z) : SURFACE_INFO :=
  mkInfo (data C) (Briggs C) (u C) (status C) (Bound C) (set_limit C) v
    (max_iterations C) (converge_mode C) (current_stride C) (n_columns C)
    (n_rows C) (mx C) (current_nx C) (current_ny C) (current_mx C)
    (previous_nx C) (previous_ny C) (previous_mx C) (node_sw_corner C)
    (node_se_corner C) (node_nw_corner C) (node_ne_corner C) (info C)
    (offset C) (periodic C) (constrained C) (inc C) (r_inc C) (h_n_columns C)
    (h_n_rows C) (h_wesn C) (h_inc C) (h_r_inc C) (h_pad C)
    (h_registration C) (h_mx C) (wesn_orig C) (converge_limit C) (z_rms C)
    (r_z_rms C) (plane_icept C) (plane_sx C) (plane_sy C) (coeff C)
    (relax_old C) (relax_new C) (alpha C) (boundary_tension C)
    (interior_tension C) (a0_const_1 C) (a0_const_2 C) (alpha2 C) (e_m2 C)
    (one_plus_e2 C) (eps_p2 C) (eps_m2 C) (two_plus_ep2 C) (two_plus_em2 C).

Definition set_current_stride (C : SURFACE_INFO) (v : Z) : SURFACE_INFO :=
  mkInfo (data C) (Briggs C) (u C) (status C) (Bound C) (set_limit C)
    (total_iterations C) (max_iterations C) (converge_mode C) v (n_columns C)
    (n_rows C) (mx C) (current_nx C) (current_ny C) (current_mx C)
    (previous_nx C) (previous_ny C) (previous_mx C) (node_sw_corner C)
    (node_se_corner C) (node_nw_corner C) (node_ne_corner C) (info C)
    (offset C) (periodic C) (constrained C) (inc C) (r_inc C) (h_n_columns C)
    (h_n_rows C) (h_wesn C) (h_inc C) (h_r_inc C) (h_pad C)
    (h_registration C) (h_mx C) (wesn_orig C) (converge_limit C) (z_rms C)
    (r_z_rms C) (plane_icept C) (plane_sx C) (plane_sy C) (coeff C)
    (relax_old C) (relax_new C) (alpha C) (boundary_tension C)
    (interior_tension C) (a0_const_1 C) (a0_const_2 C) (alpha2 C) (e_m2 C)
    (one_plus_e2 C) (eps_p2 C) (eps_m2 C) (two_plus_ep2 C) (two_plus_em2 C).

Definition set_offset (C : SURFACE_INFO) (v : surface_nodes -> Z) : SURFACE_INFO :=
  mkInfo (data C) (Briggs C) (u C) (status C) (Bound C) (set_limit C)
    (total_iterations C) (max_iterations C) (converge_mode C)
    (current_stride C) (n_columns C) (n_rows C) (mx C) (current_nx C)
    (current_ny C) (current_mx C) (previous_nx C) (previous_ny C)
    (previous_mx C) (node_sw_corner C) (node_se_corner C) (node_nw_corner C)
    (node_ne_corner C) (info C) v (periodic C) (constrained C) (inc C)
    (r_inc C) (h_n_columns C) (h_n_rows C) (h_wesn C) (h_inc C) (h_r_inc C) (h_pad C)
    (h_registration C) (h_mx C) (wesn_orig C)
    (converge_limit C) (z_rms C) (r_z_rms C) (plane_icept C) (plane_sx C)
    (plane_sy C) (coeff C) (relax_old C) (relax_new C) (alpha C)
    (boundary_tension C) (interior_tension C) (a0_const_1 C) (a0_const_2 C)
    (alpha2 C) (e_m2 C) (one_plus_e2 C) (eps_p2 C) (eps_m2 C) (two_plus_ep2 C)
    (two_plus_em2 C).

Definition set_plane (C : SURFACE_INFO) (a b c : Q) : SURFACE_INFO :=
  mkInfo (data C) (Briggs C) (u C) (status C) (Bound C) (set_limit C)
    (total_iterations C) (max_iterations C) (converge_mode C)
    (current_stride C) (n_columns C) (n_rows C) (mx C) (current_nx C)
    (current_ny C) (current_mx C) (previous_nx C) (previous_ny C)
    (previous_mx C) (node_sw_corner C) (node_se_corner C) (node_nw_corner C)
    (node_ne_corner C) (info C) (offset C) (periodic C) (constrained C)
    (inc C) (r_inc C) (h_n_columns C) (h_n_rows C) (h_wesn C) (h_inc C)
    (h_r_inc C) (h_pad C)
    (h_registration C) (h_mx C) (wesn_orig C) (converge_limit C) (z_rms C) (r_z_rms C) a b c (coeff C)
    (relax_old C) (relax_new C) (alpha C) (boundary_tension C)
    (interior_tension C) (a0_const_1 C) (a0_const_2 C) (alpha2 C) (e_m2 C)
    (one_plus_e2 C) (eps_p2 C) (eps_m2 C) (two_plus_ep2 C) (two_plus_em2 C).

Definition set_rms (C : SURFACE_INFO) (z r : Q) : SURFACE_INFO :=
  mkInfo (data C) (Briggs C) (u C) (status C) (Bound C) (set_limit C)
    (total_iterations C) (max_iterations C) (converge_mode C)
    (current_stride C) (n_columns C) (n_rows C) (mx C) (current_nx C)
    (current_ny C) (current_mx C) (previous_nx C) (previous_ny C)
    (previous_mx C) (node_sw_corner C) (node_se_corner C) (node_nw_corner C)
    (node_ne_corner C) (info C) (offset C) (periodic C) (constrained C)
    (inc C) (r_inc C) (h_n_columns C) (h_n_rows C) (h_wesn C) (h_inc C)
    (h_r_inc C) (h_pad C)
    (h_registration C) (h_mx C) (wesn_orig C) (converge_limit C) z r (plane_icept C) (plane_sx C)
    (plane_sy C) (coeff C) (relax_old C) (relax_new C) (alpha C)
    (boundary_tension C) (interior_tension C) (a0_const_1 C) (a0_const_2 C)
    (alpha2 C) (e_m2 C) (one_plus_e2 C) (eps_p2 C) (eps_m2 C) (two_plus_ep2 C)
    (two_plus_em2 C).

Definition set_converge_limit (C : SURFACE_INFO) (v : Q) : SURFACE_INFO :=
  mkInfo (data C) (Briggs C) (u C) (status C) (Bound C) (set_limit C)
    (total_iterations C) (max_iterations C) (converge_mode C)
    (current_stride C) (n_columns C) (n_rows C) (mx C) (current_nx C)
    (current_ny C) (current_mx C) (previous_nx C) (previous_ny C)
    (previous_mx C) (node_sw_corner C) (node_se_corner C) (node_nw_corner C)
    (node_ne_corner C) (info C) (offset C) (periodic C) (constrained C)
    (inc C) (r_inc C) (h_n_columns C) (h_n_rows C) (h_wesn C) (h_inc C)
    (h_r_inc C) (h_pad C)
    (h_registration C) (h_mx C) (wesn_orig C) v (z_rms C) (r_z_rms C) (plane_icept C) (plane_sx C)
    (plane_sy C) (coeff C) (relax_old C) (relax_new C) (alpha C)
    (boundary_tension C) (interior_tension C) (a0_const_1 C) (a0_const_2 C)
    (alpha2 C) (e_m2 C) (one_plus_e2 C) (eps_p2 C) (eps_m2 C) (two_plus_ep2 C)
    (two_plus_em2 C).

Definition set_geometry (C : SURFACE_INFO) (pnx pny pmx nx ny cmx : Z)
    (i : SURFACE_SEARCH) (c r : gmt_axis -> Q) (nw sw se ne : Z) : SURFACE_INFO :=
  mkInfo (data C) (Briggs C) (u C) (status C) (Bound C) (set_limit C)
    (total_iterations C) (max_iterations C) (converge_mode C)
    (current_stride C) (n_columns C) (n_rows C) (mx C) nx ny cmx pnx pny pmx
    sw se nw ne i (offset C) (periodic C) (constrained C) c r (h_n_columns C)
    (h_n_rows C) (h_wesn C) (h_inc C) (h_r_inc C) (h_pad C)
    (h_registration C) (h_mx C) (wesn_orig C) (converge_limit C) (z_rms C)
    (r_z_rms C) (plane_icept C) (plane_sx C) (plane_sy C) (coeff C)
    (relax_old C) (relax_new C) (alpha C) (boundary_tension C)
    (interior_tension C) (a0_const_1 C) (a0_const_2 C) (alpha2 C) (e_m2 C)
    (one_plus_e2 C) (eps_p2 C) (eps_m2 C) (two_plus_ep2 C) (two_plus_em2 C).

Definition set_coeff (C : SURFACE_INFO) (cf : Z -> surface_nodes -> Q)
    (a1 a2 al2 em ope ep emm tpp tpm : Q) : SURFACE_INFO :=
  mkInfo (data C) (Briggs C) (u C) (status C) (Bound C) (set_limit C)
    (total_iterations C) (max_iterations C) (converge_mode C)
    (current_stride C) (n_columns C) (n_rows C) (mx C) (current_nx C)
    (current_ny C) (current_mx C) (previous_nx C) (previous_ny C)
    (previous_mx C) (node_sw_corner C) (node_se_corner C) (node_nw_corner C)
    (node_ne_corner C) (info C) (offset C) (periodic C) (constrained C)
    (inc C) (r_inc C) (h_n_columns C) (h_n_rows C) (h_wesn C) (h_inc C)
    (h_r_inc C) (h_pad C)
    (h_registration C) (h_mx C) (wesn_orig C) (converge_limit C) (z_rms C)
    (r_z_rms C) (plane_icept C)
    (plane_sx C) (plane_sy C) cf (relax_old C) (relax_new C) (alpha C)
    (boundary_tension C) (interior_tension C) a1 a2 al2 em ope ep emm tpp tpm.

(** [evaluate_trend] and [evaluate_plane] *)
Definition evaluate_trend (C : SURFACE_INFO) (xx y_up : Q) : Q :=
  plane_sx C * xx + plane_sy C * y_up.
Definition evaluate_plane (C : SURFACE_INFO) (xx y_up : Q) : Q :=
  plane_icept C + evaluate_trend C xx y_up.

(** Modelled from the spec: the grid macros [gmt_M_ijp] and [gmt_M_grd_loop]
    of the GMT headers are not part of the sources at hand.  The spec gives
    the node of (row, col) as (row + 2) * mx + (col + 2) for the 2-cell halo,
    and the loop visits every interior node of the grid, row by row. *)
Definition gmt_M_ijp (h_mx row col : Z) : Z := ((row + 2) * h_mx + col + 2)%Z.

Definition gmt_M_grd_loop {S : Type} (C : SURFACE_INFO)
    (body : Z -> Z -> Z -> S -> S) (s : S) : S :=
  fold_left (fun s rc => body (fst rc) (snd rc) (gmt_M_ijp (mx C) (fst rc) (snd rc)) s)
    (grid_nodes (h_n_rows C) (h_n_columns C)) s.

(** [surface_set_coefficients] *)
Definition surface_set_coefficients (C : SURFACE_INFO) : SURFACE_INFO :=
  let loose := 1 - interior_tension C in
  let alpha2_ := alpha C * alpha C in
  let alpha4 := alpha2_ * alpha2_ in
  let eps_p2_ := alpha2_ in
  let eps_m2_ := 1 / alpha2_ in
  let one_plus_e2_ := 1 + alpha2_ in
  let two_plus_ep2_ := 2 + 2 * eps_p2_ in
  let two_plus_em2_ := 2 + 2 * eps_m2_ in
  let e_m2_ := 1 / alpha2_ in
  let a0 := 1 / ((6 * alpha4 * loose + 10 * alpha2_ * loose + 8 * loose
                  - 2 * one_plus_e2_) + 4 * interior_tension C * one_plus_e2_) in
  let a0_const_1_ := 2 * loose * (1 + alpha4) in
  let a0_const_2_ := 2 - interior_tension C + 2 * loose * alpha2_ in
  let c_W1 := 2 * loose * one_plus_e2_ in
  let u_W1 := (2 * c_W1 + interior_tension C) * a0 in
  let c_NW := (-2 # 1) * loose * alpha2_ in
  let coeff_ := fun (set : Z) (k : surface_nodes) =>
    if (set =? SURFACE_CONSTRAINED)%Z then
      match k with
      | W2 | E2 => - loose
      | N2 | S2 => - loose * alpha4
      | W1 | E1 => c_W1
      | N1 | S1 => c_W1 * alpha2_
      | NW | NE | SW | SE => c_NW
      end
    else
      match k with
      | W2 | E2 => - loose * a0
      | N2 | S2 => - loose * alpha4 * a0
      | W1 | E1 => u_W1
      | N1 | S1 => u_W1 * alpha2_
      | NW | NE | SW | SE => c_NW * a0
      end in
  (* alpha2 and e_m2 are doubled at the end, for the boundary conditions *)
  set_coeff C coeff_ a0_const_1_ a0_const_2_ (alpha2_ * 2) (e_m2_ * 2)
    one_plus_e2_ eps_p2_ eps_m2_ two_plus_ep2_ two_plus_em2_.

(** [surface_set_offset] *)
Definition surface_set_offset (C : SURFACE_INFO) : SURFACE_INFO :=
  set_offset C (fun k =>
    match k with
    | N2 => -2 * current_mx C
    | NW => - current_mx C - 1
    | N1 => - current_mx C
    | NE => - current_mx C + 1
    | W2 => -2
    | W1 => -1
    | E1 => 1
    | E2 => 2
    | SW => current_mx C - 1
    | S1 => current_mx C
    | SE => current_mx C + 1
    | S2 => 2 * current_mx C
    end)%Z.

(** [surface_set_grid_parameters]; the divisions are C's integer division. *)
Definition surface_set_grid_parameters (C : SURFACE_INFO) : SURFACE_INFO :=
  let nx := (Z.quot (n_columns C - 1) (current_stride C) + 1)%Z in
  let ny := (Z.quot (n_rows C - 1) (current_stride C) + 1)%Z in
  let cmx := (nx + 4)%Z in
  let inc_ := fun a => inject_Z (current_stride C) * h_inc C a in
  let r_inc_ := fun a => 1 / inc_ a in
  let nw := (2 * cmx + 2)%Z in
  let sw := (nw + (ny - 1) * cmx)%Z in
  set_geometry C (current_nx C) (current_ny C) (current_mx C) nx ny cmx
    (mkSearch nx ny inc_ (s_wesn (info C))) inc_ r_inc_
    nw sw (sw + nx - 1)%Z (nw + nx - 1)%Z.

(** [surface_compare_points]: the comparison function handed to qsort_r. *)
Definition surface_compare_points (info : SURFACE_SEARCH)
    (point_1 point_2 : SURFACE_DATA) : Z :=
  let index_1 := index point_1 in
  let index_2 := index point_2 in
  if (index_1 <? index_2)%Z then (-1)%Z
  else if (index_2 <? index_1)%Z then 1%Z
  else if (index_1 =? SURFACE_OUTSIDE)%Z then 0%Z
  else if ((kind point_1 =? SURFACE_BREAKLINE) && (kind point_2 =? 0))%Z then (-1)%Z
  else if ((kind point_2 =? SURFACE_BREAKLINE) && (kind point_1 =? 0))%Z then 1%Z
  else
    let row := index_to_row index_1 (s_current_nx info) in
    let col := index_to_col index_1 (s_current_nx info) in
    let x0 := col_to_x col (s_wesn info XLO) (s_wesn info XHI) (s_inc info GMT_X)
                (s_current_nx info) in
    let y0 := row_to_y row (s_wesn info YLO) (s_wesn info YHI) (s_inc info GMT_Y)
                (s_current_ny info) in
    let dist_1 := (d_x point_1 - x0) * (d_x point_1 - x0)
                  + (d_y point_1 - y0) * (d_y point_1 - y0) in
    let dist_2 := (d_x point_2 - x0) * (d_x point_2 - x0) in
    if Qltb dist_1 dist_2 then (-1)%Z
    else
      let dist_2 := dist_2 + (d_y point_2 - y0) * (d_y point_2 - y0) in
      if Qltb dist_1 dist_2 then (-1)%Z
      else if Qltb dist_2 dist_1 then 1%Z
      else 0%Z.

(** The clipping against the bound grids as [surface_find_nearest_constraint]
    and [surface_iterate] write it: an [if] on the lower bound, [else if] on
    the upper one. *)
Definition clip_lo_else_hi (C : SURFACE_INFO) (node_final : Z) (z : Q) : Q :=
  match Bound C LO node_final with
  | Some lo =>
      if negb (set_limit C LO =? 0)%Z && Qltb z lo then lo
      else match Bound C HI node_final with
           | Some hi => if negb (set_limit C HI =? 0)%Z && Qltb hi z then hi else z
           | None => z
           end
  | None =>
      match Bound C HI node_final with
      | Some hi => if negb (set_limit C HI =? 0)%Z && Qltb hi z then hi else z
      | None => z
      end
  end.

(** The test of line 609: the datum is within 5 % of the node in x and y. *)
Definition really_close (dx dy : Q) : bool :=
  Qltb (Qabs dx) SURFACE_CLOSENESS_FACTOR && Qltb (Qabs dy) SURFACE_CLOSENESS_FACTOR.

(** Lines 632-651: the quadrant of the datum and its offsets (xx, yy)
    reflected into the first quadrant. *)
Definition reflect_to_quadrant (dx dy : Q) : Z * (Q * Q) :=
  if Qleb 0 dy then
    if Qleb 0 dx then (SURFACE_DATA_IS_IN_QUAD1, (dx, dy))
    else (SURFACE_DATA_IS_IN_QUAD2, (dy, - dx))
  else
    if Qleb 0 dx then (SURFACE_DATA_IS_IN_QUAD4, (- dy, dx))
    else (SURFACE_DATA_IS_IN_QUAD3, (- dx, - dy)).

(** Lines 596-605: row, column and node of a datum's bin and the offsets
    (dx, dy) of the datum from that node, in fractions of the increments. *)
Definition datum_row (C : SURFACE_INFO) (d : SURFACE_DATA) : Z :=
  index_to_row (index d) (current_nx C).
Definition datum_col (C : SURFACE_INFO) (d : SURFACE_DATA) : Z :=
  index_to_col (index d) (current_nx C).
Definition datum_node (C : SURFACE_INFO) (d : SURFACE_DATA) : Z :=
  row_col_to_node (datum_row C d) (datum_col C d) (current_mx C).
Definition datum_offsets (C : SURFACE_INFO) (d : SURFACE_DATA) : Q * Q :=
  let x0 := col_to_x (datum_col C d) (h_wesn C XLO) (h_wesn C XHI) (inc C GMT_X)
              (current_nx C) in
  let y0 := row_to_y (datum_row C d) (h_wesn C YLO) (h_wesn C YHI) (inc C GMT_Y)
              (current_ny C) in
  (x_to_fcol (d_x d) x0 (r_inc C GMT_X), y_to_frow (d_y d) y0 (r_inc C GMT_Y)).

(** The variables of the loop over the data in
    [surface_find_nearest_constraint]. *)
Record nearest_state : Type := mkNearest {
  ns_status : Z -> Z;
  ns_u : Z -> Q;
  ns_Briggs : Z -> SURFACE_BRIGGS;
  ns_last_index : Z;
  ns_briggs_index : Z
}.

(** The body of that loop, for the datum [d = C->data[k]]. *)
Definition nearest_step (C : SURFACE_INFO) (st : nearest_state) (d : SURFACE_DATA)
    : nearest_state :=
  if (index d =? ns_last_index st)%Z then st
  else
    let row := datum_row C d in
    let col := datum_col C d in
    let node := datum_node C d in
    let '(dx, dy) := datum_offsets C d in
    if really_close dx dy then
      let z_at_node := d_z d + r_z_rms C * inject_Z (current_stride C)
                                 * evaluate_trend C dx dy in
      let z_at_node :=
        if constrained C then
          clip_lo_else_hi C
            (gmt_M_ijp (mx C) (current_stride C * row) (current_stride C * col))
            z_at_node
        else z_at_node in
      mkNearest (upd (ns_status st) node SURFACE_IS_CONSTRAINED)
                (upd (ns_u st) node z_at_node)
                (ns_Briggs st) (index d) (ns_briggs_index st)
    else
      let '(quadrant, (xx, yy)) := reflect_to_quadrant dx dy in
      mkNearest (upd (ns_status st) node quadrant)
                (ns_u st)
                (upd (ns_Briggs st) (ns_briggs_index st)
                   (surface_solve_Briggs_coefficients (a0_const_1 C) (a0_const_2 C)
                      xx yy (d_z d)))
                (index d) (ns_briggs_index st + 1)%Z.

(** The first loop of [surface_find_nearest_constraint]: the status of all
    interior nodes of [C->Grid] is reset. *)
Definition reset_status (C : SURFACE_INFO) (status : Z -> Z) : Z -> Z :=
  gmt_M_grd_loop C (fun _ _ node st => upd st node SURFACE_IS_UNCONSTRAINED) status.

(** [surface_find_nearest_constraint] *)
Definition find_nearest_loop (C : SURFACE_INFO) : nearest_state :=
  fold_left (nearest_step C) (data C)
    (mkNearest (reset_status C (status C)) (u C) (Briggs C) UINTMAX_MAX 0%Z).

Definition surface_find_nearest_constraint (C : SURFACE_INFO) : SURFACE_INFO :=
  let st := find_nearest_loop C in
  set_Briggs (set_u (set_status C (ns_status st)) (ns_u st)) (ns_Briggs st).

(** [surface_set_BCs] fills the ghost rows and columns of [u] in five steps,
    each a loop (or, for the corners, a block) of the function. *)

(** (1-T) d2[]/dn2 + T d[]/dn = 0 along the south and north edges. *)
Definition set_BC1_south_north (C : SURFACE_INFO) (u : Z -> Q) : Z -> Q :=
  let d_n := offset C in
  let y_denom := 2 * alpha C * (1 - boundary_tension C) + boundary_tension C in
  let y_0_const := 4 * alpha C * (1 - boundary_tension C) / y_denom in
  let y_1_const := (boundary_tension C - 2 * alpha C * (1 - boundary_tension C))
                   / y_denom in
  fold_left (fun u col =>
      let n_s := (node_sw_corner C + col)%Z in
      let n_n := (node_nw_corner C + col)%Z in
      let u := upd u (n_s + d_n S1)%Z
                 (y_0_const * u n_s + y_1_const * u (n_s + d_n N1)%Z) in
      upd u (n_n + d_n N1)%Z
        (y_0_const * u n_n + y_1_const * u (n_n + d_n S1)%Z))
    (Zrange (current_nx C)) u.

(** The same along the west and east edges, or periodicity in longitude. *)
Definition set_BC1_west_east (C : SURFACE_INFO) (u : Z -> Q) : Z -> Q :=
  let d_n := offset C in
  let x_0_const := 4 * (1 - boundary_tension C) / (2 - boundary_tension C) in
  let x_1_const := (3 * boundary_tension C - 2) / (2 - boundary_tension C) in
  fold_left (fun u row =>
      let n_w := (node_nw_corner C + row * current_mx C)%Z in
      let n_e := (node_ne_corner C + row * current_mx C)%Z in
      if periodic C then
        let u := upd u (n_w + d_n W1)%Z (u (n_e + d_n W1)%Z) in
        let u := upd u (n_e + d_n E1)%Z (u (n_w + d_n E1)%Z) in
        let v := (1 # 2) * (u n_e + u n_w) in
        upd (upd u n_w v) n_e v
      else
        let u := upd u (n_w + d_n W1)%Z
                   (x_1_const * u (n_w + d_n E1)%Z + x_0_const * u n_w) in
        upd u (n_e + d_n E1)%Z
          (x_1_const * u (n_e + d_n W1)%Z + x_0_const * u n_e))
    (Zrange (current_ny C)) u.

(** d2[]/dxdy = 0 at each of the 4 corners. *)
Definition set_BC_corners (C : SURFACE_INFO) (u : Z -> Q) : Z -> Q :=
  let d_n := offset C in
  let n := node_sw_corner C in
  let u := upd u (n + d_n SW)%Z
             (u (n + d_n SE)%Z + u (n + d_n NW)%Z - u (n + d_n NE)%Z) in
  let n := node_nw_corner C in
  let u := upd u (n + d_n NW)%Z
             (u (n + d_n NE)%Z + u (n + d_n SW)%Z - u (n + d_n SE)%Z) in
  let n := node_se_corner C in
  let u := upd u (n + d_n SE)%Z
             (u (n + d_n SW)%Z + u (n + d_n NE)%Z - u (n + d_n NW)%Z) in
  let n := node_ne_corner C in
  upd u (n + d_n NE)%Z
    (u (n + d_n NW)%Z + u (n + d_n SE)%Z - u (n + d_n SW)%Z).

(** The body of the loop that sets dC/dn = 0 along the south and north
    edges, for the column [col]. *)
Definition BC2_south_north_body (C : SURFACE_INFO) (u : Z -> Q) (col : Z) : Z -> Q :=
  let d_n := offset C in
  let n_s := (node_sw_corner C + col)%Z in
  let n_n := (node_nw_corner C + col)%Z in
  let u := upd u (n_s + d_n S2)%Z
             (u (n_s + d_n N2)%Z
              + eps_m2 C * (u (n_s + d_n NW)%Z + u (n_s + d_n NE)%Z
                            - u (n_s + d_n SW)%Z - u (n_s + d_n SE)%Z)
              + two_plus_em2 C * (u (n_s + d_n S1)%Z - u (n_s + d_n N1)%Z)) in
  upd u (n_n + d_n N2)%Z
    (u (n_n + d_n S2)%Z
     + eps_m2 C * (u (n_n + d_n SW)%Z + u (n_n + d_n SE)%Z
                   - u (n_n + d_n NW)%Z - u (n_n + d_n NE)%Z)
     + two_plus_em2 C * (u (n_n + d_n N1)%Z - u (n_n + d_n S1)%Z)).

Definition set_BC2_south_north (C : SURFACE_INFO) (u : Z -> Q) : Z -> Q :=
  fold_left (BC2_south_north_body C) (Zrange (current_nx C)) u.

(** The body of the loop that sets dC/dn = 0 along the west and east edges
    (or periodicity), for the row [row]. *)
Definition BC2_west_east_body (C : SURFACE_INFO) (u : Z -> Q) (row : Z) : Z -> Q :=
  let d_n := offset C in
  let n_w := (node_nw_corner C + row * current_mx C)%Z in
  let n_e := (node_ne_corner C + row * current_mx C)%Z in
  if periodic C then
    let u := upd u (n_w + d_n W2)%Z (u (n_e + d_n W2)%Z) in
    upd u (n_e + d_n E2)%Z (u (n_w + d_n E2)%Z)
  else
    let u := upd u (n_w + d_n W2)%Z
               (u (n_w + d_n E2)%Z
                + eps_p2 C * (u (n_w + d_n NE)%Z + u (n_w + d_n SE)%Z
                              - u (n_w + d_n NW)%Z - u (n_w + d_n SW)%Z)
                + two_plus_ep2 C * (u (n_w + d_n W1)%Z - u (n_w + d_n E1)%Z)) in
    upd u (n_e + d_n E2)%Z
      (u (n_e + d_n W2)%Z
       + eps_p2 C * (u (n_e + d_n NW)%Z + u (n_e + d_n SW)%Z
                     - u (n_e + d_n NE)%Z - u (n_e + d_n SE)%Z)
       + two_plus_ep2 C * (u (n_e + d_n E1)%Z - u (n_e + d_n W1)%Z)).

Definition set_BC2_west_east (C : SURFACE_INFO) (u : Z -> Q) : Z -> Q :=
  fold_left (BC2_west_east_body C) (Zrange (current_ny C)) u.

Definition surface_set_BCs (C : SURFACE_INFO) (u : Z -> Q) : Z -> Q :=
  set_BC2_west_east C
    (set_BC2_south_north C
       (set_BC_corners C
          (set_BC1_west_east C
             (set_BC1_south_north C u)))).

(** The variables of one sweep of [surface_iterate]. *)
Record sweep_state : Type := mkSweep {
  sw_u : Z -> Q;
  sw_briggs_index : Z;
  sw_max_u_change : Q
}.

(** The body of the loops over rows and columns in [surface_iterate], at the
    node of ([row], [col]); [u_new] and [u_old] are the same array. *)
Definition iterate_node (C : SURFACE_INFO) (st : sweep_state) (rc : Z * Z)
    : sweep_state :=
  let '(row, col) := rc in
  let node := (node_nw_corner C + row * current_mx C + col)%Z in
  if (status C node =? SURFACE_IS_CONSTRAINED)%Z then st
  else
    let u_old := sw_u st in
    let set := if (status C node =? SURFACE_IS_UNCONSTRAINED)%Z
               then SURFACE_UNCONSTRAINED else SURFACE_CONSTRAINED in
    let u_00 := fold_left (fun acc k => acc + u_old (node + offset C k)%Z * coeff C set k)
                  all_nodes 0 in
    let u_00 :=
      if (set =? SURFACE_CONSTRAINED)%Z then
        let b := Briggs C (sw_briggs_index st) in
        let quadrant := status C node in
        let sum_bk_uk :=
          fold_left (fun acc bk => acc + fst bk * u_old (node + offset C (snd bk))%Z)
            (combine [b0 b; b1 b; b2 b; b3 b] (p quadrant)) 0 in
        (u_00 + a0_const_2 C * (sum_bk_uk + b4 b)) * b5 b
      else u_00 in
    let briggs_index :=
      if (set =? SURFACE_CONSTRAINED)%Z then (sw_briggs_index st + 1)%Z
      else sw_briggs_index st in
    let u_00 := u_old node * relax_old C + u_00 * relax_new C in
    let u_00 :=
      if constrained C then
        clip_lo_else_hi C
          (gmt_M_ijp (mx C) (current_stride C * row) 0 + col * current_stride C)%Z u_00
      else u_00 in
    let u_change := Qabs (u_00 - u_old node) in
    mkSweep (upd u_old node u_00) briggs_index
      (if Qltb (sw_max_u_change st) u_change then u_change else sw_max_u_change st).

(** One pass of the [do] loop up to the end of the loops over the nodes. *)
Definition surface_sweep (C : SURFACE_INFO) (u : Z -> Q) : sweep_state :=
  fold_left (iterate_node C) (grid_nodes (current_ny C) (current_nx C))
    (mkSweep (surface_set_BCs C u) 0%Z (-1 # 1)).

(** [unsigned int current_max_iterations = C->max_iterations * C->current_stride] *)
Definition current_max_iterations (C : SURFACE_INFO) : Z :=
  ((max_iterations C * current_stride C) mod 2 ^ 32)%Z.

(** The [do ... while (!finished)] loop of [surface_iterate].  [fuel] bounds
    the number of further passes; [None] means it ran out. *)
Fixpoint surface_iterate_loop (fuel : nat) (C : SURFACE_INFO) (iteration_count : Z)
    : option (SURFACE_INFO * Z) :=
  let current_limit := converge_limit C / inject_Z (current_stride C) in
  let st := surface_sweep C (u C) in
  let C := set_u C (sw_u st) in
  let iteration_count := (iteration_count + 1)%Z in
  let C := set_total_iterations C ((total_iterations C + 1) mod 2 ^ 64)%Z in
  let max_z_change := sw_max_u_change st * z_rms C in
  let finished := Qleb max_z_change current_limit
                  || (current_max_iterations C <=? iteration_count)%Z in
  if finished then Some (C, iteration_count)
  else match fuel with
       | O => None
       | Datatypes.S fuel' => surface_iterate_loop fuel' C iteration_count
       end.

(** [surface_iterate]: the updated [C] and the returned iteration count.
    [mode] only selects the letter written to the log. *)
Definition surface_iterate (C : SURFACE_INFO) (mode : Z) : option (SURFACE_INFO * Z) :=
  surface_iterate_loop (Z.to_nat (current_max_iterations C)) C 0%Z.

(** The last part of [surface_check_errors]: the boundary values are
    updated first, then the curvature is summed over the grid.  (The misfit
    at the data points, computed in between, reads [u] only.) *)
Definition surface_check_errors_curvature (C : SURFACE_INFO) : Q :=
  let u := surface_set_BCs C (u C) in
  let d_node := offset C in
  gmt_M_grd_loop C (fun _ _ node curvature =>
      let c := u (node + d_node E1)%Z + u (node + d_node W1)%Z
               + u (node + d_node N1)%Z + u (node + d_node S1)%Z
               - 4 * u (node + d_node E1)%Z in
      curvature + c * c) 0.

(** [surface_remove_planar_trend] *)
Definition surface_remove_planar_trend (C : SURFACE_INFO) : SURFACE_INFO :=
  let fcol := fun d => x_to_fcol (d_x d) (h_wesn C XLO) (h_r_inc C GMT_X) in
  let frow := fun d => y_to_frow (d_y d) (h_wesn C YLO) (h_r_inc C GMT_Y) in
  let sum := fun (f : SURFACE_DATA -> Q) => fold_left (fun acc d => acc + f d) (data C) 0 in
  let sx := sum fcol in
  let sy := sum frow in
  let sz := sum d_z in
  let sxx := sum (fun d => fcol d * fcol d) in
  let sxy := sum (fun d => fcol d * frow d) in
  let sxz := sum (fun d => fcol d * d_z d) in
  let syy := sum (fun d => frow d * frow d) in
  let syz := sum (fun d => frow d * d_z d) in
  let npoints := inject_Z (Z.of_nat (length (data C))) in
  let d := npoints * sxx * syy + 2 * sx * sy * sxy - npoints * sxy * sxy
           - sx * sx * syy - sy * sy * sxx in
  if Qeqb d 0 then set_plane C 0 0 0
  else
    let a := sz * sxx * syy + sx * sxy * syz + sy * sxy * sxz - sz * sxy * sxy
             - sx * sxz * syy - sy * syz * sxx in
    let b := npoints * sxz * syy + sz * sy * sxy + sy * sx * syz - npoints * sxy * syz
             - sz * sx * syy - sy * sy * sxz in
    let c := npoints * sxx * syz + sx * sy * sxz + sz * sx * sxy - npoints * sxy * sxz
             - sx * sx * syz - sz * sy * sxx in
    let C := set_plane C (a / d) (if periodic C then 0 else b / d) (c / d) in
    set_data C
      (map (fun k => mkData (d_x k) (d_y k)
                       (d_z k - evaluate_plane C (fcol k) (frow k)) (kind k) (index k))
           (data C)).

(** [surface_restore_planar_trend] *)
Definition surface_restore_planar_trend (C : SURFACE_INFO) : SURFACE_INFO :=
  set_u C
    (fold_left (fun u rc =>
        let '(row, col) := rc in
        let y_up := inject_Z (h_n_rows C - row - 1) in
        let node := (row_col_to_node row 0 (current_mx C) + col)%Z in
        upd u node (u node * z_rms C + evaluate_plane C (inject_Z col) y_up))
      (grid_nodes (h_n_rows C) (h_n_columns C)) (u C)).

(** The loop of [surface_throw_away_unusables] over the sorted data: every
    datum with the index of its predecessor is marked [SURFACE_OUTSIDE].
    Returns the array and [n_outside]. *)
Fixpoint mark_unusables (last_index : Z) (l : list SURFACE_DATA)
    : list SURFACE_DATA * Z :=
  match l with
  | [] => ([], 0%Z)
  | d :: l' =>
      if (index d =? last_index)%Z then
        let '(m, n_outside) := mark_unusables last_index l' in
        (mkData (d_x d) (d_y d) (d_z d) (kind d) SURFACE_OUTSIDE :: m, (n_outside + 1)%Z)
      else
        let '(m, n_outside) := mark_unusables (index d) l' in
        (d :: m, n_outside)
  end.

(** [surface_throw_away_unusables].  [qsort_r] is the C library's sort, taken
    as a parameter: it receives the comparison function and the array. *)
Definition surface_throw_away_unusables
    (qsort_r : (SURFACE_DATA -> SURFACE_DATA -> Z) -> list SURFACE_DATA -> list SURFACE_DATA)
    (C : SURFACE_INFO) : SURFACE_INFO :=
  let sorted := qsort_r (surface_compare_points (info C)) (data C) in
  let '(marked, n_outside) := mark_unusables UINTMAX_MAX sorted in
  if (n_outside =? 0)%Z then set_data C marked
  else
    let resorted := qsort_r (surface_compare_points (info C)) marked in
    set_data C (firstn (Z.to_nat (Z.of_nat (length resorted) - n_outside)) resorted).

(** [surface_rescale_z_values]; returns [C] and the flag (1: the data lie on
    a plane).  [sqrt] is the C library's square root, taken as a parameter. *)
Definition surface_rescale_z_values (sqrt : Q -> Q) (C : SURFACE_INFO)
    : SURFACE_INFO * Z :=
  let ssz := fold_left (fun acc d => acc + d_z d * d_z d) (data C) 0 in
  let z_rms_ := sqrt (ssz / inject_Z (Z.of_nat (length (data C)))) in
  if Qltb z_rms_ GMT_CONV8_LIMIT then (set_rms C 1 1, 1%Z)
  else
    let C := set_rms C z_rms_ (1 / z_rms_) in
    let C := set_data C
      (map (fun k => mkData (d_x k) (d_y k) (d_z k * r_z_rms C) (kind k) (index k))
           (data C)) in
    if Qeqb (converge_limit C) 0 || (converge_mode C =? BY_PERCENT)%Z then
      let limit := if (converge_mode C =? BY_PERCENT)%Z then converge_limit C
                   else SURFACE_CONV_LIMIT in
      (set_converge_limit C (limit * z_rms C), 0%Z)
    else (C, 0%Z).

(** The clipping of [surface_write_grid]: two separate [if]s. *)
Definition clip_lo_then_hi (C : SURFACE_INFO)
    (B : surface_bound -> Z -> option Q) (node : Z) (z : Q) : Q :=
  let z := match B LO node with
           | Some lo => if negb (set_limit C LO =? 0)%Z && Qltb z lo then lo else z
           | None => z
           end in
  match B HI node with
  | Some hi => if negb (set_limit C HI =? 0)%Z && Qltb hi z then hi else z
  | None => z
  end.

(** C's [lrint] in the default rounding mode: to nearest, ties to even. *)
Definition lrint (x : Q) : Z :=
  let f := Qfloor x in
  match Qcompare (x - inject_Z f) (1 # 2) with
  | Lt => f
  | Gt => (f + 1)%Z
  | Eq => if Z.even f then f else (f + 1)%Z
  end.

Definition MAX (a b : Q) : Q := if Qltb b a then a else b.

Definition GMT_RUNTIME_ERROR : Z := 79.

(** [struct SURFACE_CTRL], the members of [Ctrl->Q] that are read below. *)
Record SURFACE_CTRL : Type := mkCtrl {
  Q_active : bool;
  Q_adjusted : bool
}.

(** What the functions below take from [struct GMT_CTRL *GMT] and its API:
    the registration asked for, [GMT->common.R.registration], and the calls
    into the GMT library, whose code is not part of [surface.c].  [irint]
    is GMT's rounding of a double to an [int].  [gmt_set_grddim] computes
    the dimensions of a header, here its [n_columns], [n_rows] and [mx],
    from its region, increments, registration and pads.  [GMT_Set_Comment]
    and [GMT_Write_Data] return an error code, [GMT_Create_Data] succeeds or
    not, and [API_error] is [API->error] after a call that failed. *)
Record GMT_CTRL : Type := mkGMT {
  R_registration : gmt_registration;
  irint : Q -> Z;
  gmt_set_grddim : (gmt_side -> Q) -> (gmt_axis -> Q) -> gmt_registration
                   -> (gmt_side -> Z) -> Z * Z * Z;
  GMT_Set_Comment : SURFACE_INFO -> Z;
  GMT_Create_Data : SURFACE_INFO -> bool;
  GMT_Write_Data : SURFACE_INFO -> Z;
  API_error : Z
}.

(** Assignments to the members of [C->Grid->header], and to [C->n_columns]
    and [C->n_rows]. *)
Definition set_header (C : SURFACE_INFO) (nc nr : Z) (w : gmt_side -> Q)
    (pad : gmt_side -> Z) (reg : gmt_registration) (hmx : Z) : SURFACE_INFO :=
  mkInfo (data C) (Briggs C) (u C) (status C) (Bound C) (set_limit C)
    (total_iterations C) (max_iterations C) (converge_mode C)
    (current_stride C) (n_columns C) (n_rows C) (mx C) (current_nx C)
    (current_ny C) (current_mx C) (previous_nx C) (previous_ny C)
    (previous_mx C) (node_sw_corner C) (node_se_corner C) (node_nw_corner C)
    (node_ne_corner C) (info C) (offset C) (periodic C) (constrained C)
    (inc C) (r_inc C) nc nr w (h_inc C) (h_r_inc C) pad reg hmx (wesn_orig C)
    (converge_limit C) (z_rms C) (r_z_rms C) (plane_icept C)
    (plane_sx C) (plane_sy C) (coeff C) (relax_old C) (relax_new C) (alpha C)
    (boundary_tension C) (interior_tension C) (a0_const_1 C) (a0_const_2 C)
    (alpha2 C) (e_m2 C) (one_plus_e2 C) (eps_p2 C) (eps_m2 C) (two_plus_ep2 C)
    (two_plus_em2 C).

Definition set_n_columns_rows (C : SURFACE_INFO) (nc nr : Z) : SURFACE_INFO :=
  mkInfo (data C) (Briggs C) (u C) (status C) (Bound C) (set_limit C)
    (total_iterations C) (max_iterations C) (converge_mode C)
    (current_stride C) nc nr (mx C) (current_nx C)
    (current_ny C) (current_mx C) (previous_nx C) (previous_ny C)
    (previous_mx C) (node_sw_corner C) (node_se_corner C) (node_nw_corner C)
    (node_ne_corner C) (info C) (offset C) (periodic C) (constrained C)
    (inc C) (r_inc C) (h_n_columns C) (h_n_rows C) (h_wesn C) (h_inc C)
    (h_r_inc C) (h_pad C) (h_registration C) (h_mx C) (wesn_orig C)
    (converge_limit C) (z_rms C) (r_z_rms C) (plane_icept C)
    (plane_sx C) (plane_sy C) (coeff C) (relax_old C) (relax_new C) (alpha C)
    (boundary_tension C) (interior_tension C) (a0_const_1 C) (a0_const_2 C)
    (alpha2 C) (e_m2 C) (one_plus_e2 C) (eps_p2 C) (eps_m2 C) (two_plus_ep2 C)
    (two_plus_em2 C).

(** [gmt_set_grddim (GMT, C->Grid->header)] *)
Definition set_grddim (GMT : GMT_CTRL) (C : SURFACE_INFO) : SURFACE_INFO :=
  let '(nc, nr, hmx) :=
    gmt_set_grddim GMT (h_wesn C) (h_inc C) (h_registration C) (h_pad C) in
  set_header C nc nr (h_wesn C) (h_pad C) (h_registration C) hmx.

(** Modelled from the spec: [gmt_M_ijp] and [gmt_M_grd_loop] for a header
    whose halo [surface_write_grid] has widened.  The spec trims the final
    grid "by adjusting the halo pad": the node of (row, col) is then
    (row + pad[YHI]) * mx + (col + pad[XLO]), which is the formula above
    when every pad is 2, and the loop visits the n_rows by n_columns nodes
    inside the pads, row by row. *)
Definition gmt_M_ijp_header (C : SURFACE_INFO) (row col : Z) : Z :=
  ((row + h_pad C YHI) * h_mx C + col + h_pad C XLO)%Z.

Definition gmt_M_grd_loop_header {S : Type} (C : SURFACE_INFO)
    (body : Z -> Z -> Z -> S -> S) (s : S) : S :=
  fold_left (fun s rc => body (fst rc) (snd rc) (gmt_M_ijp_header C (fst rc) (snd rc)) s)
    (grid_nodes (h_n_rows C) (h_n_columns C)) s.

(** Lines 947-977 of [surface_write_grid]: when the region was enlarged for
    the solution, the pads are widened to shrink it to the one asked for;
    for pixel registration the easternmost column and the northernmost row
    become part of the pad.  The pads and the dimensions are small counts
    of grid cells; their arithmetic is modelled without wrap-around. *)
Definition write_grid_header (GMT : GMT_CTRL) (Ctrl : SURFACE_CTRL) (C : SURFACE_INFO)
    : SURFACE_INFO :=
  let C :=
    if negb (Q_active Ctrl) && Q_adjusted Ctrl then
      let del_pad := fun k =>
        match k with
        | XLO => irint GMT ((wesn_orig C XLO - h_wesn C XLO) * h_r_inc C GMT_X)
        | XHI => irint GMT ((h_wesn C XHI - wesn_orig C XHI) * h_r_inc C GMT_X)
        | YLO => irint GMT ((wesn_orig C YLO - h_wesn C YLO) * h_r_inc C GMT_Y)
        | YHI => irint GMT ((h_wesn C YHI - wesn_orig C YHI) * h_r_inc C GMT_Y)
        end in
      let n := (Z.abs (del_pad XLO) + Z.abs (del_pad XHI)
                + Z.abs (del_pad YLO) + Z.abs (del_pad YHI))%Z in
      if negb (n =? 0)%Z then
        let C := set_header C (h_n_columns C) (h_n_rows C) (h_wesn C)
                   (fun k => (h_pad C k + del_pad k)%Z) (h_registration C) (h_mx C) in
        let C := set_header C (h_n_columns C) (h_n_rows C) (wesn_orig C)
                   (h_pad C) (h_registration C) (h_mx C) in
        set_grddim GMT C
      else C
    else C in
  match R_registration GMT with
  | GMT_GRID_PIXEL_REG =>
      let C := set_header C (h_n_columns C) (h_n_rows C) (wesn_orig C)
                 (h_pad C) (R_registration GMT) (h_mx C) in
      let C := set_n_columns_rows
                 (set_header C (h_n_columns C - 1)%Z (h_n_rows C - 1)%Z (h_wesn C)
                    (h_pad C) (h_registration C) (h_mx C))
                 (n_columns C - 1)%Z (n_rows C - 1)%Z in
      let C := set_header C (h_n_columns C) (h_n_rows C) (h_wesn C)
                 (fun k => match k with
                           | XHI | YHI => (h_pad C k + 1)%Z
                           | _ => h_pad C k
                           end) (h_registration C) (h_mx C) in
      set_grddim GMT C
  | GMT_GRID_NODE_REG => C
  end.

(** [surface_write_grid].  [reloaded] is what the call
    [surface_load_constraints (GMT, C, false)] gives: its return value and
    the bound grids it loads, not detrended; the function is modelled for
    any outcome of that call.  Returns [C], whose [u] is the grid handed to
    [GMT_Write_Data] under the header of [C], and the error code. *)
Definition surface_write_grid (GMT : GMT_CTRL) (Ctrl : SURFACE_CTRL)
    (reloaded : Z * (surface_bound -> Z -> option Q)) (C : SURFACE_INFO)
    : SURFACE_INFO * Z :=
  let C := write_grid_header GMT Ctrl C in
  let periodic_average := fun u =>
    if periodic C then
      fold_left (fun u row =>
          let node := row_col_to_node row 0 (current_mx C) in
          let v := (1 # 2) * (u node + u (node + current_nx C - 1)%Z) in
          upd (upd u (node + current_nx C - 1)%Z v) node v)
        (Zrange (current_ny C)) u
    else u in
  let write := fun C =>
    if negb (GMT_Write_Data GMT C =? GMT_NOERROR)%Z then (C, API_error GMT)
    else (C, 0%Z) in
  if constrained C then
    let '(err, B) := reloaded in
    if negb (err =? 0)%Z then (C, err)
    else
      let u1 := gmt_M_grd_loop_header C
                  (fun _ _ node u => upd u node (clip_lo_then_hi C B node (u node)))
                  (u C) in
      write (set_u C (periodic_average u1))
  else write (set_u C (periodic_average (u C))).

(** Step 1 of [surface_interpolate_add_breakline], for one segment given as
    the list of its vertices (x, y, z).  [hypot] is the C library's function,
    taken as a parameter. *)
Section Breakline.

Variable hypot : Q -> Q -> Q.
Variable C : SURFACE_INFO.
Variable fix_z : bool.
Variable z_level : Q.

(** How many points to interpolate on the edge from [v0] to [v1]. *)
Definition breakline_n_int (v0 v1 : Q * Q * Q) : Z :=
  let dx := fst (fst v1) - fst (fst v0) in
  let dy := snd (fst v1) - snd (fst v0) in
  (lrint (hypot dx dy * MAX (r_inc C GMT_X) (r_inc C GMT_Y)) + 1)%Z.

(** The body of the loop over the edges: the samples n = 0 .. n_int - 1. *)
Definition breakline_edge (v0 v1 : Q * Q * Q) : list (Q * Q * Q) :=
  let n_int := breakline_n_int v0 v1 in
  let dx := (fst (fst v1) - fst (fst v0)) / inject_Z n_int in
  let dy := (snd (fst v1) - snd (fst v0)) / inject_Z n_int in
  let dz := (snd v1 - snd v0) / inject_Z n_int in
  map (fun n => (fst (fst v0) + inject_Z n * dx,
                 snd (fst v0) + inject_Z n * dy,
                 if fix_z then z_level else snd v0 + inject_Z n * dz))
      (Zrange n_int).

(** The densified line x[0 .. new_n - 1], y[], z[]: the samples of every
    edge, then the last vertex. *)
Fixpoint breakline_interpolate (line : list (Q * Q * Q)) : list (Q * Q * Q) :=
  match line with
  | [] => []
  | v0 :: rest =>
      match rest with
      | [] => [(fst (fst v0), snd (fst v0), if fix_z then z_level else snd v0)]
      | v1 :: _ => breakline_edge v0 v1 ++ breakline_interpolate rest
      end
  end.

End Breakline.

(** [GMT_surface] from the point where the data have been read (line 2092)
    up to the choice between writing the plane and solving.  The C library's
    [qsort_r] and [sqrt] are parameters, and so are the outcome [reloaded]
    of reloading the bound grids in [surface_write_grid] and the multigrid
    solution of lines 2127-2295, [multigrid_solve].  Returns [C] and the
    error code. *)
Definition GMT_surface (GMT : GMT_CTRL) (Ctrl : SURFACE_CTRL)
    (qsort_r : (SURFACE_DATA -> SURFACE_DATA -> Z) -> list SURFACE_DATA -> list SURFACE_DATA)
    (sqrt : Q -> Q)
    (reloaded : Z * (surface_bound -> Z -> option Q))
    (multigrid_solve : SURFACE_INFO -> SURFACE_INFO * Z)
    (C : SURFACE_INFO) : SURFACE_INFO * Z :=
  let C := set_current_stride C 1%Z in
  let C := surface_set_grid_parameters C in
  let C := surface_throw_away_unusables qsort_r C in
  let C := surface_remove_planar_trend C in
  let '(C, key) := surface_rescale_z_values sqrt C in
  if negb (GMT_Set_Comment GMT C =? GMT_NOERROR)%Z then (C, API_error GMT)
  else if (key =? 1)%Z then
    (* Data lie exactly on a plane; write a grid with the plane and exit *)
    if negb (GMT_Create_Data GMT C) then (C, API_error GMT)
    else
      let C := set_u C (fun _ => 0) in
      let C := surface_restore_planar_trend C in
      let '(C, error) := surface_write_grid GMT Ctrl reloaded C in
      if negb (error =? 0)%Z then (C, error) else (C, GMT_NOERROR)
  else multigrid_solve C.

(** ** Further functions of surface.c *)

(** The cast [(int)] of a 64-bit integer: its low 32 bits, read as a signed
    number. *)
Definition int_cast (z : Z) : Z := ((z + 2 ^ 31) mod 2 ^ 32 - 2 ^ 31)%Z.

(** The row and column [surface_set_index] computes for a datum, and its
    test that they miss the current grid. *)
Definition datum_bin (C : SURFACE_INFO) (d : SURFACE_DATA) : Z * Z :=
  let col := int_cast (x_to_col (d_x d) (h_wesn C XLO) (r_inc C GMT_X)) in
  let row := int_cast (y_to_row (d_y d) (h_wesn C YLO) (r_inc C GMT_Y) (current_ny C)) in
  (row, col).

Definition outside_grid (C : SURFACE_INFO) (d : SURFACE_DATA) : bool :=
  let '(row, col) := datum_bin C d in
  (col <? 0)%Z || (current_nx C <=? col)%Z || (row <? 0)%Z || (current_ny C <=? row)%Z.

(** The body of the loop of [surface_set_index]. *)
Definition set_index_datum (C : SURFACE_INFO) (d : SURFACE_DATA) : SURFACE_DATA :=
  let '(row, col) := datum_bin C d in
  if outside_grid C d
  then mkData (d_x d) (d_y d) (d_z d) (kind d) SURFACE_OUTSIDE
  else mkData (d_x d) (d_y d) (d_z d) (kind d) (row_col_to_index row col (current_nx C)).

(** [surface_set_index]: the indices are recomputed for the current stride,
    the array is sorted again, and [npoints] is lowered by the number of
    data that missed the grid, which hides the tail of the array. *)
Definition surface_set_index
    (qsort_r : (SURFACE_DATA -> SURFACE_DATA -> Z) -> list SURFACE_DATA -> list SURFACE_DATA)
    (C : SURFACE_INFO) : SURFACE_INFO :=
  let indexed := map (set_index_datum C) (data C) in
  let k_skipped := Z.of_nat (length (filter (outside_grid C) (data C))) in
  let sorted := qsort_r (surface_compare_points (info C)) indexed in
  let npoints := (Z.of_nat (length (data C)) - k_skipped)%Z in
  set_data C (firstn (Z.to_nat npoints) sorted).

(** Lines 1195-1214 of [surface_check_errors]: the estimate of the surface
    at the offsets (dx, dy) from [node], by a third-order Taylor expansion
    whose derivatives are finite differences of [u]. *)
Definition taylor_estimate (C : SURFACE_INFO) (u : Z -> Q) (node : Z) (dx dy : Q) : Q :=
  let d_node := offset C in
  let du_dx := (1 # 2) * (u (node + d_node E1)%Z - u (node + d_node W1)%Z) in
  let du_dy := (1 # 2) * (u (node + d_node N1)%Z - u (node + d_node S1)%Z) in
  let d2u_dx2 := u (node + d_node E1)%Z + u (node + d_node W1)%Z - 2 * u node in
  let d2u_dy2 := u (node + d_node N1)%Z + u (node + d_node S1)%Z - 2 * u node in
  let d2u_dxdy := (1 # 4) * (u (node + d_node NE)%Z - u (node + d_node NW)%Z
                             - u (node + d_node SE)%Z + u (node + d_node SW)%Z) in
  let d3u_dx3 := (1 # 2) * (u (node + d_node E2)%Z - 2 * u (node + d_node E1)%Z
                            + 2 * u (node + d_node W1)%Z - u (node + d_node W2)%Z) in
  let d3u_dy3 := (1 # 2) * (u (node + d_node N2)%Z - 2 * u (node + d_node N1)%Z
                            + 2 * u (node + d_node S1)%Z - u (node + d_node S2)%Z) in
  let d3u_dx2dy :=
    (1 # 2) * ((u (node + d_node NE)%Z + u (node + d_node NW)%Z
                - 2 * u (node + d_node N1)%Z)
               - (u (node + d_node SE)%Z + u (node + d_node SW)%Z
                  - 2 * u (node + d_node S1)%Z)) in
  let d3u_dxdy2 :=
    (1 # 2) * ((u (node + d_node NE)%Z + u (node + d_node SE)%Z
                - 2 * u (node + d_node E1)%Z)
               - (u (node + d_node NW)%Z + u (node + d_node SW)%Z
                  - 2 * u (node + d_node W1)%Z)) in
  u node + dx * (du_dx + dx * ((1 # 2) * d2u_dx2 + dx * (d3u_dx3 / 6)))
  + dy * (du_dy + dy * ((1 # 2) * d2u_dy2 + dy * (d3u_dy3 / 6)))
  + dx * dy * d2u_dxdy + (1 # 2) * dx * d3u_dx2dy + (1 # 2) * dy * d3u_dxdy2.

(** The loop over the data of [surface_check_errors] (lines 1179-1221): the
    mean misfit and the root-mean-square misfit between the surface and the
    data that do not sit on a fixed node.  [sqrt] is the C library's. *)
Definition surface_check_errors_misfit (sqrt : Q -> Q) (C : SURFACE_INFO) : Q * Q :=
  let u := surface_set_BCs C (u C) in
  let sums :=
    fold_left (fun (acc : Q * Q) d =>
        let row := index_to_row (index d) (n_columns C) in
        let col := index_to_col (index d) (n_columns C) in
        let node := row_col_to_node row col (mx C) in
        if (status C node =? SURFACE_IS_CONSTRAINED)%Z then acc
        else
          let x0 := col_to_x col (h_wesn C XLO) (h_wesn C XHI) (h_inc C GMT_X)
                      (h_n_columns C) in
          let y0 := row_to_y row (h_wesn C YLO) (h_wesn C YHI) (h_inc C GMT_Y)
                      (h_n_rows C) in
          let dx := x_to_fcol (d_x d) x0 (h_r_inc C GMT_X) in
          let dy := y_to_frow (d_y d) y0 (h_r_inc C GMT_Y) in
          let z_est := taylor_estimate C u node dx dy in
          let z_err := z_est - d_z d in
          (fst acc + z_err, snd acc + z_err * z_err))
      (data C) (0, 0) in
  let npoints := inject_Z (Z.of_nat (length (data C))) in
  (fst sums / npoints, sqrt (snd sums / npoints)).

(** [surface_find_closest_point] for the edge from p0 = (x[k-1], y[k-1],
    z[k-1]) to p1 = (x[k], y[k], z[k]) and the node (x0, y0): the distance r
    and the point (xx, yy, zz), or [None] where the C function returns
    r = DBL_MAX.  The macro gmt_M_is_zero of the GMT headers and the C
    library's [hypot] are parameters. *)
Definition surface_find_closest_point (is_zero : Q -> bool) (hypot : Q -> Q -> Q)
    (p0 p1 : Q * Q * Q) (x0 y0 half_dx half_dy : Q) : option (Q * (Q * Q * Q)) :=
  let '(xm, ym, zm) := p0 in
  let '(xk, yk, zk) := p1 in
  let dx := xk - xm in
  let dy := yk - ym in
  if is_zero dx then
    if (Qleb yk y0 && Qltb y0 ym) || (Qleb ym y0 && Qltb y0 yk) then
      let xx := xk in
      let yy := y0 in
      Some (Qabs (xx - x0), (xx, yy, zm + (zk - zm) * (yy - ym) / dy))
    else None
  else if is_zero dy then
    if (Qleb xk x0 && Qltb x0 xm) || (Qleb xm x0 && Qltb x0 xk) then
      let xx := x0 in
      let yy := yk in
      Some (Qabs (yy - y0), (xx, yy, zm + (zk - zm) * (xx - xm) / dx))
    else None
  else
    let a := dy / dx in
    let xx := (y0 - ym + a * xm + x0 / a) / (a + 1 / a) in
    let yy := a * (xx - xk) + yk in
    if (Qleb xk xx && Qltb xx xm) || (Qleb xm xx && Qltb xx xk) then
      if Qltb (Qabs (xx - x0)) half_dx && Qltb (Qabs (yy - y0)) half_dy then
        Some (hypot (xx - x0) (yy - y0), (xx, yy, zm + (zk - zm) * (xx - xm) / dx))
      else None
    else None.

(** Assignment to [C->Bound] and [C->constrained]. *)
Definition set_Bound (C : SURFACE_INFO) (B : surface_bound -> Z -> option Q)
    (con : bool) : SURFACE_INFO :=
  mkInfo (data C) (Briggs C) (u C) (status C) B (set_limit C)
    (total_iterations C) (max_iterations C) (converge_mode C)
    (current_stride C) (n_columns C) (n_rows C) (mx C) (current_nx C)
    (current_ny C) (current_mx C) (previous_nx C) (previous_ny C)
    (previous_mx C) (node_sw_corner C) (node_se_corner C) (node_nw_corner C)
    (node_ne_corner C) (info C) (offset C) (periodic C) con
    (inc C) (r_inc C) (h_n_columns C) (h_n_rows C) (h_wesn C) (h_inc C)
    (h_r_inc C) (h_pad C)
    (h_registration C) (h_mx C) (wesn_orig C) (converge_limit C) (z_rms C)
    (r_z_rms C) (plane_icept C)
    (plane_sx C) (plane_sy C) (coeff C) (relax_old C) (relax_new C) (alpha C)
    (boundary_tension C) (interior_tension C) (a0_const_1 C) (a0_const_2 C)
    (alpha2 C) (e_m2 C) (one_plus_e2 C) (eps_p2 C) (eps_m2 C) (two_plus_ep2 C)
    (two_plus_em2 C).

(** The loop of [surface_load_constraints] that removes the plane from a
    bound grid and normalises it; a NaN is left alone. *)
Definition transform_bound (C : SURFACE_INFO) (g : Z -> option Q) : Z -> option Q :=
  fold_left (fun g rc =>
      let '(row, col) := rc in
      let y_up := inject_Z (h_n_rows C - row - 1) in
      let node := (row_col_to_node row 0 (current_mx C) + col)%Z in
      match g node with
      | None => g
      | Some b =>
          upd g node (Some ((b - evaluate_plane C (inject_Z col) y_up) * r_z_rms C))
      end)
    (grid_nodes (h_n_rows C) (h_n_columns C)) g.

(** One round of the loop over the two ends in [surface_load_constraints],
    for a region that was not enlarged ([adjusted] false).  [limit] holds
    the constant levels ([C->limit]); [read_grid e] is what GMT_Read_Data
    delivers for the limit file of the end [e]: the numbers of columns and
    rows of its header and its values, or [None] when it fails, in which
    case the function returns [api_error].  The result is the error code
    returned from inside the loop, or the updated [C]. *)
Definition load_constraint_end (limit : surface_bound -> Q)
    (read_grid : surface_bound -> option (Z * Z * (Z -> option Q)))
    (api_error : Z) (transform : bool) (C : SURFACE_INFO) (e : surface_bound)
    : Z + SURFACE_INFO :=
  if (set_limit C e =? NONE)%Z then inr C
  else
    let loaded : Z + (Z -> option Q) :=
      if (set_limit C e <? SURFACE)%Z then inr (fun _ => Some (limit e))
      else
        match read_grid e with
        | None => inl api_error
        | Some (n_columns, n_rows, g) =>
            if negb (n_columns =? h_n_columns C)%Z || negb (n_rows =? h_n_rows C)%Z
            then inl GMT_RUNTIME_ERROR
            else inr g
        end in
    match loaded with
    | inl error => inl error
    | inr g =>
        let g := if transform then transform_bound C g else g in
        inr (set_Bound C (fun e' => match e, e' with
                                    | LO, LO | HI, HI => g
                                    | _, _ => Bound C e'
                                    end) true)
    end.

(** [surface_load_constraints]: the lower end, then the upper end; 0 when
    both went through. *)
Definition surface_load_constraints (limit : surface_bound -> Q)
    (read_grid : surface_bound -> option (Z * Z * (Z -> option Q)))
    (api_error : Z) (transform : bool) (C : SURFACE_INFO) : SURFACE_INFO * Z :=
  match load_constraint_end limit read_grid api_error transform C LO with
  | inl error => (C, error)
  | inr C1 =>
      match load_constraint_end limit read_grid api_error transform C1 HI with
      | inl error => (C1, error)
      | inr C2 => (C2, 0%Z)
      end
  end.

(** The index values of [for (r = r0; r <= r1; r++)], in order. *)
Definition Zrange_incl (r0 r1 : Z) : list Z :=
  map (fun k => (r0 + k)%Z) (Zrange (r1 - r0 + 1)).

(** [surface_set_NaN]: the block of rows r0 .. r1 and columns c0 .. c1 of a
    grid whose rows have [h_mx] elements is set to NaN. *)
Definition surface_set_NaN (h_mx : Z) (G : Z -> option Q) (r0 r1 c0 c1 : Z)
    : Z -> option Q :=
  let ij := gmt_M_ijp h_mx r0 c0 in
  fold_left (fun G r =>
      fold_left (fun G c => upd G (ij + (r - r0) * h_mx + (c - c0))%Z None)
        (Zrange_incl c0 c1) G)
    (Zrange_incl r0 r1) G.


(** [fill_in_forecast].  [previous_stride] is [C->previous_stride]; the
    array [C->fraction] is written and read by this function only.  The
    state of the loops is the pair of the arrays [u] and [status]; the
    running node [index_new] of the innermost loops, which steps by one
    element (or one row) with the loop counter, is written as a function of
    that counter. *)
Definition forecast_state : Type := (Z -> Q) * (Z -> Z).

(** The first loop: the previous solution is copied to the nodes of the
    expanded grid, from the last node to the first. *)
Definition forecast_copy (expand : Z) (C : SURFACE_INFO) (u : Z -> Q) : Z -> Q :=
  fold_left (fun u rc =>
      let '(previous_row, previous_col) := rc in
      let row := (previous_row * expand)%Z in
      let col := (previous_col * expand)%Z in
      let current_node := row_col_to_node row col (current_mx C) in
      let previous_node := row_col_to_node previous_row previous_col (previous_mx C) in
      upd u current_node (u previous_node))
    (rev (grid_nodes (previous_ny C) (previous_nx C))) u.

(** The body of the loops over the bins, for the bin whose lower left
    corner is the previous node ([previous_row], [previous_col]). *)
Definition forecast_bin (expand : Z) (fraction : Z -> Q) (C : SURFACE_INFO)
    (previous_row : Z) (st : forecast_state) (previous_col : Z) : forecast_state :=
  let '(u, status) := st in
  let row := (previous_row * expand)%Z in
  let col := (previous_col * expand)%Z in
  let index_00 := row_col_to_node row col (current_mx C) in
  let index_01 := (index_00 - expand * current_mx C)%Z in
  let index_10 := (index_00 + expand)%Z in
  let index_11 := (index_01 + expand)%Z in
  let c := u index_00 in
  let sx := u index_10 - c in
  let sy := u index_01 - c in
  let sxy := u index_11 - u index_10 - sy in
  let '(u, status) :=
    fold_left (fun st j =>
        let first := if (j =? 0)%Z then 1%Z else 0%Z in
        let c_plus_sy_dy := c + sy * fraction j in
        let sx_plus_sxy_dy := sx + sxy * fraction j in
        fold_left (fun (st : forecast_state) i =>
            let '(u, status) := st in
            let index_new := (index_00 - j * current_mx C + i)%Z in
            (upd u index_new (c_plus_sy_dy + fraction i * sx_plus_sxy_dy),
             upd status index_new SURFACE_IS_UNCONSTRAINED))
          (Zrange_incl first (expand - 1)) st)
      (Zrange expand) (u, status) in
  (u, upd status index_00 SURFACE_IS_CONSTRAINED).

(** The body of the loop along the east edge; [index_00] is carried from
    one round to the next. *)
Definition forecast_east (expand : Z) (fraction : Z -> Q) (C : SURFACE_INFO)
    (st : forecast_state * Z) (previous_row : Z) : forecast_state * Z :=
  let '((u, status), index_00) := st in
  let index_01 := index_00 in
  let index_00 := (index_00 + expand * current_mx C)%Z in
  let sy := u index_01 - u index_00 in
  let '(u, status) :=
    fold_left (fun (st : forecast_state) j =>
        let '(u, status) := st in
        let index_new := (index_00 - j * current_mx C)%Z in
        (upd u index_new (u index_00 + fraction j * sy),
         upd status index_new SURFACE_IS_UNCONSTRAINED))
      (Zrange_incl 1 (expand - 1)) (u, status) in
  ((u, upd status index_00 SURFACE_IS_CONSTRAINED), index_00).

(** The body of the loop along the north edge; [index_10] is carried from
    one round to the next. *)
Definition forecast_north (expand : Z) (fraction : Z -> Q) (C : SURFACE_INFO)
    (st : forecast_state * Z) (previous_col : Z) : forecast_state * Z :=
  let '((u, status), index_10) := st in
  let index_00 := index_10 in
  let index_10 := (index_00 + expand)%Z in
  let sx := u index_10 - u index_00 in
  let '(u, status) :=
    fold_left (fun (st : forecast_state) i =>
        let '(u, status) := st in
        let index_new := (index_00 + i)%Z in
        (upd u index_new (u index_00 + fraction i * sx),
         upd status index_new SURFACE_IS_UNCONSTRAINED))
      (Zrange_incl 1 (expand - 1)) (u, status) in
  ((u, upd status index_00 SURFACE_IS_CONSTRAINED), index_10).

Definition fill_in_forecast (previous_stride : Z) (C : SURFACE_INFO) : SURFACE_INFO :=
  let expand := Z.quot previous_stride (current_stride C) in
  let u := forecast_copy expand C (u C) in
  let r_prev_size := 1 / inject_Z previous_stride in
  let fraction := fun i : Z => inject_Z i * r_prev_size in
  let st :=
    fold_left (fun st previous_row =>
        fold_left (forecast_bin expand fraction C previous_row)
          (Zrange (previous_nx C - 1)) st)
      (Zrange_incl 1 (previous_ny C - 1)) (u, status C) in
  let st :=
    fst (fold_left (forecast_east expand fraction C)
           (Zrange_incl 1 (previous_ny C - 1)) (st, node_ne_corner C)) in
  let st :=
    fst (fold_left (forecast_north expand fraction C)
           (Zrange (previous_nx C - 1)) (st, node_nw_corner C)) in
  let '(u, status) := st in
  set_status (set_u C u) (upd status (node_ne_corner C) SURFACE_IS_CONSTRAINED).

End Surface.

Import Surface.

(** * Notions used in the statements *)

(** One pass of the [do] loop of [surface_iterate] as a state transformer,
    the change max |du| * z_rms it reports, and the state after [k] passes. *)
Definition one_pass (C : SURFACE_INFO) : SURFACE_INFO :=
  set_total_iterations (set_u C (sw_u (surface_sweep C (u C))))
    ((total_iterations C + 1) mod 2 ^ 64)%Z.

Definition max_z_change (C : SURFACE_INFO) : Q :=
  sw_max_u_change (surface_sweep C (u C)) * z_rms C.

Definition after_passes (C : SURFACE_INFO) (k : nat) : SURFACE_INFO :=
  Nat.iter k one_pass C.

(** The loop condition after the [k]-th pass, k = 1, 2, ...  *)
Definition finished_after (C : SURFACE_INFO) (k : nat) : bool :=
  Qleb (max_z_change (after_passes C (k - 1)))
       (converge_limit C / inject_Z (current_stride C))
  || (current_max_iterations C <=? Z.of_nat k)%Z.

(** The curvature figure as the specification words it: the sum over all
    interior nodes of (u[E1] + u[W1] + u[N1] + u[S1] - 4 u[center])^2, on the
    grid with its boundary values updated. *)
Definition curvature_of_spec (C : SURFACE_INFO) : Q :=
  let u := surface_set_BCs C (u C) in
  let d_node := offset C in
  gmt_M_grd_loop C (fun _ _ node curvature =>
      let c := u (node + d_node E1)%Z + u (node + d_node W1)%Z
               + u (node + d_node N1)%Z + u (node + d_node S1)%Z
               - 4 * u node in
      curvature + c * c) 0.

(** The node book-keeping as [surface_set_grid_parameters] and
    [surface_set_offset] leave it. *)
Definition geometry_ok (C : SURFACE_INFO) : Prop :=
  current_mx C = (current_nx C + 4)%Z /\
  node_nw_corner C = (2 * current_mx C + 2)%Z /\
  node_sw_corner C = (node_nw_corner C + (current_ny C - 1) * current_mx C)%Z /\
  node_se_corner C = (node_sw_corner C + current_nx C - 1)%Z /\
  node_ne_corner C = (node_nw_corner C + current_nx C - 1)%Z /\
  forall k, offset C k =
    match k with
    | N2 => (-2 * current_mx C)%Z | NW => (- current_mx C - 1)%Z
    | N1 => (- current_mx C)%Z | NE => (- current_mx C + 1)%Z
    | W2 => (-2)%Z | W1 => (-1)%Z | E1 => 1%Z | E2 => 2%Z
    | SW => (current_mx C - 1)%Z | S1 => current_mx C
    | SE => (current_mx C + 1)%Z | S2 => (2 * current_mx C)%Z
    end.

(** Row and column steps of the twelve neighbours. *)
Definition node_drow (k : surface_nodes) : Z :=
  match k with
  | N2 => -2 | NW | N1 | NE => -1 | W2 | W1 | E1 | E2 => 0
  | SW | S1 | SE => 1 | S2 => 2
  end.
Definition node_dcol (k : surface_nodes) : Z :=
  match k with
  | W2 => -2 | NW | W1 | SW => -1 | N2 | N1 | S1 | S2 => 0
  | NE | E1 | SE => 1 | E2 => 2
  end.

(** The relation the loop for dC/dn = 0 establishes at the edge node [n]
    between the second ghost node [out] and the nodes on the other side,
    [opp2] and [opp1] being the neighbours opposite to [out] and [near]. *)
Definition BC2_relation (C : SURFACE_INFO) (v : Z -> Q) (n : Z)
    (out opp2 oppW oppE nearW nearE near opp1 : surface_nodes) : Prop :=
  let d_n := offset C in
  v (n + d_n out)%Z =
    v (n + d_n opp2)%Z
    + eps_m2 C * (v (n + d_n oppW)%Z + v (n + d_n oppE)%Z
                  - v (n + d_n nearW)%Z - v (n + d_n nearE)%Z)
    + two_plus_em2 C * (v (n + d_n near)%Z - v (n + d_n opp1)%Z).

(** The root-mean-square of the residuals of the detrended data, as
    [surface_rescale_z_values] computes it. *)
Definition residual_rms (sqrt : Q -> Q) (C : SURFACE_INFO) : Q :=
  sqrt (fold_left (fun acc d => acc + d_z d * d_z d) (data C) 0
        / inject_Z (Z.of_nat (length (data C)))).

(** The point at [n] of [n_int] equal steps from the vertex [v0] to the
    vertex [v1] of a breakline, in x and y. *)
Definition edge_sample (v0 v1 : Q * Q * Q) (n_int n : Z) : Q * Q :=
  (fst (fst v0) + inject_Z n * ((fst (fst v1) - fst (fst v0)) / inject_Z n_int),
   snd (fst v0) + inject_Z n * ((snd (fst v1) - snd (fst v0)) / inject_Z n_int)).

(** The squared Cartesian distance of a datum to the node at the centre of
    its bin, as [surface_compare_points] computes it. *)
Definition bin_distance2 (info : SURFACE_SEARCH) (d : SURFACE_DATA) : Q :=
  let row := index_to_row (index d) (s_current_nx info) in
  let col := index_to_col (index d) (s_current_nx info) in
  let x0 := col_to_x col (s_wesn info XLO) (s_wesn info XHI) (s_inc info GMT_X)
              (s_current_nx info) in
  let y0 := row_to_y row (s_wesn info YLO) (s_wesn info YHI) (s_inc info GMT_Y)
              (s_current_ny info) in
  (d_x d - x0) * (d_x d - x0) + (d_y d - y0) * (d_y d - y0).

(** What a call [qsort_r (cmp) (l)] of the C library guarantees: the result
    is a rearrangement of [l] in which no element compares greater than a
    later one. *)
Definition sorts
    (qsort_r : (SURFACE_DATA -> SURFACE_DATA -> Z) -> list SURFACE_DATA -> list SURFACE_DATA)
    (cmp : SURFACE_DATA -> SURFACE_DATA -> Z) (l : list SURFACE_DATA) : Prop :=
  Permutation l (qsort_r cmp l) /\
  StronglySorted (fun a b => (cmp a b <= 0)%Z) (qsort_r cmp l).

(** A datum that has not been marked [SURFACE_OUTSIDE]. *)
Definition usable (d : SURFACE_DATA) : bool := negb (index d =? SURFACE_OUTSIDE)%Z.

(** The datum [surface_find_nearest_constraint] uses for the bin [i] of a
    sorted array: the first one with that index. *)
Definition nearest_in_bin (l : list SURFACE_DATA) (i : Z) : option SURFACE_DATA :=
  find (fun d => (index d =? i)%Z) l.

(** The Briggs coefficients the loop computes for a datum that is not
    "really close" to its node, and the status it gives the node. *)
Definition Briggs_of_datum (C : SURFACE_INFO) (d : SURFACE_DATA) : SURFACE_BRIGGS :=
  let '(dx, dy) := datum_offsets C d in
  let '(_, (xx, yy)) := reflect_to_quadrant dx dy in
  surface_solve_Briggs_coefficients (a0_const_1 C) (a0_const_2 C) xx yy (d_z d).

Definition status_of_datum (C : SURFACE_INFO) (d : SURFACE_DATA) : Z :=
  let '(dx, dy) := datum_offsets C d in
  if really_close dx dy then SURFACE_IS_CONSTRAINED
  else fst (reflect_to_quadrant dx dy).

Definition datum_is_close (C : SURFACE_INFO) (d : SURFACE_DATA) : bool :=
  let '(dx, dy) := datum_offsets C d in really_close dx dy.

(** The data for which the loop fills a Briggs entry, in the order of the
    entries, when it is entered with [last_index]. *)
Fixpoint briggs_data (C : SURFACE_INFO) (last_index : Z) (l : list SURFACE_DATA)
    : list SURFACE_DATA :=
  match l with
  | [] => []
  | d :: l' =>
      if (index d =? last_index)%Z then briggs_data C last_index l'
      else if datum_is_close C d then briggs_data C (index d) l'
      else d :: briggs_data C (index d) l'
  end.

(** A node at which [surface_iterate] reads a Briggs entry: its status is
    neither "constrained" nor "unconstrained". *)
Definition reads_Briggs (C : SURFACE_INFO) (rc : Z * Z) : bool :=
  let node := (node_nw_corner C + fst rc * current_mx C + snd rc)%Z in
  negb (status C node =? SURFACE_IS_CONSTRAINED)%Z
  && negb (status C node =? SURFACE_IS_UNCONSTRAINED)%Z.

(** The value a sweep of [surface_iterate] gives the node of (row, col) when
    it uses the Briggs entry [b] and the quadrant code [quadrant] there
    (lines 1114-1139): the twelve neighbours weighted by the coefficients of
    the constrained set, the four Briggs weights on the nodes [p[quadrant]]
    and the datum term [b4], scaled by [b5]; then the over-relaxation and
    the clipping against the bounds. *)
Definition Briggs_update (C : SURFACE_INFO) (u_old : Z -> Q) (row col quadrant : Z)
    (b : SURFACE_BRIGGS) : Q :=
  let node := (node_nw_corner C + row * current_mx C + col)%Z in
  let u_00 := fold_left (fun acc k =>
                  acc + u_old (node + offset C k)%Z * coeff C SURFACE_CONSTRAINED k)
                all_nodes 0 in
  let sum_bk_uk :=
    fold_left (fun acc bk => acc + fst bk * u_old (node + offset C (snd bk))%Z)
      (combine [b0 b; b1 b; b2 b; b3 b] (p quadrant)) 0 in
  let u_00 := (u_00 + a0_const_2 C * (sum_bk_uk + b4 b)) * b5 b in
  let u_00 := u_old node * relax_old C + u_00 * relax_new C in
  if constrained C then
    clip_lo_else_hi C
      (gmt_M_ijp (mx C) (current_stride C * row) 0 + col * current_stride C)%Z u_00
  else u_00.

(** The node of the bin with index [i] (lines 596-599). *)
Definition index_node (C : SURFACE_INFO) (i : Z) : Z :=
  row_col_to_node (index_to_row i (current_nx C)) (index_to_col i (current_nx C))
    (current_mx C).

(** The loop over the data is entered with a [last_index] that is either
    not above any index of the array or not the index of any datum. *)
Definition entered_ok (last_index : Z) (l : list SURFACE_DATA) : Prop :=
  (forall d, In d l -> (last_index <= index d)%Z) \/
  (forall d, In d l -> index d <> last_index).

(** The grid under the header of [H] lies inside the solution grid of [C]:
    the rows of the array have the same length, the pads are at least the
    2 cells of the halo on the west and north sides, and the columns and
    rows inside the pads are columns and rows of the solution. *)
Definition written_inside (C H : SURFACE_INFO) : Prop :=
  h_mx H = current_mx C /\
  (2 <= h_pad H XLO)%Z /\ (h_pad H XLO + h_n_columns H <= current_nx C + 2)%Z /\
  (2 <= h_pad H YHI)%Z /\ (h_pad H YHI + h_n_rows H <= current_ny C + 2)%Z.


(** * Concrete inputs *)

(** A solver context for a grid of [ncol] by [nrow] nodes with unit
    increments on [0, ncol-1] x [0, nrow-1], aspect ratio 1, no tension,
    over-relaxation 1.4, at most 500 iterations, convergence limit 1e-4,
    set up by the solver's own initialisation functions for [stride]. *)
Definition example_wesn (ncol nrow : Z) (s : gmt_side) : Q :=
  match s with
  | XLO => 0 | XHI => inject_Z (ncol - 1)
  | YLO => 0 | YHI => inject_Z (nrow - 1)
  end.

Definition make_info (ncol nrow stride : Z) (per con : bool)
    (lim : surface_bound -> Z) (dat : list SURFACE_DATA) (grid : Z -> Q)
    : SURFACE_INFO :=
  mkInfo dat (fun _ => mkBriggs 0 0 0 0 0 0) grid (fun _ => 0%Z)
    (fun _ _ => None) lim 0 500 0 stride
    ncol nrow (ncol + 4) 0 0 0 0 0 0 0 0 0 0
    (mkSearch 0 0 (fun _ => 1) (example_wesn ncol nrow)) (fun _ => 0%Z)
    per con (fun _ => 1) (fun _ => 1)
    ncol nrow (example_wesn ncol nrow) (fun _ => 1) (fun _ => 1)
    (fun _ => 2%Z) GMT_GRID_NODE_REG (ncol + 4)%Z (example_wesn ncol nrow)
    (1 # 10000) 1 1 0 0 0 (fun _ _ => 0)
    (-4 # 10) (14 # 10) 1 0 0 0 0 0 0 0 0 0 0 0.

Definition base_info (ncol nrow stride : Z) (per : bool)
    (dat : list SURFACE_DATA) (grid : Z -> Q) : SURFACE_INFO :=
  make_info ncol nrow stride per false (fun _ => 0%Z) dat grid.

Definition example_info (ncol nrow stride : Z) (per : bool)
    (dat : list SURFACE_DATA) (grid : Z -> Q) : SURFACE_INFO :=
  surface_set_coefficients
    (surface_set_offset
       (surface_set_grid_parameters (base_info ncol nrow stride per dat grid))).

(** A 4 x 4 grid holding the ramp u(row, col) = col, halo included. *)
Definition ramp_info : SURFACE_INFO :=
  example_info 4 4 1 false [] (fun node => inject_Z (node mod 8 - 2)).

(** A 4 x 4 grid holding the ramp u(row, col) = row, halo included. *)
Definition row_ramp_info : SURFACE_INFO :=
  example_info 4 4 1 false [] (fun node => inject_Z (node / 8 - 2)).

(** Executable stand-ins for the C library: an insertion sort that uses the
    comparison function the way qsort_r does, and a square root that is
    exact on squares and otherwise rounded down to nine decimals. *)
Fixpoint insert_sorted (cmp : SURFACE_DATA -> SURFACE_DATA -> Z) (x : SURFACE_DATA)
    (l : list SURFACE_DATA) : list SURFACE_DATA :=
  match l with
  | [] => [x]
  | y :: l' => if (cmp x y <=? 0)%Z then x :: l else y :: insert_sorted cmp x l'
  end.

Definition insertion_sort (cmp : SURFACE_DATA -> SURFACE_DATA -> Z)
    (l : list SURFACE_DATA) : list SURFACE_DATA :=
  fold_right (insert_sorted cmp) [] l.

Definition sqrt_down (q : Q) : Q :=
  Z.sqrt (Qfloor (q * inject_Z (10 ^ 18))) # 1000000000.

Definition hypot_down (x y : Q) : Q := sqrt_down (x * x + y * y).

(** Four data points on the plane z = x + y at the corners of a 5 x 5 grid,
    with the bin indices [surface_read_data] gives them. *)
Definition plane_data : list SURFACE_DATA :=
  [ mkData 0 0 0 0 20; mkData 4 0 4 0 24; mkData 0 4 4 0 0; mkData 4 4 8 0 4 ].

Definition plane_info (per : bool) : SURFACE_INFO :=
  base_info 5 5 1 per plane_data (fun _ => 0).

(** A session whose library calls succeed.  [irint] rounds to the nearest
    integer, and [gmt_set_grddim] computes what GMT does:
    (east - west) / x_inc + 1 columns, one less for a pixel-registered
    header, the same for the rows, and mx = n_columns + pad[XLO] + pad[XHI]. *)
Definition example_GMT (reg : gmt_registration) : GMT_CTRL :=
  mkGMT reg lrint
    (fun w i r pad =>
       let one := match r with GMT_GRID_PIXEL_REG => 0%Z | GMT_GRID_NODE_REG => 1%Z end in
       let nc := (lrint ((w XHI - w XLO) / i GMT_X) + one)%Z in
       let nr := (lrint ((w YHI - w YLO) / i GMT_Y) + one)%Z in
       (nc, nr, (nc + pad XLO + pad XHI)%Z))
    (fun _ => GMT_NOERROR) (fun _ => true) (fun _ => GMT_NOERROR) GMT_RUNTIME_ERROR.

(** No -Q option: the region is the one asked for. *)
Definition example_Ctrl : SURFACE_CTRL := mkCtrl false false.

(** A 4 x 4 grid of zeros at stride 1 with both limits given as values. *)
Definition bounded_info (per : bool) : SURFACE_INFO :=
  surface_set_offset
    (surface_set_grid_parameters
       (make_info 4 4 1 per true (fun _ => VALUE) [] (fun _ => 0))).

(** The periodic 4 x 4 grid with both limits in use that holds -10 on the
    east column (col = 3) and 0 elsewhere. *)
Definition east_low_info : SURFACE_INFO :=
  surface_set_offset
    (surface_set_grid_parameters
       (make_info 4 4 1 true true (fun _ => VALUE) []
          (fun node => if (node mod 8 =? 5)%Z then -10 else 0))).


(** A breakline of three vertices on a grid with unit increments. *)
Definition example_line : list (Q * Q * Q) :=
  [ (0, 0, 1); (12 # 10, 0, 2); (12 # 10, 3, 2) ].

(** Three data points on the 5 x 5 grid: two in the bin of node (row 4,
    col 0), the breakline point farther from the node than the ordinary
    one, and one in the bin of node (row 0, col 4). *)
Definition crowded_data : list SURFACE_DATA :=
  [ mkData 0 (1 # 4) 7 1 20; mkData 0 0 3 0 20; mkData 4 4 8 0 4 ].

Definition crowded_info : SURFACE_INFO :=
  surface_set_grid_parameters (base_info 5 5 1 false crowded_data (fun _ => 0)).

(** Three data points on the 4 x 4 grid, sorted by bin index: one a quarter
    of a cell east of node (row 0, col 0), one a quarter of a cell north of
    node (row 1, col 2), and one on node (row 3, col 3). *)
Definition aligned_data : list SURFACE_DATA :=
  [ mkData (1 # 4) 3 5 0 0; mkData 2 (9 # 4) 1 0 6; mkData 3 0 2 0 15 ].

Definition aligned_info : SURFACE_INFO :=
  example_info 4 4 1 false aligned_data (fun _ => 0).

(** * Notions for the further properties *)

(** The array [v] holds the value [c] everywhere. *)
Definition constant_field (c : Q) (v : Z -> Q) : Prop := forall n, v n == c.

(** A quadratic surface in the offsets (x, y) from a node, x counted in
    columns eastwards and y in rows northwards. *)
Definition quadratic (a b c d e f : Q) (x y : Q) : Q :=
  a + b * x + c * y + d * x * x + e * x * y + f * y * y.

(** An executable stand-in for the macro gmt_M_is_zero: |x| < 1e-8. *)
Definition is_zero_conv8 (x : Q) : bool := Qltb (Qabs x) GMT_CONV8_LIMIT.

(** The array [v] holds the plane a + b * col + g * row at every element,
    the halo included; row and column are those of the element's address in
    rows of [current_mx] elements, counted from the two-cell halo. *)
Definition plane_on_grid (C : SURFACE_INFO) (a b g : Q) (v : Z -> Q) : Prop :=
  forall n, v n == a + b * inject_Z (n mod current_mx C - 2)
                    + g * inject_Z (n / current_mx C - 2).

(** The datum [d] lies on the plane a + b * col + g * row, at the position
    [surface_check_errors] gives it: the row and column of its bin, moved by
    its offsets dx (eastwards) and dy (northwards) in units of the grid
    increments. *)
Definition datum_on_plane (C : SURFACE_INFO) (a b g : Q) (d : SURFACE_DATA) : Prop :=
  let row := index_to_row (index d) (n_columns C) in
  let col := index_to_col (index d) (n_columns C) in
  let x0 := col_to_x col (h_wesn C XLO) (h_wesn C XHI) (h_inc C GMT_X) (h_n_columns C) in
  let y0 := row_to_y row (h_wesn C YLO) (h_wesn C YHI) (h_inc C GMT_Y) (h_n_rows C) in
  let dx := x_to_fcol (d_x d) x0 (h_r_inc C GMT_X) in
  let dy := y_to_frow (d_y d) y0 (h_r_inc C GMT_Y) in
  d_z d == a + b * (inject_Z col + dx) + g * (inject_Z row - dy).

(** Two data points on the plane z = x over the 4 x 4 grid, and the grid
    holding that plane (the ramp u = col) with them. *)
Definition ramp_data : list SURFACE_DATA :=
  [ mkData (1 # 4) 3 (1 # 4) 0 0; mkData 2 (9 # 4) 2 0 6 ].

Definition ramp_data_info : SURFACE_INFO :=
  example_info 4 4 1 false ramp_data (fun node => inject_Z (node mod 8 - 2)).

(** The 4 x 4 grid of zeros with the constant limits 1 and 3 loaded, not
    detrended. *)
Definition clipped_info : SURFACE_INFO :=
  fst (surface_load_constraints (fun e => match e with LO => 1 | HI => 3 end)
         (fun _ => None) 1%Z false (surface_set_coefficients (bounded_info false))).

(** A node of the expanded grid that is also a node of the previous grid:
    its row and column are multiples of [expand]. *)
Definition coarse_node (expand row col : Z) : bool :=
  ((row mod expand =? 0) && (col mod expand =? 0))%Z.

(** The status [fill_in_forecast] leaves at the node (row, col). *)
Definition forecast_status (expand row col : Z) : Z :=
  if coarse_node expand row col then SURFACE_IS_CONSTRAINED
  else SURFACE_IS_UNCONSTRAINED.

(** A property of the pair of arrays that [fill_in_forecast] works on is
    stable when it survives both kinds of assignment the function makes:
    an interpolated value and "unconstrained" at a node that is not a node
    of the previous grid, and "constrained" at a node that is. *)
Definition forecast_stable (C : SURFACE_INFO) (expand : Z)
    (Inv : forecast_state -> Prop) : Prop :=
  (forall u s r c v,
     (0 <= c < current_nx C)%Z -> coarse_node expand r c = false -> Inv (u, s) ->
     Inv (upd u (row_col_to_node r c (current_mx C)) v,
          upd s (row_col_to_node r c (current_mx C)) SURFACE_IS_UNCONSTRAINED)) /\
  (forall u s r c,
     (0 <= c < current_nx C)%Z -> coarse_node expand r c = true -> Inv (u, s) ->
     Inv (u, upd s (row_col_to_node r c (current_mx C)) SURFACE_IS_CONSTRAINED)).

(** A 7 x 7 grid that has been solved at stride 2 (4 x 4 nodes) and is set
    up for stride 1; the array holds some values in the layout of the
    coarse grid. *)
Definition refined_info : SURFACE_INFO :=
  surface_set_offset
    (surface_set_grid_parameters
       (set_current_stride
          (surface_set_offset
             (surface_set_grid_parameters
                (base_info 7 7 2 false [] (fun node => inject_Z node))))
          1%Z)).

(** * Properties *)

(** ** Facts about the helpers *)

Lemma Qltb_lt (x y : Q) : Qltb x y = true <-> x < y.
Proof. unfold Qltb, Qlt. apply Z.ltb_lt. Qed.

Lemma Qltb_ge (x y : Q) : Qltb x y = false <-> y <= x.
Proof. unfold Qltb, Qle. rewrite Z.ltb_ge. reflexivity. Qed.

Lemma Qleb_le (x y : Q) : Qleb x y = true <-> x <= y.
Proof. unfold Qleb, Qle. apply Z.leb_le. Qed.

Lemma Qleb_gt (x y : Q) : Qleb x y = false <-> y < x.
Proof. unfold Qleb, Qlt. rewrite Z.leb_gt. reflexivity. Qed.

Lemma Qeqb_eq (x y : Q) : Qeqb x y = true <-> x == y.
Proof. unfold Qeqb, Qeq. apply Z.eqb_eq. Qed.

Lemma upd_same {A} (a : Z -> A) n v : upd a n v n = v.
Proof. unfold upd. now rewrite Z.eqb_refl. Qed.

Lemma upd_other {A} (a : Z -> A) n v m : m <> n -> upd a n v m = a m.
Proof. unfold upd. intros H. apply Z.eqb_neq in H. now rewrite H. Qed.

(** ** The Briggs coefficients *)

(** C1. For offsets (xx, yy) with xx + yy > 0 and datum value z,
    [surface_solve_Briggs_coefficients] stores b0 .. b3 as the four quotients
    of the specification, b4 = (4 / delta) * z and
    b5 = 1 / (a0_const_1 + a0_const_2 * (b0 + b1 + b2 + b3 + 4 / delta)),
    where delta = (xx + yy) * (1 + xx + yy). *)
Theorem Briggs_coefficients_formulae (a0_1 a0_2 xx yy z : Q) :
  0 < xx + yy ->
  let b := surface_solve_Briggs_coefficients a0_1 a0_2 xx yy z in
  let delta := (xx + yy) * (1 + xx + yy) in
  b0 b == (xx * xx + 2 * xx * yy + xx - yy * yy - yy) / delta /\
  b1 b == 2 * (yy - xx + 1) / (1 + xx + yy) /\
  b2 b == 2 * (xx - yy + 1) / (1 + xx + yy) /\
  b3 b == (- (xx * xx) + 2 * xx * yy - xx + yy * yy + yy) / delta /\
  b4 b == (4 / delta) * z /\
  b5 b == 1 / (a0_1 + a0_2 * (b0 b + b1 b + b2 b + b3 b + 4 / delta)).
Proof.
  intros Hpos b delta.
  assert (H1 : ~ xx + yy == 0) by lra.
  assert (H2 : ~ 1 + (xx + yy) == 0) by lra.
  assert (H3 : ~ 1 + xx + yy == 0) by lra.
  assert (Hd : 4 * (1 / (1 + (xx + yy)) / (xx + yy)) == 4 / delta)
    by (unfold delta; field; auto).
  unfold b, delta; cbn [surface_solve_Briggs_coefficients b0 b1 b2 b3 b4 b5].
  repeat split; try solve [field; auto].
  apply Qmult_comp; [reflexivity|].
  apply Qinv_comp, Qplus_comp; [reflexivity|].
  apply Qmult_comp; [reflexivity|].
  apply Qplus_comp; [reflexivity|exact Hd].
Qed.

Lemma Briggs_coefficients_formulae_witness :
  let b := surface_solve_Briggs_coefficients 4 4 (1 # 2) (1 # 4) 3 in
  let delta := ((1 # 2) + (1 # 4)) * (1 + (1 # 2) + (1 # 4)) in
  b0 b == ((1 # 2) * (1 # 2) + 2 * (1 # 2) * (1 # 4) + (1 # 2) - (1 # 4) * (1 # 4) - (1 # 4)) / delta /\
  b1 b == 2 * ((1 # 4) - (1 # 2) + 1) / (1 + (1 # 2) + (1 # 4)) /\
  b2 b == 2 * ((1 # 2) - (1 # 4) + 1) / (1 + (1 # 2) + (1 # 4)) /\
  b3 b == (- ((1 # 2) * (1 # 2)) + 2 * (1 # 2) * (1 # 4) - (1 # 2) + (1 # 4) * (1 # 4) + (1 # 4)) / delta /\
  b4 b == (4 / delta) * 3 /\
  b5 b == 1 / (4 + 4 * (b0 b + b1 b + b2 b + b3 b + 4 / delta)).
Proof.
  apply (Briggs_coefficients_formulae 4 4 (1 # 2) (1 # 4) 3).
  reflexivity.
Defined.

(** ** Division safety of the Briggs solver *)

Lemma reflect_to_quadrant_abs (dx dy : Q) :
  let '(q, (xx, yy)) := reflect_to_quadrant dx dy in
  0 <= xx /\ 0 <= yy /\ xx + yy == Qabs dx + Qabs dy /\ (1 <= q <= 4)%Z.
Proof.
  unfold reflect_to_quadrant.
  destruct (Qleb 0 dy) eqn:Hy; destruct (Qleb 0 dx) eqn:Hx;
    try apply Qleb_le in Hy; try apply Qleb_gt in Hy;
    try apply Qleb_le in Hx; try apply Qleb_gt in Hx.
  - rewrite (Qabs_pos dx), (Qabs_pos dy) by assumption.
    repeat split; try lra; unfold SURFACE_DATA_IS_IN_QUAD1; lia.
  - rewrite (Qabs_neg dx), (Qabs_pos dy) by lra.
    repeat split; try lra; unfold SURFACE_DATA_IS_IN_QUAD2; lia.
  - rewrite (Qabs_pos dx), (Qabs_neg dy) by lra.
    repeat split; try lra; unfold SURFACE_DATA_IS_IN_QUAD4; lia.
  - rewrite (Qabs_neg dx), (Qabs_neg dy) by lra.
    repeat split; try lra; unfold SURFACE_DATA_IS_IN_QUAD3; lia.
Qed.

Lemma not_really_close (dx dy : Q) :
  really_close dx dy = false ->
  SURFACE_CLOSENESS_FACTOR <= Qmax (Qabs dx) (Qabs dy).
Proof.
  unfold really_close. intros H.
  apply andb_false_iff in H. apply Q.max_le_iff.
  destruct H as [H|H]; apply Qltb_ge in H; auto.
Qed.

(** C10. Whatever the state and the datum, one pass of the loop of
    [surface_find_nearest_constraint] either leaves the Briggs table and its
    index alone, or stores at the current index the coefficients solved for
    offsets (xx, yy) with max(|dx|, |dy|) >= 0.05, xx >= 0, yy >= 0 and
    xx + yy >= 0.05, so that both divisors of the solver, xx + yy and
    1 + xx + yy, are strictly positive. *)
Theorem Briggs_solver_division_safe (C : SURFACE_INFO) (st : nearest_state)
    (d : SURFACE_DATA) :
  (ns_Briggs (nearest_step C st d) = ns_Briggs st /\
   ns_briggs_index (nearest_step C st d) = ns_briggs_index st)
  \/
  (exists xx yy : Q,
     ns_Briggs (nearest_step C st d) =
       upd (ns_Briggs st) (ns_briggs_index st)
         (surface_solve_Briggs_coefficients (a0_const_1 C) (a0_const_2 C) xx yy (d_z d)) /\
     ns_briggs_index (nearest_step C st d) = (ns_briggs_index st + 1)%Z /\
     snd (reflect_to_quadrant (fst (datum_offsets C d)) (snd (datum_offsets C d))) = (xx, yy) /\
     SURFACE_CLOSENESS_FACTOR <=
       Qmax (Qabs (fst (datum_offsets C d))) (Qabs (snd (datum_offsets C d))) /\
     0 <= xx /\ 0 <= yy /\ SURFACE_CLOSENESS_FACTOR <= xx + yy /\
     0 < xx + yy /\ 0 < 1 + xx + yy).
Proof.
  unfold nearest_step.
  destruct (index d =? ns_last_index st)%Z; [left; auto|].
  destruct (datum_offsets C d) as [dx dy]; cbn [fst snd].
  destruct (really_close dx dy) eqn:Hc; [left; auto|].
  right.
  pose proof (reflect_to_quadrant_abs dx dy) as Hr.
  pose proof (not_really_close dx dy Hc) as Hm.
  destruct (reflect_to_quadrant dx dy) as [q [xx yy]].
  destruct Hr as (Hx & Hy & Hs & _).
  exists xx, yy. cbn [ns_Briggs ns_briggs_index snd].
  assert (Hsum : SURFACE_CLOSENESS_FACTOR <= xx + yy).
  { rewrite Hs. pose proof (Qabs_nonneg dx). pose proof (Qabs_nonneg dy).
    apply Q.max_le_iff in Hm. destruct Hm; lra. }
  assert (0 < SURFACE_CLOSENESS_FACTOR) by reflexivity.
  repeat split; auto; lra.
Qed.

(** ** Termination of the iteration *)

Lemma after_passes_S (C : SURFACE_INFO) (k : nat) :
  after_passes C (S k) = one_pass (after_passes C k).
Proof. reflexivity. Qed.

Lemma after_passes_params (C : SURFACE_INFO) (k : nat) :
  current_stride (after_passes C k) = current_stride C /\
  max_iterations (after_passes C k) = max_iterations C /\
  converge_limit (after_passes C k) = converge_limit C /\
  z_rms (after_passes C k) = z_rms C.
Proof.
  induction k as [|k IH]; [auto|].
  rewrite after_passes_S. unfold one_pass; cbn. exact IH.
Qed.

Lemma current_max_iterations_after (C : SURFACE_INFO) (k : nat) :
  current_max_iterations (after_passes C k) = current_max_iterations C.
Proof.
  unfold current_max_iterations.
  destruct (after_passes_params C k) as (-> & -> & _). reflexivity.
Qed.

Lemma surface_iterate_loop_unfold (C : SURFACE_INFO) (fuel c : nat) :
  surface_iterate_loop fuel (after_passes C c) (Z.of_nat c) =
  if finished_after C (S c) then Some (after_passes C (S c), Z.of_nat (S c))
  else match fuel with
       | O => None
       | S fuel' => surface_iterate_loop fuel' (after_passes C (S c)) (Z.of_nat (S c))
       end.
Proof.
  unfold finished_after, max_z_change.
  replace (S c - 1)%nat with c by lia.
  rewrite after_passes_S.
  destruct (after_passes_params C c) as (Hs & Hm & Hl & Hz).
  rewrite <- (current_max_iterations_after C c), <- Hl, <- Hs.
  replace (Z.of_nat (S c)) with (Z.of_nat c + 1)%Z by lia.
  destruct fuel; cbn [surface_iterate_loop]; reflexivity.
Qed.

(** The loop started after [c] passes with enough fuel stops after the first
    pass [n > c] at which the loop condition holds. *)
Lemma surface_iterate_loop_spec (C : SURFACE_INFO) (fuel c : nat) :
  (current_max_iterations C <= Z.of_nat fuel + Z.of_nat c + 1)%Z ->
  exists n : nat,
    (c < n)%nat /\
    surface_iterate_loop fuel (after_passes C c) (Z.of_nat c)
      = Some (after_passes C n, Z.of_nat n) /\
    finished_after C n = true /\
    (forall k, (c < k < n)%nat -> finished_after C k = false).
Proof.
  revert c. induction fuel as [|fuel IH]; intros c Hfuel.
  - exists (S c). split; [lia|].
    assert (Hfin : finished_after C (S c) = true).
    { unfold finished_after. apply orb_true_iff. right. apply Z.leb_le. lia. }
    split; [|split; [exact Hfin | intros k Hk; lia]].
    rewrite surface_iterate_loop_unfold, Hfin. reflexivity.
  - destruct (finished_after C (S c)) eqn:Hfin.
    + exists (S c). split; [lia|].
      split; [|split; [exact Hfin | intros k Hk; lia]].
      rewrite surface_iterate_loop_unfold, Hfin. reflexivity.
    + destruct (IH (S c)) as (n & Hn & Hrun & Hfn & Hbefore); [lia|].
      exists n. split; [lia|]. split; [|split; [exact Hfn|]].
      * rewrite surface_iterate_loop_unfold, Hfin. exact Hrun.
      * intros k Hk. destruct (Nat.eq_dec k (S c)) as [->|Hne]; [exact Hfin|].
        apply Hbefore. lia.
Qed.

(** C2. For stride s >= 1 and iteration cap N >= 1, whatever the convergence
    limit L, [surface_iterate] returns: it makes n passes with
    1 <= n <= N * s; every pass k < n that was followed by another one had
    max |du| * z_rms > L / s and k < N * s; the last pass either met the
    limit or reached the cap; and no pass before the n-th met the limit, so
    the call returns after the first pass that does. *)
Theorem surface_iterate_terminates (C : SURFACE_INFO) (mode : Z) :
  (1 <= current_stride C)%Z -> (1 <= max_iterations C)%Z ->
  exists n : nat,
    surface_iterate C mode = Some (after_passes C n, Z.of_nat n) /\
    (1 <= n)%nat /\
    (Z.of_nat n <= max_iterations C * current_stride C)%Z /\
    (forall k, (1 <= k < n)%nat ->
       converge_limit C / inject_Z (current_stride C)
         < max_z_change (after_passes C (k - 1)) /\
       (Z.of_nat k < max_iterations C * current_stride C)%Z) /\
    (max_z_change (after_passes C (n - 1))
       <= converge_limit C / inject_Z (current_stride C) \/
     (current_max_iterations C <= Z.of_nat n)%Z) /\
    (forall k, (1 <= k)%nat ->
       max_z_change (after_passes C (k - 1))
         <= converge_limit C / inject_Z (current_stride C) ->
       (n <= k)%nat).
Proof.
  intros Hs HN.
  assert (Hprod : (1 <= max_iterations C * current_stride C)%Z) by nia.
  assert (Hcap : (0 <= current_max_iterations C <= max_iterations C * current_stride C)%Z).
  { unfold current_max_iterations.
    pose proof (Z.mod_pos_bound (max_iterations C * current_stride C) (2 ^ 32)).
    pose proof (Z.mod_le (max_iterations C * current_stride C) (2 ^ 32)).
    lia. }
  destruct (surface_iterate_loop_spec C (Z.to_nat (current_max_iterations C)) 0)
    as (n & Hn & Hrun & Hfin & Hbefore); [lia|].
  assert (Hnot : forall k, (1 <= k < n)%nat ->
            converge_limit C / inject_Z (current_stride C)
              < max_z_change (after_passes C (k - 1)) /\
            (Z.of_nat k < current_max_iterations C)%Z).
  { intros k Hk. specialize (Hbefore k ltac:(lia)).
    unfold finished_after in Hbefore. apply orb_false_iff in Hbefore.
    destruct Hbefore as [H1 H2]. apply Qleb_gt in H1. apply Z.leb_gt in H2. auto. }
  exists n. split; [exact Hrun|]. split; [lia|].
  split; [|split; [|split]].
  - destruct (Nat.eq_dec n 1) as [->|Hne]; [lia|].
    destruct (Hnot (n - 1)%nat) as [_ H]; lia.
  - intros k Hk. destruct (Hnot k Hk). split; [assumption|lia].
  - unfold finished_after in Hfin. apply orb_true_iff in Hfin.
    destruct Hfin as [H|H]; [left; apply Qleb_le, H | right; apply Z.leb_le, H].
  - intros k Hk Hconv. destruct (Nat.le_gt_cases n k) as [|Hlt]; [assumption|].
    destruct (Hnot k ltac:(lia)) as [H _]. lra.
Qed.

Lemma surface_iterate_terminates_witness :
  exists n : nat,
    surface_iterate (example_info 5 5 1 false [] (fun _ => 0)) GRID_DATA
      = Some (after_passes (example_info 5 5 1 false [] (fun _ => 0)) n, Z.of_nat n) /\
    (1 <= n)%nat /\ (Z.of_nat n <= 500 * 1)%Z.
Proof.
  destruct (surface_iterate_terminates (example_info 5 5 1 false [] (fun _ => 0)) GRID_DATA)
    as (n & H1 & H2 & H3 & _).
  - cbn. lia.
  - cbn. lia.
  - exists n. split; [exact H1|]. split; [exact H2|exact H3].
Defined.

(** ** The curvature report *)

(** C7. On the 4 x 4 grid holding the ramp u = col the sum of
    (u[E1] + u[W1] + u[N1] + u[S1] - 4 u[center])^2 over the interior nodes
    is 0, while the figure [surface_check_errors] computes is 256: it
    subtracts 4 u[E1], not 4 u[center]. *)
Theorem curvature_report_of_ramp :
  surface_check_errors_curvature ramp_info == 256 /\
  curvature_of_spec ramp_info == 0.
Proof. split; vm_compute; reflexivity. Qed.

(** ** Nodes and their neighbours *)

Lemma mult_offset_ne (t m r : Z) : (0 < r < m)%Z -> (t * m)%Z <> r.
Proof.
  intros H E. destruct (Z_le_gt_dec t 0) as [Ht|Ht].
  - assert (t * m <= 0)%Z by (apply Z.mul_nonpos_nonneg; lia). lia.
  - assert (1 * m <= t * m)%Z by (apply Z.mul_le_mono_nonneg_r; lia). lia.
Qed.

(** Distinct (row, col) pairs inside the padded width give distinct nodes. *)
Lemma row_col_to_node_neq (r1 c1 r2 c2 m : Z) :
  (-2 <= c1 < m - 2)%Z -> (-2 <= c2 < m - 2)%Z ->
  r1 <> r2 \/ c1 <> c2 ->
  row_col_to_node r1 c1 m <> row_col_to_node r2 c2 m.
Proof.
  unfold row_col_to_node. intros H1 H2 Hne E.
  destruct (Z.eq_dec r1 r2) as [->|Hr]; [lia|].
  destruct (Z_lt_ge_dec c1 c2) as [Hc|Hc].
  - apply (mult_offset_ne (r1 - r2) m (c2 - c1)); lia.
  - destruct (Z.eq_dec c1 c2) as [->|Hcc].
    + assert (E' : ((r1 - r2) * m = 0)%Z) by lia.
      apply Z.mul_eq_0 in E'. lia.
    + apply (mult_offset_ne (r2 - r1) m (c1 - c2)); lia.
Qed.

Lemma geometry_of_setup (C0 : SURFACE_INFO) :
  geometry_ok (surface_set_coefficients
                 (surface_set_offset (surface_set_grid_parameters C0))).
Proof.
  unfold geometry_ok; cbn. repeat split; try lia.
  all: intros k; destruct k; reflexivity.
Qed.

Lemma neighbour_node (C : SURFACE_INFO) (r c : Z) (k : surface_nodes) :
  geometry_ok C ->
  (row_col_to_node r c (current_mx C) + offset C k)%Z =
  row_col_to_node (r + node_drow k) (c + node_dcol k) (current_mx C).
Proof.
  intros (_ & _ & _ & _ & _ & Hoff). rewrite Hoff.
  unfold row_col_to_node. destruct k; cbn [node_drow node_dcol]; lia.
Qed.

Lemma south_edge_node (C : SURFACE_INFO) (col : Z) :
  geometry_ok C ->
  (node_sw_corner C + col)%Z = row_col_to_node (current_ny C - 1) col (current_mx C).
Proof.
  intros (_ & Hnw & Hsw & _). rewrite Hsw, Hnw. unfold row_col_to_node. lia.
Qed.

Lemma north_edge_node (C : SURFACE_INFO) (col : Z) :
  geometry_ok C ->
  (node_nw_corner C + col)%Z = row_col_to_node 0 col (current_mx C).
Proof.
  intros (_ & Hnw & _). rewrite Hnw. unfold row_col_to_node. lia.
Qed.

Lemma west_edge_node (C : SURFACE_INFO) (row : Z) :
  geometry_ok C ->
  (node_nw_corner C + row * current_mx C)%Z = row_col_to_node row 0 (current_mx C).
Proof.
  intros (_ & Hnw & _). rewrite Hnw. unfold row_col_to_node. lia.
Qed.

Lemma east_edge_node (C : SURFACE_INFO) (row : Z) :
  geometry_ok C ->
  (node_ne_corner C + row * current_mx C)%Z =
  row_col_to_node row (current_nx C - 1) (current_mx C).
Proof.
  intros (_ & Hnw & _ & _ & Hne & _). rewrite Hne, Hnw. unfold row_col_to_node. lia.
Qed.

Lemma In_Zrange (n i : Z) : In i (Zrange n) <-> (0 <= i < n)%Z.
Proof.
  unfold Zrange. rewrite in_map_iff. split.
  - intros (k & <- & Hk). apply in_seq in Hk. lia.
  - intros H. exists (Z.to_nat i). split; [lia|]. apply in_seq. lia.
Qed.

Lemma NoDup_Zrange (n : Z) : NoDup (Zrange n).
Proof.
  unfold Zrange. apply Finite.Injective_map_NoDup; [|apply seq_NoDup].
  intros a b. lia.
Qed.

(** ** The second-order boundary condition on the south and north edges *)

Section BC2.

Variable C : SURFACE_INFO.
Hypothesis Hgeo : geometry_ok C.

Let cmx_eq : current_mx C = (current_nx C + 4)%Z := proj1 Hgeo.

Lemma BC2_south_north_body_frame (u : Z -> Q) (col r c : Z) :
  (0 <= col < current_nx C)%Z -> (-2 <= c < current_nx C + 2)%Z ->
  (r <> -2 /\ r <> current_ny C + 1)%Z \/ c <> col ->
  BC2_south_north_body C u col (row_col_to_node r c (current_mx C))
  = u (row_col_to_node r c (current_mx C)).
Proof.
  intros Hcol Hc Hrc. unfold BC2_south_north_body.
  rewrite (south_edge_node C col Hgeo), (north_edge_node C col Hgeo).
  rewrite !(neighbour_node C _ _ _ Hgeo). cbn [node_drow node_dcol].
  rewrite !upd_other; [reflexivity| |];
    apply row_col_to_node_neq; lia.
Qed.

Lemma set_BC2_south_north_frame (l : list Z) (u : Z -> Q) (r c : Z) :
  (forall col, In col l -> (0 <= col < current_nx C)%Z) ->
  (-2 <= c < current_nx C + 2)%Z ->
  (r <> -2 /\ r <> current_ny C + 1)%Z \/ ~ In c l ->
  fold_left (BC2_south_north_body C) l u (row_col_to_node r c (current_mx C))
  = u (row_col_to_node r c (current_mx C)).
Proof.
  revert u. induction l as [|col l IH]; intros u Hl Hc Hrc; [reflexivity|].
  cbn [fold_left]. rewrite IH.
  - apply BC2_south_north_body_frame; [apply Hl; now left|assumption|].
    destruct Hrc as [H|H]; [now left|right]. intros ->. apply H. now left.
  - intros x Hx. apply Hl. now right.
  - assumption.
  - destruct Hrc as [H|H]; [now left|right]. intros Hin. apply H. now right.
Qed.

Lemma BC2_west_east_body_frame (u : Z -> Q) (row r c : Z) :
  (-1 <= c < current_nx C + 1)%Z ->
  BC2_west_east_body C u row (row_col_to_node r c (current_mx C))
  = u (row_col_to_node r c (current_mx C)).
Proof.
  intros Hc. unfold BC2_west_east_body.
  rewrite (west_edge_node C row Hgeo), (east_edge_node C row Hgeo).
  rewrite !(neighbour_node C _ _ _ Hgeo). cbn [node_drow node_dcol].
  destruct (periodic C); (rewrite !upd_other; [reflexivity| |]);
    apply row_col_to_node_neq; lia.
Qed.

Lemma set_BC2_west_east_frame (l : list Z) (u : Z -> Q) (r c : Z) :
  (-1 <= c < current_nx C + 1)%Z ->
  fold_left (BC2_west_east_body C) l u (row_col_to_node r c (current_mx C))
  = u (row_col_to_node r c (current_mx C)).
Proof.
  revert u. induction l as [|row l IH]; intros u Hc; [reflexivity|].
  cbn [fold_left]. rewrite IH by assumption.
  now apply BC2_west_east_body_frame.
Qed.

(** The relation only involves the ghost node and seven nodes next to it. *)
Lemma BC2_relation_ext (v v' : Z -> Q) (n : Z)
    (out opp2 oppW oppE nearW nearE near opp1 : surface_nodes) :
  (forall k, In k [out; opp2; oppW; oppE; nearW; nearE; near; opp1] ->
     v' (n + offset C k)%Z = v (n + offset C k)%Z) ->
  BC2_relation C v n out opp2 oppW oppE nearW nearE near opp1 ->
  BC2_relation C v' n out opp2 oppW oppE nearW nearE near opp1.
Proof.
  intros Hag. unfold BC2_relation.
  rewrite !Hag by (cbn; tauto). auto.
Qed.

Lemma BC2_south_north_body_relations (u : Z -> Q) (col : Z) :
  (2 <= current_ny C)%Z -> (0 <= col < current_nx C)%Z ->
  BC2_relation C (BC2_south_north_body C u col) (node_sw_corner C + col)
    S2 N2 NW NE SW SE S1 N1 /\
  BC2_relation C (BC2_south_north_body C u col) (node_nw_corner C + col)
    N2 S2 SW SE NW NE N1 S1.
Proof.
  intros Hny Hcol. unfold BC2_relation, BC2_south_north_body.
  rewrite (south_edge_node C col Hgeo), (north_edge_node C col Hgeo).
  rewrite !(neighbour_node C _ _ _ Hgeo). cbn [node_drow node_dcol].
  split.
  - rewrite (upd_other _ _ _ (row_col_to_node (current_ny C - 1 + 2) (col + 0) _))
      by (apply row_col_to_node_neq; lia).
    rewrite upd_same.
    rewrite !upd_other by (apply row_col_to_node_neq; lia).
    reflexivity.
  - rewrite upd_same.
    rewrite !upd_other by (apply row_col_to_node_neq; lia).
    reflexivity.
Qed.

(** After the two loops for dC/dn = 0 both relations hold in every column. *)
Lemma set_BC2_relations (u : Z -> Q) (col : Z) :
  (2 <= current_ny C)%Z -> (0 <= col < current_nx C)%Z ->
  let v := set_BC2_west_east C (set_BC2_south_north C u) in
  BC2_relation C v (node_sw_corner C + col) S2 N2 NW NE SW SE S1 N1 /\
  BC2_relation C v (node_nw_corner C + col) N2 S2 SW SE NW NE N1 S1.
Proof.
  intros Hny Hcol v.
  assert (Hin : In col (Zrange (current_nx C))) by now apply In_Zrange.
  destruct (in_split _ _ Hin) as (l1 & l2 & Hl).
  pose proof (NoDup_Zrange (current_nx C)) as Hnd. rewrite Hl in Hnd.
  apply NoDup_remove_2 in Hnd.
  assert (Hl2 : forall x, In x l2 -> (0 <= x < current_nx C)%Z).
  { intros x Hx. apply In_Zrange. rewrite Hl. apply in_or_app. right. now right. }
  assert (Hnot : ~ In col l2) by (intros H; apply Hnd, in_or_app; now right).
  unfold v, set_BC2_west_east, set_BC2_south_north.
  rewrite Hl, fold_left_app. cbn [fold_left].
  set (va := fold_left (BC2_south_north_body C) l1 u).
  destruct (BC2_south_north_body_relations va col Hny Hcol) as [HS HN].
  split; [eapply BC2_relation_ext; [|exact HS] | eapply BC2_relation_ext; [|exact HN]].
  - intros k Hk. rewrite (south_edge_node C col Hgeo), (neighbour_node C _ _ _ Hgeo).
    rewrite set_BC2_west_east_frame
      by (cbn in Hk; repeat (destruct Hk as [<-|Hk]; [cbn; lia|]); contradiction).
    apply set_BC2_south_north_frame; [exact Hl2| |].
    + cbn in Hk; repeat (destruct Hk as [<-|Hk]; [cbn; lia|]); contradiction.
    + cbn in Hk; repeat (destruct Hk as [<-|Hk];
        [cbn [node_drow node_dcol]; first [left; lia | right; now rewrite Z.add_0_r]|]);
        contradiction.
  - intros k Hk. rewrite (north_edge_node C col Hgeo), (neighbour_node C _ _ _ Hgeo).
    rewrite set_BC2_west_east_frame
      by (cbn in Hk; repeat (destruct Hk as [<-|Hk]; [cbn; lia|]); contradiction).
    apply set_BC2_south_north_frame; [exact Hl2| |].
    + cbn in Hk; repeat (destruct Hk as [<-|Hk]; [cbn; lia|]); contradiction.
    + cbn in Hk; repeat (destruct Hk as [<-|Hk];
        [cbn [node_drow node_dcol]; first [left; lia | right; now rewrite Z.add_0_r]|]);
        contradiction.
Qed.

End BC2.

(** C6 (as the code has it). With the coefficients set by
    [surface_set_coefficients], so that eps_m2 = 1 / alpha^2, on a grid of at
    least two rows, [surface_set_BCs] leaves in every interior column
    u[S2] = u[N2] + eps_m2 (u[NW] + u[NE] - u[SW] - u[SE])
            + (2 + 2 eps_m2) (u[S1] - u[N1])
    at the south edge node, and the mirrored relation at the north edge
    node: the last factor is 2 + 2 eps_m2. *)
Theorem set_BCs_second_ghost_rows (C0 : SURFACE_INFO) (u0 : Z -> Q) (col : Z) :
  let C := surface_set_coefficients
             (surface_set_offset (surface_set_grid_parameters C0)) in
  (2 <= current_ny C)%Z -> (0 <= col < current_nx C)%Z ->
  let u := surface_set_BCs C u0 in
  let d_n := offset C in
  let n_s := (node_sw_corner C + col)%Z in
  let n_n := (node_nw_corner C + col)%Z in
  let eps_m2 := 1 / (alpha C * alpha C) in
  u (n_s + d_n S2)%Z ==
    u (n_s + d_n N2)%Z
    + eps_m2 * (u (n_s + d_n NW)%Z + u (n_s + d_n NE)%Z
                - u (n_s + d_n SW)%Z - u (n_s + d_n SE)%Z)
    + (2 + 2 * eps_m2) * (u (n_s + d_n S1)%Z - u (n_s + d_n N1)%Z)
  /\
  u (n_n + d_n N2)%Z ==
    u (n_n + d_n S2)%Z
    + eps_m2 * (u (n_n + d_n SW)%Z + u (n_n + d_n SE)%Z
                - u (n_n + d_n NW)%Z - u (n_n + d_n NE)%Z)
    + (2 + 2 * eps_m2) * (u (n_n + d_n N1)%Z - u (n_n + d_n S1)%Z).
Proof.
  intros C Hny Hcol u d_n n_s n_n eps.
  pose proof (geometry_of_setup C0) as Hgeo. fold C in Hgeo.
  destruct (set_BC2_relations C Hgeo
              (set_BC_corners C (set_BC1_west_east C (set_BC1_south_north C u0)))
              col Hny Hcol) as [HS HN].
  unfold BC2_relation in HS, HN. fold (surface_set_BCs C u0) in HS, HN.
  fold u d_n n_s n_n in HS, HN.
  split.
  - rewrite HS. reflexivity.
  - rewrite HN. reflexivity.
Qed.

Lemma set_BCs_second_ghost_rows_witness :
  let C := surface_set_coefficients
             (surface_set_offset
                (surface_set_grid_parameters
                   (base_info 4 4 1 false [] (fun node => inject_Z (node / 8 - 2))))) in
  let u := surface_set_BCs C (fun node => inject_Z (node / 8 - 2)) in
  let d_n := offset C in
  let n_s := (node_sw_corner C + 1)%Z in
  let n_n := (node_nw_corner C + 1)%Z in
  let eps_m2 := 1 / (alpha C * alpha C) in
  u (n_s + d_n S2)%Z ==
    u (n_s + d_n N2)%Z
    + eps_m2 * (u (n_s + d_n NW)%Z + u (n_s + d_n NE)%Z
                - u (n_s + d_n SW)%Z - u (n_s + d_n SE)%Z)
    + (2 + 2 * eps_m2) * (u (n_s + d_n S1)%Z - u (n_s + d_n N1)%Z)
  /\
  u (n_n + d_n N2)%Z ==
    u (n_n + d_n S2)%Z
    + eps_m2 * (u (n_n + d_n SW)%Z + u (n_n + d_n SE)%Z
                - u (n_n + d_n NW)%Z - u (n_n + d_n NE)%Z)
    + (2 + 2 * eps_m2) * (u (n_n + d_n N1)%Z - u (n_n + d_n S1)%Z).
Proof.
  apply (set_BCs_second_ghost_rows
           (base_info 4 4 1 false [] (fun node => inject_Z (node / 8 - 2)))
           (fun node => inject_Z (node / 8 - 2)) 1).
  - vm_compute. discriminate.
  - vm_compute. split; [discriminate | reflexivity].
Defined.

(** C6, as the specification words it, fails: on the 4 x 4 grid holding the
    ramp u = row the south ghost node of column 1 does not satisfy the
    relation with the factor 2 + eps_m2. *)
Lemma set_BCs_factor_of_spec_fails :
  let C := row_ramp_info in
  let u := surface_set_BCs C (u C) in
  let n_s := (node_sw_corner C + 1)%Z in
  let eps_m2 := 1 / (alpha C * alpha C) in
  ~ u (n_s + offset C S2)%Z ==
      u (n_s + offset C N2)%Z
      + eps_m2 * (u (n_s + offset C NW)%Z + u (n_s + offset C NE)%Z
                  - u (n_s + offset C SW)%Z - u (n_s + offset C SE)%Z)
      + (2 + eps_m2) * (u (n_s + offset C S1)%Z - u (n_s + offset C N1)%Z).
Proof. vm_compute. discriminate. Qed.

(** ** Loops that update every node once *)

Lemma fold_left_ext {A B : Type} (f g : A -> B -> A) (l : list B) (a : A) :
  (forall a x, In x l -> f a x = g a x) -> fold_left f l a = fold_left g l a.
Proof.
  revert a. induction l as [|x l IH]; intros a H; [reflexivity|].
  cbn. rewrite H by now left. apply IH. intros; apply H; now right.
Qed.

Section Pointwise.

Context {X : Type} (f : X -> Z) (h : X -> Q -> Q).

Let body := fun (u : Z -> Q) (x : X) => upd u (f x) (h x (u (f x))).

Lemma fold_left_upd_untouched (l : list X) (u : Z -> Q) (n : Z) :
  ~ In n (map f l) -> fold_left body l u n = u n.
Proof.
  revert u. induction l as [|y l IH]; intros u Hn; [reflexivity|].
  cbn [fold_left]. rewrite IH by (intros H; apply Hn; now right).
  unfold body. apply upd_other. intros ->. apply Hn. now left.
Qed.

Lemma fold_left_upd_pointwise (l : list X) (u : Z -> Q) (x : X) :
  NoDup (map f l) -> In x l -> fold_left body l u (f x) = h x (u (f x)).
Proof.
  revert u. induction l as [|y l IH]; intros u Hnd Hx; [contradiction|].
  cbn [map] in Hnd. inversion Hnd as [|? ? Hy Hnd']; subst.
  cbn [fold_left]. destruct Hx as [->|Hx].
  - rewrite fold_left_upd_untouched by assumption. unfold body. apply upd_same.
  - rewrite IH by assumption. unfold body. rewrite upd_other; [reflexivity|].
    intros E. apply Hy. rewrite <- E. now apply in_map.
Qed.

End Pointwise.

Lemma In_grid_nodes (ny nx r c : Z) :
  In (r, c) (grid_nodes ny nx) <-> (0 <= r < ny)%Z /\ (0 <= c < nx)%Z.
Proof.
  unfold grid_nodes. rewrite in_flat_map. split.
  - intros (row & Hrow & Hin). apply in_map_iff in Hin.
    destruct Hin as (col & E & Hcol). inversion E; subst.
    split; now apply In_Zrange.
  - intros [Hr Hc]. exists r. split; [now apply In_Zrange|].
    apply in_map. now apply In_Zrange.
Qed.

Lemma NoDup_grid_nodes (ny nx : Z) : NoDup (grid_nodes ny nx).
Proof.
  unfold grid_nodes. pose proof (NoDup_Zrange ny) as Hnd.
  induction (Zrange ny) as [|row rows IH]; [constructor|].
  inversion Hnd as [|? ? Hrow Hnd']; subst. cbn [flat_map].
  apply NoDup_app.
  - apply Finite.Injective_map_NoDup; [|apply NoDup_Zrange].
    intros a b E. now inversion E.
  - now apply IH.
  - intros [r c] H1 H2. apply in_map_iff in H1. destruct H1 as (c' & E & _).
    inversion E; subst. apply in_flat_map in H2. destruct H2 as (row' & Hrow' & H2).
    apply in_map_iff in H2. destruct H2 as (c'' & E' & _). inversion E'; subst.
    contradiction.
Qed.

(** The nodes of the interior, row by row, are pairwise distinct when the
    padded width leaves room for the columns. *)
Lemma NoDup_interior_nodes (ny nx m : Z) :
  (nx <= m - 2)%Z ->
  NoDup (map (fun rc => row_col_to_node (fst rc) (snd rc) m) (grid_nodes ny nx)).
Proof.
  intros Hm. apply Finite.Injective_map_NoDup_in; [|apply NoDup_grid_nodes].
  intros [r1 c1] [r2 c2] H1 H2 E. cbn [fst snd] in E.
  apply In_grid_nodes in H1, H2.
  destruct (Z.eq_dec r1 r2) as [->|Hr]; [destruct (Z.eq_dec c1 c2) as [->|Hc]|]; auto;
    exfalso; revert E; apply row_col_to_node_neq; lia.
Qed.

(** ** Data on a plane *)

Lemma restore_planar_trend_value (C : SURFACE_INFO) (row col : Z) :
  (h_n_columns C <= current_mx C - 2)%Z ->
  (0 <= row < h_n_rows C)%Z -> (0 <= col < h_n_columns C)%Z ->
  u (surface_restore_planar_trend C) (row_col_to_node row col (current_mx C))
  = u C (row_col_to_node row col (current_mx C)) * z_rms C
    + evaluate_plane C (inject_Z col) (inject_Z (h_n_rows C - row - 1)).
Proof.
  intros Hm Hrow Hcol. unfold surface_restore_planar_trend. cbn [u set_u].
  rewrite (fold_left_ext _
    (fun u rc => upd u (row_col_to_node (fst rc) (snd rc) (current_mx C))
       ((fun rc v => v * z_rms C
           + evaluate_plane C (inject_Z (snd rc)) (inject_Z (h_n_rows C - fst rc - 1)))
          rc (u (row_col_to_node (fst rc) (snd rc) (current_mx C)))))).
  - apply (fold_left_upd_pointwise
             (fun rc => row_col_to_node (fst rc) (snd rc) (current_mx C))
             (fun rc v => v * z_rms C
                + evaluate_plane C (inject_Z (snd rc)) (inject_Z (h_n_rows C - fst rc - 1)))
             _ _ (row, col)).
    + now apply NoDup_interior_nodes.
    + now apply In_grid_nodes.
  - intros a [r c] _. cbn [fst snd].
    replace (row_col_to_node r 0 (current_mx C) + c)%Z
      with (row_col_to_node r c (current_mx C)) by (unfold row_col_to_node; lia).
    reflexivity.
Qed.

(** The loop of [surface_write_grid] that averages the west and east
    columns: both edge nodes of a row get the mean of the two. *)
Lemma periodic_average_value (nx ny m : Z) (u0 : Z -> Q) (row c : Z) :
  (1 <= nx <= m - 2)%Z -> (0 <= row < ny)%Z -> (0 <= c < nx)%Z ->
  let v := fold_left (fun u row =>
               let node := row_col_to_node row 0 m in
               let w := (1 # 2) * (u node + u (node + nx - 1)%Z) in
               upd (upd u (node + nx - 1)%Z w) node w) (Zrange ny) u0 in
  v (row_col_to_node row c m) =
    if ((c =? 0) || (c =? nx - 1))%Z
    then (1 # 2) * (u0 (row_col_to_node row 0 m) + u0 (row_col_to_node row (nx - 1) m))
    else u0 (row_col_to_node row c m).
Proof.
  intros Hm Hrow Hc v. unfold v. clear v.
  assert (Hrows : forall r, In r (Zrange ny) -> (0 <= r < ny)%Z) by (intros; now apply In_Zrange).
  assert (Hin : ((c =? 0) || (c =? nx - 1))%Z = true -> In row (Zrange ny))
    by (intros; now apply In_Zrange).
  pose proof (NoDup_Zrange ny) as Hnd.
  revert u0. induction (Zrange ny) as [|r l IH]; intros u0.
  - cbn [fold_left]. destruct ((c =? 0) || (c =? nx - 1))%Z eqn:E; [|reflexivity].
    destruct (Hin eq_refl).
  - inversion Hnd as [|? ? Hr Hnd']; subst. cbn [fold_left].
    replace (row_col_to_node r 0 m + nx - 1)%Z with (row_col_to_node r (nx - 1) m)
      by (unfold row_col_to_node; lia).
    destruct (Z.eq_dec r row) as [->|Hne].
    + (* this row: the later rows leave it alone *)
      assert (Hlater : forall (l' : list Z) (w : Z -> Q), ~ In row l' ->
                fold_left (fun u row0 =>
                    let node := row_col_to_node row0 0 m in
                    let w := (1 # 2) * (u node + u (node + nx - 1)%Z) in
                    upd (upd u (node + nx - 1)%Z w) node w) l' w
                  (row_col_to_node row c m) = w (row_col_to_node row c m)).
      { induction l' as [|r' l' IHl]; intros w Hn; [reflexivity|].
        cbn [fold_left]. rewrite IHl by (intros H; apply Hn; now right).
        replace (row_col_to_node r' 0 m + nx - 1)%Z with (row_col_to_node r' (nx - 1) m)
          by (unfold row_col_to_node; lia).
        rewrite !upd_other; [reflexivity| |];
          apply row_col_to_node_neq; try lia;
          left; intros ->; apply Hn; now left. }
      rewrite Hlater by assumption.
      destruct (c =? 0)%Z eqn:E0.
      * apply Z.eqb_eq in E0. subst c. cbn [orb]. apply upd_same.
      * destruct (c =? nx - 1)%Z eqn:E1; cbn [orb].
        -- apply Z.eqb_eq in E1. subst c.
           rewrite upd_other by (apply row_col_to_node_neq; try lia;
                                 right; apply Z.eqb_neq in E0; lia).
           apply upd_same.
        -- apply Z.eqb_neq in E0, E1.
           rewrite !upd_other by (apply row_col_to_node_neq; lia). reflexivity.
    + rewrite IH.
      * rewrite !upd_other by (apply row_col_to_node_neq; lia). reflexivity.
      * intros x Hx. apply Hrows. now right.
      * intros E. destruct (Hin E) as [->|]; [contradiction|assumption].
      * assumption.
Qed.

(** ** The header of the written grid *)

(** Lines 947-977 assign to members of the header, and to [C->n_columns]
    and [C->n_rows], only. *)
Lemma write_grid_header_fields (GMT : GMT_CTRL) (Ctrl : SURFACE_CTRL) (C : SURFACE_INFO) :
  exists nc nr w pad reg hmx n1 n2,
    write_grid_header GMT Ctrl C
    = set_n_columns_rows (set_header C nc nr w pad reg hmx) n1 n2.
Proof.
  assert (Hid : forall D : SURFACE_INFO, exists nc nr w pad reg hmx n1 n2,
            D = set_n_columns_rows (set_header D nc nr w pad reg hmx) n1 n2).
  { intros D. exists (h_n_columns D), (h_n_rows D), (h_wesn D), (h_pad D),
      (h_registration D), (h_mx D), (n_columns D), (n_rows D).
    destruct D; reflexivity. }
  assert (Hdim : forall D : SURFACE_INFO, exists nc nr w pad reg hmx n1 n2,
            set_grddim GMT D = set_n_columns_rows (set_header D nc nr w pad reg hmx) n1 n2).
  { intros D. unfold set_grddim.
    destruct (gmt_set_grddim GMT _ _ _ _) as [[nc nr] hmx].
    exists nc, nr, (h_wesn D), (h_pad D), (h_registration D), hmx, (n_columns D), (n_rows D).
    destruct D; reflexivity. }
  unfold write_grid_header.
  set (C1 := if negb (Q_active Ctrl) && Q_adjusted Ctrl then _ else C).
  assert (H1 : exists nc nr w pad reg hmx n1 n2,
             C1 = set_n_columns_rows (set_header C nc nr w pad reg hmx) n1 n2).
  { unfold C1. destruct (negb (Q_active Ctrl) && Q_adjusted Ctrl); [|apply Hid].
    cbv zeta. match goal with |- context [negb ?b] => destruct (negb b) end; [|apply Hid].
    match goal with |- context [set_grddim GMT ?D] =>
      destruct (Hdim D) as (nc & nr & w & pad & reg & hmx & n1 & n2 & ->) end.
    eexists _, _, _, _, _, _, _, _. destruct C; reflexivity. }
  clearbody C1. destruct H1 as (nc & nr & w & pad & reg & hmx & n1 & n2 & ->).
  destruct (R_registration GMT); [eexists _, _, _, _, _, _, _, _; destruct C; reflexivity|].
  cbv zeta. match goal with |- context [set_grddim GMT ?D] =>
    destruct (Hdim D) as (nc' & nr' & w' & pad' & reg' & hmx' & n1' & n2' & ->) end.
  eexists _, _, _, _, _, _, _, _. destruct C; reflexivity.
Qed.

(** A node of the written grid, in rows and columns of the solution grid. *)
Lemma written_node (H : SURFACE_INFO) (row col : Z) :
  gmt_M_ijp_header H row col
  = row_col_to_node (row + h_pad H YHI - 2) (col + h_pad H XLO - 2) (h_mx H).
Proof. unfold gmt_M_ijp_header, row_col_to_node. lia. Qed.


(** Without loaded bound grids [surface_write_grid] hands over the
    solution as it is, with the edge columns of a periodic grid averaged. *)
Lemma write_grid_unconstrained (GMT : GMT_CTRL) (Ctrl : SURFACE_CTRL)
    (reloaded : Z * (surface_bound -> Z -> option Q)) (C : SURFACE_INFO) :
  constrained C = false ->
  (forall G, GMT_Write_Data GMT G = GMT_NOERROR) ->
  surface_write_grid GMT Ctrl reloaded C
  = (set_u (write_grid_header GMT Ctrl C)
       (if periodic C
        then fold_left (fun u row =>
               let node := row_col_to_node row 0 (current_mx C) in
               let v := (1 # 2) * (u node + u (node + current_nx C - 1)%Z) in
               upd (upd u (node + current_nx C - 1)%Z v) node v)
             (Zrange (current_ny C)) (u C)
        else u C), 0%Z).
Proof.
  intros Hcon Hw.
  destruct (write_grid_header_fields GMT Ctrl C)
    as (nc & nr & w & pad & reg & hmx & n1 & n2 & EH).
  unfold surface_write_grid. cbv zeta. rewrite Hw.
  change (negb (GMT_NOERROR =? GMT_NOERROR)%Z) with false. cbv iota.
  set (H := write_grid_header GMT Ctrl C) in *.
  assert (F : constrained H = constrained C /\ periodic H = periodic C /\
              current_nx H = current_nx C /\ current_ny H = current_ny C /\
              current_mx H = current_mx C /\ u H = u C).
  { rewrite EH. repeat split. }
  destruct F as (F1 & F2 & F3 & F4 & F5 & F6).
  rewrite F1, Hcon, F2, F3, F4, F5, F6. destruct (periodic C); reflexivity.
Qed.


(** ** Data on a plane: the early exit of [GMT_surface] *)

Lemma throw_away_unusables_fields
    (qsort_r : (SURFACE_DATA -> SURFACE_DATA -> Z) -> list SURFACE_DATA -> list SURFACE_DATA)
    (C : SURFACE_INFO) :
  exists l, surface_throw_away_unusables qsort_r C = set_data C l.
Proof.
  unfold surface_throw_away_unusables.
  destruct (mark_unusables _ _) as [marked n_outside].
  destruct (n_outside =? 0)%Z; eexists; reflexivity.
Qed.

Lemma remove_planar_trend_fields (C : SURFACE_INFO) :
  exists a b c l,
    surface_remove_planar_trend C = set_data (set_plane C a b c) l /\
    (periodic C = true -> b = 0).
Proof.
  unfold surface_remove_planar_trend.
  match goal with |- context [Qeqb ?d 0] => destruct (Qeqb d 0) end.
  - exists 0, 0, 0, (data C). split; [destruct C; reflexivity | reflexivity].
  - eexists _, _, _, _. split; [reflexivity|]. intros ->. reflexivity.
Qed.

Lemma detrended_setup
    (qsort_r : (SURFACE_DATA -> SURFACE_DATA -> Z) -> list SURFACE_DATA -> list SURFACE_DATA)
    (C : SURFACE_INFO) :
  let C1 := surface_remove_planar_trend
              (surface_throw_away_unusables qsort_r
                 (surface_set_grid_parameters (set_current_stride C 1%Z))) in
  constrained C1 = constrained C /\ periodic C1 = periodic C /\
  current_nx C1 = n_columns C /\ current_ny C1 = n_rows C /\
  current_mx C1 = (n_columns C + 4)%Z /\
  h_n_columns C1 = h_n_columns C /\ h_n_rows C1 = h_n_rows C /\
  total_iterations C1 = total_iterations C /\
  (periodic C = true -> plane_sx C1 = 0).
Proof.
  set (Ca := surface_set_grid_parameters (set_current_stride C 1%Z)).
  assert (Ha : constrained Ca = constrained C /\ periodic Ca = periodic C /\
               current_nx Ca = n_columns C /\ current_ny Ca = n_rows C /\
               current_mx Ca = (n_columns C + 4)%Z /\
               h_n_columns Ca = h_n_columns C /\ h_n_rows Ca = h_n_rows C /\
               total_iterations Ca = total_iterations C).
  { unfold Ca. cbn. rewrite !Z.quot_1_r. repeat split; lia. }
  clearbody Ca.
  destruct (throw_away_unusables_fields qsort_r Ca) as (l & ->).
  destruct (remove_planar_trend_fields (set_data Ca l)) as (a & b & c & l' & -> & Hb).
  cbn. cbn in Hb.
  destruct Ha as (H1 & H2 & H3 & H4 & H5 & H6 & H7 & H8).
  repeat split; try assumption.
  intros Hp. apply Hb. congruence.
Qed.

Lemma rescale_z_values_planar (sqrt : Q -> Q) (C : SURFACE_INFO) :
  residual_rms sqrt C < GMT_CONV8_LIMIT ->
  surface_rescale_z_values sqrt C = (set_rms C 1 1, 1%Z).
Proof.
  intros H. unfold surface_rescale_z_values. unfold residual_rms in H.
  apply Qltb_lt in H. rewrite H. reflexivity.
Qed.

(** The early exit, when the library calls succeed: the plane is restored
    on a grid of zeros and written; the solve is not consulted. *)
Lemma GMT_surface_planar_exit (GMT : GMT_CTRL) (Ctrl : SURFACE_CTRL)
    (qsort_r : (SURFACE_DATA -> SURFACE_DATA -> Z) -> list SURFACE_DATA -> list SURFACE_DATA)
    (sqrt : Q -> Q)
    (reloaded : Z * (surface_bound -> Z -> option Q))
    (multigrid_solve : SURFACE_INFO -> SURFACE_INFO * Z)
    (C : SURFACE_INFO) :
  let fit := surface_remove_planar_trend
               (surface_throw_away_unusables qsort_r
                  (surface_set_grid_parameters (set_current_stride C 1%Z))) in
  (forall G, GMT_Set_Comment GMT G = GMT_NOERROR) ->
  (forall G, GMT_Create_Data GMT G = true) ->
  residual_rms sqrt fit < GMT_CONV8_LIMIT ->
  GMT_surface GMT Ctrl qsort_r sqrt reloaded multigrid_solve C =
  let '(C4, error) :=
    surface_write_grid GMT Ctrl reloaded
      (surface_restore_planar_trend (set_u (set_rms fit 1 1) (fun _ => 0))) in
  if negb (error =? 0)%Z then (C4, error) else (C4, GMT_NOERROR).
Proof.
  intros fit Hcomment Hcreate Hrms.
  unfold GMT_surface. fold fit. clearbody fit.
  rewrite (rescale_z_values_planar sqrt _ Hrms), Hcomment, Hcreate.
  reflexivity.
Qed.

(** C3.  When the root-mean-square of the detrended residuals is below 1e-8
    (no bound grid has been loaded at this point of [GMT_surface], and the
    library calls succeed), the solver returns success without consulting
    the multigrid solve, so without a single pass of the iteration, with
    z_rms set to 1, and the grid it hands to the writer holds the plane
    fitted to the data by [surface_remove_planar_trend],
    plane_icept + plane_sx * col + plane_sy * (n_rows - 1 - row), at every
    node (row, col) of the solution grid; the nodes of the written grid, the
    nodes inside the pads of the header, are such nodes. *)
Theorem plane_written_when_data_planar
    (GMT : GMT_CTRL) (Ctrl : SURFACE_CTRL)
    (qsort_r : (SURFACE_DATA -> SURFACE_DATA -> Z) -> list SURFACE_DATA -> list SURFACE_DATA)
    (sqrt : Q -> Q)
    (reloaded : Z * (surface_bound -> Z -> option Q))
    (multigrid_solve : SURFACE_INFO -> SURFACE_INFO * Z)
    (C : SURFACE_INFO) :
  let fit := surface_remove_planar_trend
               (surface_throw_away_unusables qsort_r
                  (surface_set_grid_parameters (set_current_stride C 1%Z))) in
  let plane := fun row col =>
    plane_icept fit + plane_sx fit * inject_Z col
    + plane_sy fit * inject_Z (n_rows C - 1 - row) in
  let r := GMT_surface GMT Ctrl qsort_r sqrt reloaded multigrid_solve C in
  constrained C = false ->
  h_n_columns C = n_columns C -> h_n_rows C = n_rows C ->
  (forall G, GMT_Set_Comment GMT G = GMT_NOERROR) ->
  (forall G, GMT_Create_Data GMT G = true) ->
  (forall G, GMT_Write_Data GMT G = GMT_NOERROR) ->
  residual_rms sqrt fit < GMT_CONV8_LIMIT ->
  snd r = GMT_NOERROR /\
  (forall solve, GMT_surface GMT Ctrl qsort_r sqrt reloaded solve C = r) /\
  total_iterations (fst r) = total_iterations C /\
  z_rms (fst r) = 1 /\
  (forall row col, (0 <= row < n_rows C)%Z -> (0 <= col < n_columns C)%Z ->
     u (fst r) (row_col_to_node row col (n_columns C + 4)) == plane row col) /\
  (written_inside fit (fst r) ->
   forall row col, (0 <= row < h_n_rows (fst r))%Z -> (0 <= col < h_n_columns (fst r))%Z ->
     u (fst r) (gmt_M_ijp_header (fst r) row col)
     == plane (row + h_pad (fst r) YHI - 2)%Z (col + h_pad (fst r) XLO - 2)%Z).
Proof.
  cbv zeta. intros Hcon Hcols Hrows Hcomment Hcreate Hwrite Hrms.
  pose proof (detrended_setup qsort_r C) as Hfit. cbv zeta in Hfit.
  pose proof (fun solve => GMT_surface_planar_exit GMT Ctrl qsort_r sqrt reloaded solve C
                             Hcomment Hcreate Hrms) as Hexit.
  cbv zeta in Hexit. clear Hrms. revert Hfit Hexit.
  generalize (surface_remove_planar_trend
                (surface_throw_away_unusables qsort_r
                   (surface_set_grid_parameters (set_current_stride C 1%Z)))).
  intros fit (Hc1 & Hp1 & Hnx & Hny & Hmx & Hhc & Hhr & Hti & Hsx) Hexit.
  set (plane := fun row col =>
         plane_icept fit + plane_sx fit * inject_Z col
         + plane_sy fit * inject_Z (n_rows C - 1 - row)).
  set (C2 := set_u (set_rms fit 1 1) (fun _ => 0)) in *.
  set (W := set_u (write_grid_header GMT Ctrl (surface_restore_planar_trend C2))
              (if periodic C
               then fold_left (fun u row =>
                      let node := row_col_to_node row 0 (n_columns C + 4) in
                      let v := (1 # 2) * (u node + u (node + n_columns C - 1)%Z) in
                      upd (upd u (node + n_columns C - 1)%Z v) node v)
                    (Zrange (n_rows C)) (u (surface_restore_planar_trend C2))
               else u (surface_restore_planar_trend C2))).
  assert (Hr : forall solve,
            GMT_surface GMT Ctrl qsort_r sqrt reloaded solve C = (W, GMT_NOERROR)).
  { intros solve. rewrite Hexit.
    rewrite write_grid_unconstrained; [|cbn; congruence|exact Hwrite].
    cbn [Z.eqb negb].
    change (periodic (surface_restore_planar_trend C2)) with (periodic fit).
    change (current_mx (surface_restore_planar_trend C2)) with (current_mx fit).
    change (current_nx (surface_restore_planar_trend C2)) with (current_nx fit).
    change (current_ny (surface_restore_planar_trend C2)) with (current_ny fit).
    rewrite Hp1, Hmx, Hnx, Hny. reflexivity. }
  rewrite Hr. clear Hexit. cbn [fst snd].
  assert (Hval : forall row col, (0 <= row < n_rows C)%Z -> (0 <= col < n_columns C)%Z ->
            u (surface_restore_planar_trend C2) (row_col_to_node row col (n_columns C + 4))
            == plane row col).
  { intros row col Hrw Hcl.
    pose proof (restore_planar_trend_value C2 row col) as H.
    cbn [C2 current_mx h_n_columns h_n_rows u z_rms set_u set_rms] in H.
    rewrite Hmx, Hhc, Hhr, Hcols, Hrows in H.
    rewrite H by lia. unfold plane, evaluate_plane, evaluate_trend.
    cbn [C2 plane_icept plane_sx plane_sy set_u set_rms].
    replace (n_rows C - row - 1)%Z with (n_rows C - 1 - row)%Z by lia. ring. }
  destruct (write_grid_header_fields GMT Ctrl (surface_restore_planar_trend C2))
    as (nc & nr & w & pad & reg & hmx & n1 & n2 & EH).
  assert (Hsol : forall row col, (0 <= row < n_rows C)%Z -> (0 <= col < n_columns C)%Z ->
            u W (row_col_to_node row col (n_columns C + 4)) == plane row col).
  { intros row col Hrw Hcl. unfold W. cbn [u set_u].
    destruct (periodic C) eqn:Hper; [|now apply Hval].
    pose proof (periodic_average_value (n_columns C) (n_rows C) (n_columns C + 4)
                  (u (surface_restore_planar_trend C2)) row col) as P.
    cbv zeta in P. rewrite P by lia. clear P.
    destruct ((col =? 0) || (col =? n_columns C - 1))%Z; [|now apply Hval].
    rewrite !Hval by lia. unfold plane. rewrite (Hsx eq_refl). ring. }
  split; [reflexivity|].
  split; [exact Hr|].
  split; [unfold W; cbn [total_iterations set_u]; rewrite EH; exact Hti|].
  split; [unfold W; cbn [z_rms set_u]; rewrite EH; reflexivity|].
  split; [exact Hsol|].
  intros (Wmx & Wpx & Wcx & Wpy & Wcy) row col Hrw Hcl.
  rewrite written_node, Wmx, Hmx. rewrite Hnx in Wcx. rewrite Hny in Wcy.
  apply Hsol; lia.
Qed.

Lemma plane_written_when_data_planar_witness :
  let r := GMT_surface (example_GMT GMT_GRID_PIXEL_REG) example_Ctrl insertion_sort sqrt_down
             (0%Z, fun _ _ => None) (fun C => (C, GMT_RUNTIME_ERROR)) (plane_info false) in
  snd r = GMT_NOERROR /\ total_iterations (fst r) = 0%Z /\
  u (fst r) (gmt_M_ijp_header (fst r) 0 1) == 4.
Proof.
  destruct (plane_written_when_data_planar (example_GMT GMT_GRID_PIXEL_REG) example_Ctrl
              insertion_sort sqrt_down (0%Z, fun _ _ => None)
              (fun C => (C, GMT_RUNTIME_ERROR)) (plane_info false))
    as (H1 & _ & H2 & _ & _ & H3).
  - reflexivity.
  - reflexivity.
  - reflexivity.
  - intros G. reflexivity.
  - intros G. reflexivity.
  - intros G. reflexivity.
  - vm_compute. reflexivity.
  - split; [exact H1|]. split; [exact H2|].
    rewrite H3.
    + vm_compute. reflexivity.
    + vm_compute. repeat split; discriminate.
    + vm_compute. split; [discriminate | reflexivity].
    + vm_compute. split; [discriminate | reflexivity].
Defined.

(** ** Clipping against the bound grids *)












(** When the east column is not written, as for pixel registration, the
    averaging on a periodic grid mixes the clipped west node with the east
    node, which the clipping loop has not visited: with limits 1 and 3 at
    every node, the west node of the first written row is handed over as
    (1 - 10) / 2. *)
Lemma write_grid_trimmed_periodic_below_bound :
  let GMT := example_GMT GMT_GRID_PIXEL_REG in
  let B := fun (b : surface_bound) (_ : Z) => match b with LO => Some 1 | HI => Some 3 end in
  let H := write_grid_header GMT example_Ctrl east_low_info in
  h_n_columns H = 3%Z /\ h_pad H XHI = 3%Z /\
  u (fst (surface_write_grid GMT example_Ctrl (0%Z, B) east_low_info))
    (gmt_M_ijp_header H 0 0) == - (9 # 2).
Proof. cbv zeta. split; [|split]; vm_compute; reflexivity. Qed.

(** The early exit for data on a plane never loads the bound grids, so
    [surface_write_grid] does not clip there: whatever a reload would give,
    the plane is written as it is.  With the data on z = x + y and an upper
    limit of 3 asked for, node (0, 4) is written as 8. *)
Lemma planar_exit_writes_the_plane_unclipped
    (reloaded : Z * (surface_bound -> Z -> option Q)) :
  let C := make_info 5 5 1 false false (fun _ => VALUE) plane_data (fun _ => 0) in
  let r := GMT_surface (example_GMT GMT_GRID_NODE_REG) example_Ctrl insertion_sort sqrt_down
             reloaded (fun C => (C, GMT_RUNTIME_ERROR)) C in
  set_limit C HI = VALUE /\ snd r = GMT_NOERROR /\
  u (fst r) (row_col_to_node 0 4 (n_columns C + 4)) == 8.
Proof.
  cbv zeta. split; [reflexivity|]. split; vm_compute; reflexivity.
Qed.

(** ** Densification of breaklines *)

Lemma lrint_floor (x : Q) : (Qfloor x <= lrint x <= Qfloor x + 1)%Z.
Proof.
  unfold lrint. destruct (Qcompare _ _); [destruct (Z.even _)| |]; lia.
Qed.

Lemma Qceiling_le_floor_succ (x : Q) : (Qceiling x <= Qfloor x + 1)%Z.
Proof.
  pose proof (Qceiling_lt x) as H1. pose proof (Qlt_floor x) as H2.
  assert (H : inject_Z (Qceiling x - 1) < inject_Z (Qfloor x + 1))
    by (eapply Qlt_trans; eassumption).
  rewrite <- Zlt_Qlt in H. lia.
Qed.

Lemma Qceiling_le_lrint_succ (x : Q) : (Qceiling x <= lrint x + 1)%Z.
Proof.
  pose proof (lrint_floor x). pose proof (Qceiling_le_floor_succ x). lia.
Qed.

Lemma lrint_nonneg (x : Q) : 0 <= x -> (0 <= lrint x)%Z.
Proof.
  intros H. pose proof (lrint_floor x).
  assert (Qfloor 0 <= Qfloor x)%Z by now apply Qfloor_resp_le.
  change (Qfloor 0) with 0%Z in *. lia.
Qed.

Lemma MAX_Qmax (a b : Q) : MAX a b == Qmax a b.
Proof.
  unfold MAX. destruct (Qltb b a) eqn:E.
  - apply Qltb_lt in E. symmetry. apply Q.max_l. now apply Qlt_le_weak.
  - apply Qltb_ge in E. symmetry. now apply Q.max_r.
Qed.

Lemma length_Zrange (n : Z) : length (Zrange n) = Z.to_nat n.
Proof. unfold Zrange. now rewrite length_map, length_seq. Qed.

Lemma nth_Zrange (n : Z) (k : nat) (d : Z) :
  (k < Z.to_nat n)%nat -> nth k (Zrange n) d = Z.of_nat k.
Proof.
  intros H. unfold Zrange.
  rewrite (nth_indep _ d (Z.of_nat 0)) by (now rewrite length_map, length_seq).
  rewrite map_nth, seq_nth by assumption. reflexivity.
Qed.

Lemma nth_map_Zrange {A : Type} (f : Z -> A) (n k : Z) (d : A) :
  (0 <= k < n)%Z -> nth (Z.to_nat k) (map f (Zrange n)) d = f k.
Proof.
  intros H.
  rewrite (nth_indep _ d (f 0%Z)) by (rewrite length_map, length_Zrange; lia).
  rewrite map_nth, nth_Zrange by lia. f_equal. lia.
Qed.

Section BreaklineFacts.

Variable hypot : Q -> Q -> Q.
Variable C : SURFACE_INFO.
Variable fix_z : bool.
Variable z_level : Q.

Lemma breakline_interpolate_app (pre : list (Q * Q * Q)) (v : Q * Q * Q)
    (rest : list (Q * Q * Q)) :
  exists before,
    breakline_interpolate hypot C fix_z z_level (pre ++ v :: rest)
    = before ++ breakline_interpolate hypot C fix_z z_level (v :: rest).
Proof.
  induction pre as [|a pre IH]; [exists []; reflexivity|].
  destruct IH as (before & IH).
  exists (breakline_edge hypot C fix_z z_level a (hd v pre) ++ before).
  change ((a :: pre) ++ v :: rest) with (a :: (pre ++ v :: rest)).
  cbn [breakline_interpolate].
  destruct pre as [|b pre]; cbn [app hd] in *.
  - rewrite <- app_assoc. f_equal. exact IH.
  - rewrite <- app_assoc. f_equal. exact IH.
Qed.

Lemma breakline_interpolate_head (v : Q * Q * Q) (rest : list (Q * Q * Q)) :
  (forall w, (1 <= breakline_n_int hypot C v w)%Z) ->
  exists pt after,
    breakline_interpolate hypot C fix_z z_level (v :: rest) = pt :: after /\
    fst (fst pt) == fst (fst v) /\ snd (fst pt) == snd (fst v).
Proof.
  intros Hn. cbn [breakline_interpolate]. destruct rest as [|w rest].
  - exists (fst (fst v), snd (fst v), if fix_z then z_level else snd v), [].
    split; [reflexivity|]. cbn [fst snd]. split; reflexivity.
  - unfold breakline_edge. specialize (Hn w).
    unfold Zrange. destruct (Z.to_nat (breakline_n_int hypot C v w)) eqn:E; [lia|].
    cbn [seq map app]. eexists. eexists. split; [reflexivity|].
    cbn [fst snd Z.of_nat]. split; ring.
Qed.

End BreaklineFacts.

Lemma breakline_n_int_pos (hypot : Q -> Q -> Q) (C : SURFACE_INFO) (v w : Q * Q * Q) :
  (forall a b, 0 <= hypot a b) ->
  0 <= r_inc C GMT_X -> 0 <= r_inc C GMT_Y ->
  (1 <= breakline_n_int hypot C v w)%Z.
Proof.
  intros Hh Hx Hy. unfold breakline_n_int.
  assert (0 <= MAX (r_inc C GMT_X) (r_inc C GMT_Y))
    by (unfold MAX; destruct (Qltb _ _); assumption).
  pose proof (lrint_nonneg (hypot (fst (fst w) - fst (fst v)) (snd (fst w) - snd (fst v))
                            * MAX (r_inc C GMT_X) (r_inc C GMT_Y))) as H0.
  assert (0 <= hypot (fst (fst w) - fst (fst v)) (snd (fst w) - snd (fst v))
               * MAX (r_inc C GMT_X) (r_inc C GMT_Y))
    as H1 by (apply Qmult_le_0_compat; auto).
  specialize (H0 H1). lia.
Qed.

(** C8. Whatever [hypot] computes (it is never negative) and for positive
    grid increments, the densified line contains, for every pair of
    consecutive vertices v0, v1 at separation (dx, dy), a run of
    n_int + 1 consecutive samples on the edge from v0 to v1, the n-th being
    v0 + n (v1 - v0) / n_int, and n_int + 1 is at least
    ceil (hypot (dx, dy) * max (1 / x_inc, 1 / y_inc)) + 1. *)
Theorem breakline_edge_sample_count (hypot : Q -> Q -> Q) (C0 : SURFACE_INFO)
    (fix_z : bool) (z_level : Q) (pre post : list (Q * Q * Q)) (v0 v1 : Q * Q * Q) :
  (forall a b, 0 <= hypot a b) ->
  let C := surface_set_grid_parameters C0 in
  0 < inc C GMT_X -> 0 < inc C GMT_Y ->
  let dx := fst (fst v1) - fst (fst v0) in
  let dy := snd (fst v1) - snd (fst v0) in
  let n_int := breakline_n_int hypot C v0 v1 in
  exists before samples after,
    breakline_interpolate hypot C fix_z z_level (pre ++ v0 :: v1 :: post)
      = before ++ samples ++ after /\
    Z.of_nat (length samples) = (n_int + 1)%Z /\
    (forall n, (0 <= n <= n_int)%Z ->
       fst (fst (nth (Z.to_nat n) samples v0)) == fst (edge_sample v0 v1 n_int n) /\
       snd (fst (nth (Z.to_nat n) samples v0)) == snd (edge_sample v0 v1 n_int n)) /\
    (Qceiling (hypot dx dy * Qmax (1 / inc C GMT_X) (1 / inc C GMT_Y)) + 1
       <= Z.of_nat (length samples))%Z.
Proof.
  intros Hh C Hix Hiy dx dy n_int.
  assert (Hrx : r_inc C GMT_X = 1 / inc C GMT_X) by reflexivity.
  assert (Hry : r_inc C GMT_Y = 1 / inc C GMT_Y) by reflexivity.
  assert (Hrx0 : 0 <= r_inc C GMT_X).
  { rewrite Hrx. apply Qlt_le_weak. unfold Qdiv. rewrite Qmult_1_l.
    now apply Qinv_lt_0_compat. }
  assert (Hry0 : 0 <= r_inc C GMT_Y).
  { rewrite Hry. apply Qlt_le_weak. unfold Qdiv. rewrite Qmult_1_l.
    now apply Qinv_lt_0_compat. }
  assert (Hpos : forall v w, (1 <= breakline_n_int hypot C v w)%Z)
    by (intros; now apply breakline_n_int_pos).
  destruct (breakline_interpolate_app hypot C fix_z z_level pre v0 (v1 :: post))
    as (before & Hbefore).
  destruct (breakline_interpolate_head hypot C fix_z z_level v1 post (Hpos v1))
    as (pt & after & Hhead & Hptx & Hpty).
  assert (Hlen : length (breakline_edge hypot C fix_z z_level v0 v1) = Z.to_nat n_int)
    by (unfold breakline_edge; now rewrite length_map, length_Zrange).
  specialize (Hpos v0 v1). fold n_int in Hpos.
  exists before, (breakline_edge hypot C fix_z z_level v0 v1 ++ [pt]), after.
  split; [|split; [|split]].
  - rewrite Hbefore.
    change (breakline_interpolate hypot C fix_z z_level (v0 :: v1 :: post))
      with (breakline_edge hypot C fix_z z_level v0 v1
            ++ breakline_interpolate hypot C fix_z z_level (v1 :: post)).
    rewrite Hhead. rewrite <- !app_assoc. reflexivity.
  - rewrite length_app, Hlen. cbn [length]. lia.
  - intros n Hn. destruct (Z.eq_dec n n_int) as [->|Hne].
    + rewrite <- Hlen, nth_middle. unfold edge_sample. cbn [fst snd].
      rewrite Hptx, Hpty.
      assert (~ inject_Z n_int == 0).
      { intros E. apply (Qeq_bool_neq (inject_Z n_int) 0); [|exact E].
        unfold Qeq_bool, inject_Z. cbn. apply Z.eqb_neq. lia. }
      split; field; assumption.
    + rewrite app_nth1 by (rewrite Hlen; lia).
      unfold breakline_edge. fold n_int.
      rewrite nth_map_Zrange by lia.
      unfold edge_sample. cbn [fst snd]. split; reflexivity.
  - rewrite length_app, Hlen. cbn [length].
    assert (E : hypot dx dy * Qmax (1 / inc C GMT_X) (1 / inc C GMT_Y)
                == hypot dx dy * MAX (r_inc C GMT_X) (r_inc C GMT_Y))
      by (rewrite MAX_Qmax, Hrx, Hry; reflexivity).
    rewrite (Qceiling_comp _ _ E).
    pose proof (Qceiling_le_lrint_succ
                  (hypot dx dy * MAX (r_inc C GMT_X) (r_inc C GMT_Y))) as Hc.
    unfold n_int, breakline_n_int in *. fold dx dy in Hpos |- *. lia.
Qed.

Lemma sqrt_down_nonneg (q : Q) : 0 <= sqrt_down q.
Proof.
  unfold sqrt_down, Qle. cbn [Qnum Qden].
  rewrite Z.mul_0_l, Z.mul_1_r. apply Z.sqrt_nonneg.
Qed.

Lemma breakline_edge_sample_count_witness :
  exists before samples after,
    breakline_interpolate hypot_down (surface_set_grid_parameters (base_info 5 5 1 false [] (fun _ => 0)))
      false 0 example_line = before ++ samples ++ after /\
    (Qceiling (hypot_down ((12 # 10) - 0) (0 - 0) * Qmax (1 / 1) (1 / 1)) + 1
       <= Z.of_nat (length samples))%Z.
Proof.
  destruct (breakline_edge_sample_count hypot_down (base_info 5 5 1 false [] (fun _ => 0))
              false 0 [] [(12 # 10, 3, 2)] (0, 0, 1) (12 # 10, 0, 2))
    as (before & samples & after & H1 & _ & _ & H4).
  - intros a b. apply sqrt_down_nonneg.
  - reflexivity.
  - reflexivity.
  - exists before, samples, after. split; [exact H1 | exact H4].
Defined.

(** ** One datum per bin *)

Lemma compare_points_index (info : SURFACE_SEARCH) (a b : SURFACE_DATA) :
  (surface_compare_points info a b <= 0)%Z -> (index a <= index b)%Z.
Proof.
  unfold surface_compare_points.
  destruct (index a <? index b)%Z eqn:E1; [apply Z.ltb_lt in E1; lia|].
  destruct (index b <? index a)%Z eqn:E2; [lia|].
  apply Z.ltb_ge in E1, E2. lia.
Qed.


Lemma Qsquare_nonneg (x : Q) : 0 <= x * x.
Proof. destruct (Qlt_le_dec x 0); nra. Qed.

(** Within one bin the comparison function orders breakline points before
    ordinary ones and, within a kind, by the distance to the node. *)
Lemma compare_points_same_bin (info : SURFACE_SEARCH) (a b : SURFACE_DATA) :
  index a = index b -> index a <> SURFACE_OUTSIDE ->
  (kind a = 0 \/ kind a = SURFACE_BREAKLINE)%Z ->
  (kind b = 0 \/ kind b = SURFACE_BREAKLINE)%Z ->
  (surface_compare_points info a b <= 0)%Z ->
  (kind a = SURFACE_BREAKLINE /\ kind b = 0%Z) \/
  (kind a = kind b /\ bin_distance2 info a <= bin_distance2 info b).
Proof.
  intros Hi Ho Ka Kb. unfold surface_compare_points, bin_distance2.
  rewrite <- Hi, Z.ltb_irrefl.
  apply Z.eqb_neq in Ho. rewrite Ho.
  destruct ((kind a =? SURFACE_BREAKLINE)%Z && (kind b =? 0)%Z) eqn:E1.
  { apply andb_true_iff in E1. destruct E1 as [E1 E2].
    apply Z.eqb_eq in E1, E2. intros _. left. auto. }
  destruct ((kind b =? SURFACE_BREAKLINE)%Z && (kind a =? 0)%Z) eqn:E2; [lia|].
  assert (Hk : kind a = kind b).
  { apply andb_false_iff in E1, E2. unfold SURFACE_BREAKLINE in *.
    destruct Ka as [Ka|Ka], Kb as [Kb|Kb]; rewrite Ka, Kb in *; cbn in *;
      try reflexivity; destruct E1, E2; discriminate. }
  intros Hc. right. split; [exact Hk|].
  set (x0 := col_to_x _ _ _ _ _) in *. set (y0 := row_to_y _ _ _ _ _) in *.
  pose proof (Qsquare_nonneg (d_y b - y0)).
  revert Hc.
  repeat match goal with |- context [Qltb ?x ?y] => destruct (Qltb x y) eqn:? end;
    intros Hc; try lia;
    repeat match goal with
           | H : Qltb _ _ = true |- _ => apply Qltb_lt in H
           | H : Qltb _ _ = false |- _ => apply Qltb_ge in H
           end; lra.
Qed.


Section MarkUnusables.

Variable info : SURFACE_SEARCH.




End MarkUnusables.

Lemma filter_Permutation {A : Type} (f : A -> bool) (l l' : list A) :
  Permutation l l' -> Permutation (filter f l) (filter f l').
Proof.
  induction 1 as [|x l l' _ IH|x y l|l l' l'' _ IH1 _ IH2]; cbn [filter].
  - constructor.
  - destruct (f x); [now constructor|assumption].
  - destruct (f x), (f y); try apply Permutation_refl. apply perm_swap.
  - eapply Permutation_trans; eassumption.
Qed.


Lemma filter_none {A : Type} (f : A -> bool) (l : list A) :
  (forall x, In x l -> f x = false) -> filter f l = [].
Proof.
  induction l as [|x l IH]; intros H; [reflexivity|].
  cbn [filter]. rewrite (H x) by now left. apply IH. intros; apply H; now right.
Qed.

(** In an array sorted by the comparison function the data marked
    [SURFACE_OUTSIDE] come last: chopping them off leaves the usable ones. *)
Lemma sorted_usable_first (info : SURFACE_SEARCH) (l : list SURFACE_DATA) :
  StronglySorted (fun a b => (surface_compare_points info a b <= 0)%Z) l ->
  (forall m, In m l -> (index m <= SURFACE_OUTSIDE)%Z) ->
  firstn (length (filter usable l)) l = filter usable l.
Proof.
  induction 1 as [|x l Hs IH Hx]; intros Hv; [reflexivity|].
  cbn [filter]. destruct (usable x) eqn:Hu.
  - cbn [length firstn]. f_equal. apply IH. intros m Hm. apply Hv. now right.
  - assert (Hnone : filter usable l = []).
    { apply filter_none. intros m Hm.
      unfold usable in Hu |- *. apply negb_false_iff, Z.eqb_eq in Hu.
      apply negb_false_iff, Z.eqb_eq.
      rewrite Forall_forall in Hx. specialize (Hx m Hm).
      apply compare_points_index in Hx. specialize (Hv m (or_intror Hm)). lia. }
    rewrite Hnone. reflexivity.
Qed.

Section ThrowAway.

Variable qsort_r :
  (SURFACE_DATA -> SURFACE_DATA -> Z) -> list SURFACE_DATA -> list SURFACE_DATA.
Variable C : SURFACE_INFO.

Let cmp := surface_compare_points (info C).
Let sorted := qsort_r cmp (data C).
Let marked := fst (mark_unusables UINTMAX_MAX sorted).

Hypothesis Hvalid : forall d, In d (data C) -> (0 <= index d < SURFACE_OUTSIDE)%Z.
Hypothesis Hsort1 : sorts qsort_r cmp (data C).
Hypothesis Hsort2 : sorts qsort_r cmp marked.


End ThrowAway.


Lemma insertion_sort_Permutation (cmp : SURFACE_DATA -> SURFACE_DATA -> Z)
    (l : list SURFACE_DATA) :
  Permutation l (insertion_sort cmp l).
Proof.
  induction l as [|x l IH]; [constructor|].
  cbn [insertion_sort fold_right]. fold (insertion_sort cmp l).
  apply Permutation_trans with (x :: insertion_sort cmp l); [now constructor|].
  generalize (insertion_sort cmp l). clear. intros l.
  induction l as [|y l IH]; cbn [insert_sorted]; [apply Permutation_refl|].
  destruct (cmp x y <=? 0)%Z; [apply Permutation_refl|].
  eapply Permutation_trans; [apply perm_swap|]. now constructor.
Qed.


(** ** Alignment of the Briggs table *)

Lemma nearest_step_skip (C : SURFACE_INFO) (st : nearest_state) (d : SURFACE_DATA) :
  index d = ns_last_index st -> nearest_step C st d = st.
Proof. intros H. unfold nearest_step. apply Z.eqb_eq in H. now rewrite H. Qed.

Lemma nearest_step_close (C : SURFACE_INFO) (st : nearest_state) (d : SURFACE_DATA) :
  index d <> ns_last_index st -> datum_is_close C d = true ->
  exists z,
    nearest_step C st d =
    mkNearest (upd (ns_status st) (datum_node C d) SURFACE_IS_CONSTRAINED)
              (upd (ns_u st) (datum_node C d) z)
              (ns_Briggs st) (index d) (ns_briggs_index st) /\
    status_of_datum C d = SURFACE_IS_CONSTRAINED.
Proof.
  intros H Hc. unfold nearest_step, status_of_datum. unfold datum_is_close in Hc.
  apply Z.eqb_neq in H. rewrite H.
  destruct (datum_offsets C d) as [dx dy]. rewrite Hc.
  eexists. split; reflexivity.
Qed.

Lemma nearest_step_quadrant (C : SURFACE_INFO) (st : nearest_state) (d : SURFACE_DATA) :
  index d <> ns_last_index st -> datum_is_close C d = false ->
  nearest_step C st d =
  mkNearest (upd (ns_status st) (datum_node C d) (status_of_datum C d))
            (ns_u st)
            (upd (ns_Briggs st) (ns_briggs_index st) (Briggs_of_datum C d))
            (index d) (ns_briggs_index st + 1)%Z /\
  (1 <= status_of_datum C d <= 4)%Z.
Proof.
  intros H Hc. unfold nearest_step, status_of_datum, Briggs_of_datum.
  unfold datum_is_close in Hc.
  apply Z.eqb_neq in H. rewrite H.
  destruct (datum_offsets C d) as [dx dy]. rewrite Hc.
  pose proof (reflect_to_quadrant_abs dx dy) as Hr.
  destruct (reflect_to_quadrant dx dy) as [q [xx yy]]. cbn [fst].
  split; [reflexivity|]. tauto.
Qed.

(** The Briggs table after the loop over the data: one entry per datum of
    [briggs_data], in order, above the entries that were there. *)
Lemma nearest_loop_Briggs (C : SURFACE_INFO) (l : list SURFACE_DATA) (st : nearest_state) :
  let fin := fold_left (nearest_step C) l st in
  let BD := briggs_data C (ns_last_index st) l in
  ns_briggs_index fin = (ns_briggs_index st + Z.of_nat (length BD))%Z /\
  (forall k d0, (k < length BD)%nat ->
     ns_Briggs fin (ns_briggs_index st + Z.of_nat k)%Z = Briggs_of_datum C (nth k BD d0)) /\
  (forall j, (j < ns_briggs_index st)%Z -> ns_Briggs fin j = ns_Briggs st j).
Proof.
  revert st. induction l as [|d l IH]; intros st.
  - cbn. repeat split; try lia. all: intros k d0 Hk; lia.
  - cbn [fold_left briggs_data].
    destruct (Z.eq_dec (index d) (ns_last_index st)) as [E|E].
    + rewrite (nearest_step_skip C st d E).
      apply Z.eqb_eq in E. rewrite E. apply IH.
    + pose proof E as E'. apply Z.eqb_neq in E'. rewrite E'.
      destruct (datum_is_close C d) eqn:Hc.
      * destruct (nearest_step_close C st d E Hc) as (z & -> & _).
        specialize (IH (mkNearest (upd (ns_status st) (datum_node C d) SURFACE_IS_CONSTRAINED)
                          (upd (ns_u st) (datum_node C d) z)
                          (ns_Briggs st) (index d) (ns_briggs_index st))).
        cbn [ns_last_index ns_briggs_index ns_Briggs] in IH. exact IH.
      * destruct (nearest_step_quadrant C st d E Hc) as (-> & _).
        specialize (IH (mkNearest (upd (ns_status st) (datum_node C d) (status_of_datum C d))
                          (ns_u st)
                          (upd (ns_Briggs st) (ns_briggs_index st) (Briggs_of_datum C d))
                          (index d) (ns_briggs_index st + 1)%Z)).
        cbn [ns_last_index ns_briggs_index ns_Briggs] in IH.
        destruct IH as (H1 & H2 & H3).
        cbn [length]. split; [lia|]. split.
        -- intros k d0 Hk. destruct k as [|k].
           ++ cbn [nth]. rewrite Z.add_0_r, H3 by lia. apply upd_same.
           ++ cbn [nth]. replace (ns_briggs_index st + Z.of_nat (S k))%Z
                with (ns_briggs_index st + 1 + Z.of_nat k)%Z by lia.
              apply H2. lia.
        -- intros j Hj. rewrite H3 by lia. apply upd_other. lia.
Qed.

Lemma index_node_neq (C : SURFACE_INFO) (i j : Z) :
  current_mx C = (current_nx C + 4)%Z -> (0 < current_nx C)%Z ->
  (0 <= i)%Z -> (0 <= j)%Z -> i <> j -> index_node C i <> index_node C j.
Proof.
  intros Hm Hnx Hi Hj Hne. unfold index_node, index_to_row, index_to_col.
  rewrite !Z.quot_div_nonneg, !Z.rem_mod_nonneg by lia.
  pose proof (Z.mod_pos_bound i (current_nx C) Hnx).
  pose proof (Z.mod_pos_bound j (current_nx C) Hnx).
  apply row_col_to_node_neq; try lia.
  destruct (Z.eq_dec (i / current_nx C) (j / current_nx C)) as [E|E]; [right|now left].
  intros E'. apply Hne.
  rewrite (Z.div_mod i (current_nx C)), (Z.div_mod j (current_nx C)) by lia.
  now rewrite E, E'.
Qed.

Lemma entered_ok_tail (last : Z) (d : SURFACE_DATA) (l : list SURFACE_DATA) :
  entered_ok last (d :: l) -> entered_ok last l.
Proof.
  intros [H|H]; [left|right]; intros e He; apply H; now right.
Qed.

Lemma entered_ok_next (d : SURFACE_DATA) (l : list SURFACE_DATA) :
  StronglySorted Z.le (map index (d :: l)) -> entered_ok (index d) l.
Proof.
  intros Hs. left. intros e He. cbn [map] in Hs.
  inversion Hs as [|? ? _ Hall]; subst. rewrite Forall_forall in Hall.
  apply Hall. now apply in_map.
Qed.

Lemma entered_ok_not_found (last : Z) (d : SURFACE_DATA) (l : list SURFACE_DATA) :
  StronglySorted Z.le (map index (d :: l)) -> entered_ok last (d :: l) ->
  index d <> last -> nearest_in_bin l last = None.
Proof.
  intros Hs Hok Hne. unfold nearest_in_bin.
  destruct (find _ l) as [e|] eqn:Hf; [|reflexivity].
  apply find_some in Hf. destruct Hf as [He Hi]. apply Z.eqb_eq in Hi.
  exfalso. destruct Hok as [H|H].
  - pose proof (entered_ok_next d l Hs) as [H'|H'].
    + specialize (H d (or_introl eq_refl)). specialize (H' e He). lia.
    + specialize (H d (or_introl eq_refl)). specialize (H' e He).
      cbn [map] in Hs. inversion Hs as [|? ? _ Hall]; subst.
      rewrite Forall_forall in Hall. specialize (Hall (index e) (in_map index _ _ He)). lia.
  - apply (H e); [now right|assumption].
Qed.

(** The status array after the loop over the sorted data: the node of a bin
    that holds data has the status its first datum gives it. *)
Lemma nearest_loop_status (C : SURFACE_INFO) (l : list SURFACE_DATA) (st : nearest_state) :
  current_mx C = (current_nx C + 4)%Z -> (0 < current_nx C)%Z ->
  StronglySorted Z.le (map index l) ->
  (forall d, In d l -> (0 <= index d)%Z) ->
  entered_ok (ns_last_index st) l ->
  forall i, (0 <= i)%Z ->
    let fin := fold_left (nearest_step C) l st in
    (i = ns_last_index st ->
       ns_status fin (index_node C i) = ns_status st (index_node C i)) /\
    (i <> ns_last_index st ->
       ns_status fin (index_node C i) =
       match nearest_in_bin l i with
       | Some d => status_of_datum C d
       | None => ns_status st (index_node C i)
       end).
Proof.
  intros Hm Hnx. revert st. induction l as [|d l IH]; intros st Hs Hpos Hok i Hi.
  - cbn. split; reflexivity.
  - cbn [fold_left].
    assert (Hs' : StronglySorted Z.le (map index l))
      by (cbn [map] in Hs; now inversion Hs).
    assert (Hpos' : forall e, In e l -> (0 <= index e)%Z)
      by (intros; apply Hpos; now right).
    destruct (Z.eq_dec (index d) (ns_last_index st)) as [E|E].
    + rewrite (nearest_step_skip C st d E).
      specialize (IH st Hs' Hpos' (entered_ok_tail _ _ _ Hok) i Hi).
      destruct IH as [IH1 IH2]. split; [exact IH1|].
      intros Hne. rewrite (IH2 Hne). unfold nearest_in_bin. cbn [find].
      replace (index d =? i)%Z with false by (symmetry; apply Z.eqb_neq; lia).
      reflexivity.
    + assert (Hstep : exists st',
                nearest_step C st d = st' /\ ns_last_index st' = index d /\
                ns_status st' = upd (ns_status st) (datum_node C d) (status_of_datum C d)).
      { destruct (datum_is_close C d) eqn:Hc.
        - destruct (nearest_step_close C st d E Hc) as (z & -> & ->).
          eexists. split; [reflexivity|]. split; reflexivity.
        - destruct (nearest_step_quadrant C st d E Hc) as (-> & _).
          eexists. split; [reflexivity|]. split; reflexivity. }
      destruct Hstep as (st' & -> & Hlast & Hstat).
      specialize (IH st' Hs' Hpos').
      rewrite Hlast in IH. specialize (IH (entered_ok_next d l Hs) i Hi).
      destruct IH as [IH1 IH2].
      change (datum_node C d) with (index_node C (index d)) in Hstat.
      assert (Hd0 : (0 <= index d)%Z) by (apply Hpos; now left).
      split.
      * intros ->. rewrite IH2 by congruence.
        rewrite (entered_ok_not_found _ d l Hs Hok E).
        rewrite Hstat. apply upd_other. apply index_node_neq; auto.
      * intros Hne. unfold nearest_in_bin. cbn [find].
        destruct (Z.eq_dec (index d) i) as [<-|Hdi].
        -- rewrite Z.eqb_refl. rewrite IH1 by reflexivity.
           rewrite Hstat. apply upd_same.
        -- replace (index d =? i)%Z with false by (symmetry; now apply Z.eqb_neq).
           rewrite IH2 by congruence. fold (nearest_in_bin l i).
           destruct (nearest_in_bin l i); [reflexivity|].
           rewrite Hstat. apply upd_other. apply index_node_neq; auto.
Qed.

(** The data with a Briggs entry are, in the order of strictly ascending
    index, the first data of their bins that are not "really close". *)
Lemma briggs_data_spec (C : SURFACE_INFO) (l : list SURFACE_DATA) (last : Z) :
  StronglySorted Z.le (map index l) -> entered_ok last l ->
  StronglySorted Z.lt (map index (briggs_data C last l)) /\
  (forall d, In d (briggs_data C last l) ->
     index d <> last /\ nearest_in_bin l (index d) = Some d /\ datum_is_close C d = false) /\
  (forall i d, i <> last -> nearest_in_bin l i = Some d -> datum_is_close C d = false ->
     In d (briggs_data C last l)).
Proof.
  revert last. induction l as [|x l IH]; intros last Hs Hok.
  - cbn. split; [constructor|]. split; [contradiction|discriminate].
  - assert (Hs' : StronglySorted Z.le (map index l))
      by (cbn [map] in Hs; now inversion Hs).
    cbn [briggs_data]. unfold nearest_in_bin. cbn [find].
    destruct (Z.eq_dec (index x) last) as [E|E].
    + pose proof E as E'. apply Z.eqb_eq in E'. rewrite E'.
      destruct (IH last Hs' (entered_ok_tail _ _ _ Hok)) as (H1 & H2 & H3).
      split; [exact H1|]. split.
      * intros d Hd. destruct (H2 d Hd) as (Ha & Hb & Hc).
        split; [exact Ha|]. split; [|exact Hc].
        replace (index x =? index d)%Z with false by (symmetry; apply Z.eqb_neq; lia).
        exact Hb.
      * intros i d Hi. replace (index x =? i)%Z with false
          by (symmetry; apply Z.eqb_neq; lia).
        now apply H3.
    + pose proof E as E'. apply Z.eqb_neq in E'. rewrite E'.
      destruct (IH (index x) Hs' (entered_ok_next x l Hs)) as (H1 & H2 & H3).
      assert (Hgt : forall d, In d (briggs_data C (index x) l) ->
                (index x < index d)%Z /\ index d <> last).
      { intros d Hd. destruct (H2 d Hd) as (Ha & Hb & _).
        apply find_some in Hb. destruct Hb as [Hin _].
        destruct (entered_ok_next x l Hs) as [Hle|Hne]; [specialize (Hle d Hin)|].
        - split; [lia|]. intros Hl. destruct Hok as [Hok|Hok].
          + specialize (Hok x (or_introl eq_refl)). lia.
          + apply (Hok d); [now right|assumption].
        - cbn [map] in Hs. inversion Hs as [|? ? _ Hall]; subst.
          rewrite Forall_forall in Hall.
          specialize (Hall (index d) (in_map index _ _ Hin)).
          split; [lia|]. intros Hl. destruct Hok as [Hok|Hok].
          + specialize (Hok x (or_introl eq_refl)). lia.
          + apply (Hok d); [now right|assumption]. }
      assert (Htail : forall d, In d (briggs_data C (index x) l) ->
                index d <> last /\
                (if (index x =? index d)%Z then Some x else find (fun d0 => (index d0 =? index d)%Z) l)
                = Some d /\ datum_is_close C d = false).
      { intros d Hd. destruct (H2 d Hd) as (_ & Hb & Hc).
        destruct (Hgt d Hd) as [Hlt Hne].
        split; [exact Hne|]. split; [|exact Hc].
        replace (index x =? index d)%Z with false by (symmetry; apply Z.eqb_neq; lia).
        exact Hb. }
      destruct (datum_is_close C x) eqn:Hc.
      * split; [exact H1|]. split; [exact Htail|].
        intros i d Hi. destruct (Z.eq_dec (index x) i) as [<-|Hxi].
        -- rewrite Z.eqb_refl. intros [= <-] Hc'. congruence.
        -- replace (index x =? i)%Z with false by (symmetry; now apply Z.eqb_neq).
           apply H3. congruence.
      * split; [|split].
        -- cbn [map]. constructor; [exact H1|].
           apply Forall_forall. intros j Hj. apply in_map_iff in Hj.
           destruct Hj as (d & <- & Hd). apply Hgt, Hd.
        -- intros d [<-|Hd]; [|now apply Htail].
           split; [exact E|]. rewrite Z.eqb_refl. split; [reflexivity|exact Hc].
        -- intros i d Hi. destruct (Z.eq_dec (index x) i) as [<-|Hxi].
           ++ rewrite Z.eqb_refl. intros [= <-] _. now left.
           ++ replace (index x =? i)%Z with false by (symmetry; now apply Z.eqb_neq).
              intros Hf Hc'. right. apply (H3 i d); [congruence|exact Hf|exact Hc'].
Qed.

(** During a sweep the index into the Briggs table is the number of nodes
    visited so far at which an entry was read. *)
Lemma sweep_briggs_index (C : SURFACE_INFO) (pre : list (Z * Z)) (st : sweep_state) :
  sw_briggs_index (fold_left (iterate_node C) pre st)
  = (sw_briggs_index st + Z.of_nat (length (filter (reads_Briggs C) pre)))%Z.
Proof.
  revert st. induction pre as [|[row col] pre IH]; intros st; [cbn; lia|].
  cbn [fold_left filter]. rewrite IH. clear IH.
  unfold iterate_node, reads_Briggs. cbn [fst snd].
  destruct (status C (node_nw_corner C + row * current_mx C + col) =? SURFACE_IS_CONSTRAINED)%Z;
    cbn [negb andb]; [lia|].
  destruct (status C (node_nw_corner C + row * current_mx C + col) =? SURFACE_IS_UNCONSTRAINED)%Z;
    cbn [negb andb sw_briggs_index length Z.eqb SURFACE_UNCONSTRAINED SURFACE_CONSTRAINED Pos.eqb];
    lia.
Qed.

Lemma StronglySorted_lt_unique (l1 l2 : list Z) :
  StronglySorted Z.lt l1 -> StronglySorted Z.lt l2 ->
  (forall x, In x l1 <-> In x l2) -> l1 = l2.
Proof.
  intros H1. revert l2. induction H1 as [|a l1 Hs1 IH Ha]; intros l2 H2 Heq.
  - destruct l2 as [|b l2]; [reflexivity|]. destruct (proj2 (Heq b)); now left.
  - destruct H2 as [|b l2 Hs2 Hb].
    + destruct (proj1 (Heq a)); now left.
    + rewrite Forall_forall in Ha, Hb.
      assert (a = b).
      { destruct (proj1 (Heq a) (or_introl eq_refl)) as [E|Hin]; [auto|].
        destruct (proj2 (Heq b) (or_introl eq_refl)) as [E|Hin']; [auto|].
        specialize (Ha b Hin'). specialize (Hb a Hin). lia. }
      subst b. f_equal. apply IH; [assumption|].
      intros x. split; intros Hx.
      * destruct (proj1 (Heq x) (or_intror Hx)) as [<-|]; [|assumption].
        specialize (Ha a Hx). lia.
      * destruct (proj2 (Heq x) (or_intror Hx)) as [<-|]; [|assumption].
        specialize (Hb a Hx). lia.
Qed.

Lemma StronglySorted_app {A : Type} (R : A -> A -> Prop) (l1 l2 : list A) :
  StronglySorted R l1 -> StronglySorted R l2 ->
  (forall a b, In a l1 -> In b l2 -> R a b) ->
  StronglySorted R (l1 ++ l2).
Proof.
  induction 1 as [|x l1 Hs IH Hx]; intros H2 Hc; [exact H2|].
  cbn [app]. constructor.
  - apply IH; [assumption|]. intros a b Ha Hb. apply Hc; [now right|assumption].
  - apply Forall_app. split; [assumption|].
    apply Forall_forall. intros b Hb. apply Hc; [now left|assumption].
Qed.

Lemma StronglySorted_map_filter {A : Type} (R : Z -> Z -> Prop) (f : A -> Z)
    (p : A -> bool) (l : list A) :
  StronglySorted R (map f l) -> StronglySorted R (map f (filter p l)).
Proof.
  induction l as [|x l IH]; intros Hs; [constructor|].
  cbn [map] in Hs. inversion Hs as [|? ? Hs' Hx]; subst.
  cbn [filter]. destruct (p x); [|now apply IH].
  cbn [map]. constructor; [now apply IH|].
  rewrite Forall_forall in Hx |- *. intros y Hy. apply Hx.
  apply in_map_iff in Hy. destruct Hy as (z & <- & Hz).
  apply filter_In in Hz. apply in_map. tauto.
Qed.

Lemma StronglySorted_Zrange (n : Z) : StronglySorted Z.lt (Zrange n).
Proof.
  unfold Zrange. generalize 0%nat. induction (Z.to_nat n) as [|k IH]; intros s.
  - constructor.
  - cbn [seq map]. constructor; [apply IH|].
    apply Forall_forall. intros y Hy. apply in_map_iff in Hy.
    destruct Hy as (z & <- & Hz). apply in_seq in Hz. lia.
Qed.

Lemma StronglySorted_map_mono (f : Z -> Z) (l : list Z) :
  (forall a b, (a < b)%Z -> (f a < f b)%Z) ->
  StronglySorted Z.lt l -> StronglySorted Z.lt (map f l).
Proof.
  intros Hf. induction 1 as [|x l Hs IH Hx]; [constructor|].
  cbn [map]. constructor; [assumption|].
  rewrite Forall_forall in Hx |- *. intros y Hy. apply in_map_iff in Hy.
  destruct Hy as (z & <- & Hz). apply Hf, Hx, Hz.
Qed.

(** The loops over rows and columns visit the bins in the order of their
    indices. *)
Lemma grid_nodes_index_sorted (ny nx : Z) :
  StronglySorted Z.lt
    (map (fun rc => row_col_to_index (fst rc) (snd rc) nx) (grid_nodes ny nx)).
Proof.
  unfold grid_nodes.
  assert (Hrows : forall r, In r (Zrange ny) -> (0 <= r)%Z)
    by (intros r Hr; apply In_Zrange in Hr; lia).
  pose proof (StronglySorted_Zrange ny) as Hs.
  induction (Zrange ny) as [|row rows IH]; [constructor|].
  inversion Hs as [|? ? Hs' Hrow]; subst. rewrite Forall_forall in Hrow.
  cbn [flat_map]. rewrite map_app. apply StronglySorted_app.
  - rewrite map_map. cbn [fst snd]. unfold row_col_to_index.
    apply StronglySorted_map_mono; [intros; lia | apply StronglySorted_Zrange].
  - apply IH; [|assumption]. intros r Hr. apply Hrows. now right.
  - intros a b Ha Hb. apply in_map_iff in Ha, Hb.
    destruct Ha as ([r1 c1] & <- & Ha). destruct Hb as ([r2 c2] & <- & Hb).
    apply in_map_iff in Ha. destruct Ha as (c & E & Hc). inversion E; subst.
    apply in_flat_map in Hb. destruct Hb as (r & Hr & Hb).
    apply in_map_iff in Hb. destruct Hb as (c' & E' & Hc'). inversion E'; subst.
    apply In_Zrange in Hc, Hc'. specialize (Hrow r2 Hr).
    cbn [fst snd]. unfold row_col_to_index. nia.
Qed.

Lemma grid_node_is_index_node (C : SURFACE_INFO) (row col : Z) :
  geometry_ok C -> (0 <= row)%Z -> (0 <= col < current_nx C)%Z ->
  (node_nw_corner C + row * current_mx C + col)%Z
  = index_node C (row_col_to_index row col (current_nx C)).
Proof.
  intros (_ & Hnw & _) Hrow Hcol.
  unfold index_node, index_to_row, index_to_col, row_col_to_index.
  assert (0 <= row * current_nx C)%Z by nia.
  rewrite Z.quot_div_nonneg, Z.rem_mod_nonneg by lia.
  rewrite <- (Z.div_unique_pos (row * current_nx C + col) (current_nx C) row col) by lia.
  rewrite <- (Z.mod_unique_pos (row * current_nx C + col) (current_nx C) row col) by lia.
  rewrite Hnw. unfold row_col_to_node. lia.
Qed.

Section Alignment.

Variable C : SURFACE_INFO.
Hypothesis Hgeo : geometry_ok C.
Hypothesis Hnx : (0 < current_nx C)%Z.
Hypothesis Hsize : (current_nx C * current_ny C <= UINTMAX_MAX)%Z.
Hypothesis Hsorted : StronglySorted Z.le (map index (data C)).
Hypothesis Hvalid :
  forall d, In d (data C) -> (0 <= index d < current_nx C * current_ny C)%Z.
Hypothesis Hreset :
  forall row col, (0 <= row < current_ny C)%Z -> (0 <= col < current_nx C)%Z ->
    let s := reset_status C (status C) (row_col_to_node row col (current_mx C)) in
    s = SURFACE_IS_UNCONSTRAINED \/ s = SURFACE_IS_CONSTRAINED.

Let C1 := surface_find_nearest_constraint C.
Let idx := fun rc : Z * Z => row_col_to_index (fst rc) (snd rc) (current_nx C).

Lemma entered_ok_top : entered_ok UINTMAX_MAX (data C).
Proof. right. intros d Hd. specialize (Hvalid d Hd). lia. Qed.

Lemma grid_index_range (row col : Z) :
  (0 <= row < current_ny C)%Z -> (0 <= col < current_nx C)%Z ->
  (0 <= idx (row, col) < current_nx C * current_ny C)%Z.
Proof. intros Hr Hc. unfold idx, row_col_to_index. cbn [fst snd]. nia. Qed.

(** After [surface_find_nearest_constraint] a node of the grid reads a
    Briggs entry exactly when the first datum of its bin is not "really
    close", and then carries the status of that datum. *)
Lemma find_nearest_reads_Briggs (row col : Z) :
  (0 <= row < current_ny C)%Z -> (0 <= col < current_nx C)%Z ->
  (reads_Briggs C1 (row, col) = true ->
     exists d, nearest_in_bin (data C) (idx (row, col)) = Some d /\
               datum_is_close C d = false /\
               status C1 (node_nw_corner C + row * current_mx C + col) = status_of_datum C d) /\
  (forall d, nearest_in_bin (data C) (idx (row, col)) = Some d ->
     datum_is_close C d = false -> reads_Briggs C1 (row, col) = true).
Proof.
  intros Hr Hc.
  pose proof (grid_index_range row col Hr Hc) as Hi.
  assert (Hst : status C1 (node_nw_corner C + row * current_mx C + col) =
                match nearest_in_bin (data C) (idx (row, col)) with
                | Some d => status_of_datum C d
                | None => reset_status C (status C) (row_col_to_node row col (current_mx C))
                end).
  { rewrite (grid_node_is_index_node C row col Hgeo) by lia.
    unfold C1, surface_find_nearest_constraint, find_nearest_loop.
    cbn [status set_status set_u set_Briggs].
    destruct (nearest_loop_status C (data C)
                (mkNearest (reset_status C (status C)) (u C) (Briggs C) UINTMAX_MAX 0%Z)
                (proj1 Hgeo) Hnx Hsorted (fun d Hd => proj1 (Hvalid d Hd))
                entered_ok_top (idx (row, col)) (proj1 Hi)) as [_ H].
    cbn [ns_last_index ns_status] in H.
    change (row_col_to_index row col (current_nx C)) with (idx (row, col)).
    rewrite H by lia.
    destruct (nearest_in_bin (data C) (idx (row, col))); [reflexivity|].
    f_equal. change (idx (row, col)) with (row_col_to_index row col (current_nx C)).
    rewrite <- (grid_node_is_index_node C row col Hgeo) by lia.
    destruct Hgeo as (_ & Hnw & _). rewrite Hnw. unfold row_col_to_node. lia. }
  assert (Hrb : reads_Briggs C1 (row, col) =
                negb (status C1 (node_nw_corner C + row * current_mx C + col) =? SURFACE_IS_CONSTRAINED)%Z
                && negb (status C1 (node_nw_corner C + row * current_mx C + col) =? SURFACE_IS_UNCONSTRAINED)%Z)
    by reflexivity.
  rewrite Hrb, Hst.
  destruct (nearest_in_bin (data C) (idx (row, col))) as [d|].
  - unfold status_of_datum. unfold datum_is_close at 1.
    destruct (datum_offsets C d) as [dx dy] eqn:Ho.
    destruct (really_close dx dy) eqn:Hcl.
    + rewrite Z.eqb_refl. cbn [negb andb].
      split; [discriminate|]. intros d' [= <-] H.
      unfold datum_is_close in H. rewrite Ho in H. congruence.
    + split.
      { intros _. exists d. unfold datum_is_close, status_of_datum.
        rewrite Ho, Hcl. auto. }
      intros d' _ _.
      pose proof (reflect_to_quadrant_abs dx dy) as Hq.
      destruct (reflect_to_quadrant dx dy) as [q [xx yy]]. cbn [fst].
      destruct Hq as (_ & _ & _ & Hq).
      unfold SURFACE_IS_CONSTRAINED, SURFACE_IS_UNCONSTRAINED.
      apply andb_true_iff. split; apply negb_true_iff, Z.eqb_neq; lia.
  - split; [|discriminate].
    pose proof (Hreset row col Hr Hc) as Hrs. cbn zeta in Hrs.
    destruct Hrs as [-> | ->]; cbn; discriminate.
Qed.

(** The nodes that read a Briggs entry, in the order of the sweep, are the
    nodes of the data with a Briggs entry, in the order of the table. *)
Lemma reading_nodes_are_briggs_data :
  map idx (filter (reads_Briggs C1) (grid_nodes (current_ny C) (current_nx C)))
  = map index (briggs_data C UINTMAX_MAX (data C)).
Proof.
  destruct (briggs_data_spec C (data C) UINTMAX_MAX Hsorted entered_ok_top)
    as (Hs & Hin & Hfound).
  apply StronglySorted_lt_unique.
  - apply StronglySorted_map_filter, grid_nodes_index_sorted.
  - exact Hs.
  - intros i. rewrite !in_map_iff. split.
    + intros ([row col] & <- & Hrc). apply filter_In in Hrc. destruct Hrc as [Hg Hrd].
      apply In_grid_nodes in Hg. destruct Hg as [Hr Hc].
      destruct (proj1 (find_nearest_reads_Briggs row col Hr Hc) Hrd) as (d & Hf & Hcl & _).
      exists d. split.
      * apply find_some in Hf. destruct Hf as [_ Hf]. now apply Z.eqb_eq in Hf.
      * apply (Hfound (idx (row, col)) d); auto.
        pose proof (grid_index_range row col Hr Hc). lia.
    + intros (d & <- & Hd). destruct (Hin d Hd) as (_ & Hf & Hcl).
      pose proof Hf as Hf'. apply find_some in Hf'. destruct Hf' as [Hdl _].
      pose proof (Hvalid d Hdl) as Hvd.
      exists (index d / current_nx C, index d mod current_nx C)%Z.
      pose proof (Z.mod_pos_bound (index d) (current_nx C) Hnx) as Hm.
      assert (Hidx : idx (index d / current_nx C, index d mod current_nx C)%Z = index d).
      { unfold idx, row_col_to_index. cbn [fst snd].
        rewrite (Z.div_mod (index d) (current_nx C)) at 3 by lia. lia. }
      assert (Hrow : (0 <= index d / current_nx C < current_ny C)%Z).
      { split; [apply Z.div_pos; lia|]. apply Z.div_lt_upper_bound; lia. }
      split; [exact Hidx|]. apply filter_In. split.
      * apply In_grid_nodes. split; [exact Hrow|exact Hm].
      * apply (proj2 (find_nearest_reads_Briggs _ _ Hrow Hm) d); [|exact Hcl].
        rewrite Hidx. exact Hf.
Qed.

End Alignment.

Lemma status_of_far_datum (C : SURFACE_INFO) (d : SURFACE_DATA) :
  datum_is_close C d = false -> (1 <= status_of_datum C d <= 4)%Z.
Proof.
  intros Hcl.
  refine (proj2 (nearest_step_quadrant C
                   (mkNearest (status C) (u C) (Briggs C) (index d + 1)%Z 0%Z) d _ Hcl)).
  cbn. lia.
Qed.

Lemma filter_split {A : Type} (f : A -> bool) (pre post : list A) (x : A) :
  f x = true ->
  filter f (pre ++ x :: post) = filter f pre ++ x :: filter f post.
Proof. intros H. rewrite filter_app. cbn [filter]. now rewrite H. Qed.

(** C9.  Alignment of the Briggs table.  Let the data array be sorted by
    ascending bin index, with every index that of a node of the current
    grid, and let the status array hold only "unconstrained" or
    "constrained" after the reset.  After [surface_find_nearest_constraint],
    in any sweep of [surface_iterate] (whatever the solution array and the
    iteration counter are by then) that has processed the nodes [pre] in
    row-major order and arrives at a node (row, col) whose status is neither
    "unconstrained" nor "constrained", the status is a quadrant code 1-4,
    the running [briggs_index] equals the number of such nodes among [pre],
    the entry Briggs[briggs_index] is the one computed from the nearest
    datum of the bin of (row, col), the first datum of the array with that
    bin index, and the step of the sweep at (row, col) reads that entry: the
    value it writes at the node is the one computed from the coefficients
    and the quadrant of that datum, and it moves [briggs_index] on by one. *)
Theorem Briggs_table_aligned (C : SURFACE_INFO) (u' : Z -> Q) (n : Z)
    (pre post : list (Z * Z)) (row col : Z) :
  geometry_ok C -> (0 < current_nx C)%Z ->
  (current_nx C * current_ny C <= UINTMAX_MAX)%Z ->
  StronglySorted Z.le (map index (data C)) ->
  (forall d, In d (data C) -> (0 <= index d < current_nx C * current_ny C)%Z) ->
  (forall r c, (0 <= r < current_ny C)%Z -> (0 <= c < current_nx C)%Z ->
     let s := reset_status C (status C) (row_col_to_node r c (current_mx C)) in
     s = SURFACE_IS_UNCONSTRAINED \/ s = SURFACE_IS_CONSTRAINED) ->
  let C' := set_total_iterations (set_u (surface_find_nearest_constraint C) u') n in
  let node := (node_nw_corner C' + row * current_mx C' + col)%Z in
  grid_nodes (current_ny C') (current_nx C') = pre ++ (row, col) :: post ->
  reads_Briggs C' (row, col) = true ->
  let st := fold_left (iterate_node C') pre (mkSweep (surface_set_BCs C' u') 0%Z (-1 # 1)) in
  exists d,
    nearest_in_bin (data C) (row_col_to_index row col (current_nx C)) = Some d /\
    status C' node = status_of_datum C d /\
    (1 <= status C' node <= 4)%Z /\
    sw_briggs_index st = Z.of_nat (length (filter (reads_Briggs C') pre)) /\
    Briggs C' (sw_briggs_index st) = Briggs_of_datum C d /\
    sw_u (iterate_node C' st (row, col)) node
    = Briggs_update C' (sw_u st) row col (status_of_datum C d) (Briggs_of_datum C d) /\
    sw_briggs_index (iterate_node C' st (row, col)) = (sw_briggs_index st + 1)%Z.
Proof.
  intros Hgeo Hnx Hsize Hsorted Hvalid Hreset C' node Hsplit Hread st.
  set (C1 := surface_find_nearest_constraint C).
  assert (HR : forall rc, reads_Briggs C' rc = reads_Briggs C1 rc) by reflexivity.
  change (grid_nodes (current_ny C) (current_nx C) = pre ++ (row, col) :: post) in Hsplit.
  assert (Hin : In (row, col) (grid_nodes (current_ny C) (current_nx C))).
  { rewrite Hsplit. apply in_or_app. right. now left. }
  apply In_grid_nodes in Hin. destruct Hin as [Hr Hc].
  rewrite HR in Hread.
  destruct (proj1 (find_nearest_reads_Briggs C Hgeo Hnx Hsize Hsorted Hvalid Hreset
                     row col Hr Hc) Hread) as (d & Hf & Hcl & Hst).
  change (status C1 (node_nw_corner C + row * current_mx C + col)%Z
          = status_of_datum C d) in Hst.
  exists d. split; [exact Hf|]. split; [exact Hst|].
  split.
  { change (status C' node) with (status C1 (node_nw_corner C + row * current_mx C + col)%Z).
    rewrite Hst. now apply status_of_far_datum. }
  assert (Hidx : sw_briggs_index st = Z.of_nat (length (filter (reads_Briggs C') pre))).
  { unfold st. rewrite sweep_briggs_index. cbn [sw_briggs_index]. lia. }
  split; [exact Hidx|].
  assert (HBr : Briggs C' (sw_briggs_index st) = Briggs_of_datum C d).
  { rewrite Hidx.
  pose proof (reading_nodes_are_briggs_data C Hgeo Hnx Hsize Hsorted Hvalid Hreset) as HQ.
  fold C1 in HQ. rewrite Hsplit in HQ.
  rewrite (filter_split _ _ _ _ Hread), map_app in HQ. cbn [map fst snd] in HQ.
  set (k := length (filter (reads_Briggs C') pre)).
  assert (Hk : length (map (fun rc : Z * Z => row_col_to_index (fst rc) (snd rc) (current_nx C))
                          (filter (reads_Briggs C1) pre)) = k).
  { rewrite length_map. reflexivity. }
  set (BD := briggs_data C UINTMAX_MAX (data C)) in *.
  assert (Hlen : (k < length BD)%nat).
  { rewrite <- (length_map index BD), <- HQ, length_app, Hk. cbn [length]. lia. }
  assert (Hnth : index (nth k BD d) = row_col_to_index row col (current_nx C)).
  { rewrite <- (map_nth index BD d k), <- HQ, app_nth2 by lia.
    rewrite Hk, Nat.sub_diag. reflexivity. }
  destruct (briggs_data_spec C (data C) UINTMAX_MAX Hsorted
              (entered_ok_top C Hsize Hvalid)) as (_ & HBD & _).
  destruct (HBD (nth k BD d) (nth_In BD d Hlen)) as (_ & Hf' & _).
  rewrite Hnth in Hf'. cbn [fst snd] in Hf. rewrite Hf in Hf'. injection Hf' as Hd.
  destruct (nearest_loop_Briggs C (data C)
              (mkNearest (reset_status C (status C)) (u C) (Briggs C) UINTMAX_MAX 0%Z))
    as (_ & HB & _).
  cbn [ns_last_index ns_briggs_index] in HB. fold BD in HB.
  specialize (HB k d Hlen). rewrite <- Hd in HB. rewrite Z.add_0_l in HB.
  exact HB. }
  split; [exact HBr|].
  pose proof (status_of_far_datum C d Hcl) as Hq.
  assert (Hnode : status C' (node_nw_corner C' + row * current_mx C' + col)%Z
                  = status_of_datum C d) by exact Hst.
  clearbody st. unfold iterate_node, Briggs_update. fold node in Hnode |- *.
  rewrite Hnode, HBr.
  replace (status_of_datum C d =? SURFACE_IS_CONSTRAINED)%Z with false
    by (symmetry; apply Z.eqb_neq; unfold SURFACE_IS_CONSTRAINED; lia).
  replace (status_of_datum C d =? SURFACE_IS_UNCONSTRAINED)%Z with false
    by (symmetry; apply Z.eqb_neq; unfold SURFACE_IS_UNCONSTRAINED; lia).
  change (SURFACE_CONSTRAINED =? SURFACE_CONSTRAINED)%Z with true. cbv iota.
  cbn [sw_u sw_briggs_index]. rewrite upd_same. split; reflexivity.
Qed.

Lemma Briggs_table_aligned_witness :
  let C' := set_total_iterations
              (set_u (surface_find_nearest_constraint aligned_info) (fun _ => 0)) 0 in
  let node := (node_nw_corner C' + 1 * current_mx C' + 2)%Z in
  let st := fold_left (iterate_node C') [(0, 0); (0, 1); (0, 2); (0, 3); (1, 0); (1, 1)]%Z
              (mkSweep (surface_set_BCs C' (fun _ => 0)) 0%Z (-1 # 1)) in
  exists d,
    nearest_in_bin (data aligned_info) (row_col_to_index 1 2 (current_nx aligned_info))
      = Some d /\
    status C' node = status_of_datum aligned_info d /\
    (1 <= status C' node <= 4)%Z /\
    sw_briggs_index st
      = Z.of_nat (length (filter (reads_Briggs C')
                            [(0, 0); (0, 1); (0, 2); (0, 3); (1, 0); (1, 1)]%Z)) /\
    Briggs C' (sw_briggs_index st) = Briggs_of_datum aligned_info d /\
    sw_u (iterate_node C' st (1, 2)%Z) node
    = Briggs_update C' (sw_u st) 1 2 (status_of_datum aligned_info d)
        (Briggs_of_datum aligned_info d) /\
    sw_briggs_index (iterate_node C' st (1, 2)%Z) = (sw_briggs_index st + 1)%Z.
Proof.
  refine (Briggs_table_aligned aligned_info (fun _ => 0) 0%Z
            [(0, 0); (0, 1); (0, 2); (0, 3); (1, 0); (1, 1)]%Z
            [(1, 3); (2, 0); (2, 1); (2, 2); (2, 3);
             (3, 0); (3, 1); (3, 2); (3, 3)]%Z 1 2 _ _ _ _ _ _ _ _).
  - apply geometry_of_setup.
  - vm_compute. reflexivity.
  - vm_compute. discriminate.
  - replace (map index (data aligned_info)) with [0; 6; 15]%Z by (vm_compute; reflexivity).
    repeat constructor; lia.
  - intros d Hd.
    replace (data aligned_info) with aligned_data in Hd by (vm_compute; reflexivity).
    destruct Hd as [<- | [<- | [<- | []]]]; vm_compute; split; discriminate || reflexivity.
  - intros r c Hr Hc.
    replace (current_ny aligned_info) with 4%Z in Hr by (vm_compute; reflexivity).
    replace (current_nx aligned_info) with 4%Z in Hc by (vm_compute; reflexivity).
    assert (Er : (r = 0 \/ r = 1 \/ r = 2 \/ r = 3)%Z) by lia.
    assert (Ec : (c = 0 \/ c = 1 \/ c = 2 \/ c = 3)%Z) by lia.
    clear Hr Hc.
    destruct Er as [-> | [-> | [-> | ->]]]; destruct Ec as [-> | [-> | [-> | ->]]];
      left; vm_compute; reflexivity.
  - vm_compute. reflexivity.
  - vm_compute. reflexivity.
Defined.

(** * Further properties of the solver *)

(** ** The comparison function of the sorts *)

Ltac Qltb_cases :=
  repeat match goal with
         | |- context [Qltb ?x ?y] => destruct (Qltb x y) eqn:?
         end;
  repeat match goal with
         | H : Qltb _ _ = true |- _ => apply Qltb_lt in H
         | H : Qltb _ _ = false |- _ => apply Qltb_ge in H
         end.

(** [surface_compare_points] is antisymmetric: swapping its two arguments
    negates the result, whatever the data and the search metadata are.  The
    shortcut that compares the distance of the first point with the
    x-separation of the second alone never changes the outcome. *)
Theorem compare_points_antisymmetric (info : SURFACE_SEARCH) (a b : SURFACE_DATA) :
  surface_compare_points info a b = (- surface_compare_points info b a)%Z.
Proof.
  unfold surface_compare_points.
  destruct (Z.ltb_spec (index a) (index b)); destruct (Z.ltb_spec (index b) (index a));
    try lia; try reflexivity.
  assert (E : index b = index a) by lia. rewrite E.
  destruct (index a =? SURFACE_OUTSIDE)%Z; [reflexivity|].
  destruct (Z.eqb_spec (kind a) SURFACE_BREAKLINE) as [Ka|Ka];
    destruct (Z.eqb_spec (kind b) 0) as [Kb|Kb];
    destruct (Z.eqb_spec (kind b) SURFACE_BREAKLINE) as [Kb'|Kb'];
    destruct (Z.eqb_spec (kind a) 0) as [Ka'|Ka'];
    cbn [andb]; try reflexivity;
    try (exfalso; unfold SURFACE_BREAKLINE in *; lia).
  all: set (x0 := col_to_x _ _ _ _ _); set (y0 := row_to_y _ _ _ _ _).
  all: pose proof (Qsquare_nonneg (d_y a - y0)); pose proof (Qsquare_nonneg (d_y b - y0)).
  all: Qltb_cases; try reflexivity; exfalso; lra.
Qed.

Lemma compare_points_same_bin_le (info : SURFACE_SEARCH) (a b : SURFACE_DATA) :
  index a = index b ->
  (kind a = 0 \/ kind a = SURFACE_BREAKLINE)%Z ->
  (kind b = 0 \/ kind b = SURFACE_BREAKLINE)%Z ->
  (kind a = SURFACE_BREAKLINE /\ kind b = 0%Z) \/
  (kind a = kind b /\ bin_distance2 info a <= bin_distance2 info b) ->
  (surface_compare_points info a b <= 0)%Z.
Proof.
  intros Hi Ka Kb H. unfold surface_compare_points, bin_distance2 in *.
  rewrite <- Hi in *. rewrite Z.ltb_irrefl.
  destruct (index a =? SURFACE_OUTSIDE)%Z; [lia|].
  destruct (Z.eqb_spec (kind a) SURFACE_BREAKLINE) as [Ea|Ea];
    destruct (Z.eqb_spec (kind b) 0) as [Eb|Eb];
    destruct (Z.eqb_spec (kind b) SURFACE_BREAKLINE) as [Eb'|Eb'];
    destruct (Z.eqb_spec (kind a) 0) as [Ea'|Ea'];
    cbn [andb]; try lia;
    try (exfalso; unfold SURFACE_BREAKLINE in *; lia).
  all: destruct H as [[H1 H2]|[H1 H2]];
    try (exfalso; unfold SURFACE_BREAKLINE in *; lia).
  all: revert H2; set (x0 := col_to_x _ _ _ _ _); set (y0 := row_to_y _ _ _ _ _);
    intros H2; Qltb_cases; try lia; exfalso; lra.
Qed.

(** [surface_compare_points] is transitive on data whose kind is 0 or
    [SURFACE_BREAKLINE] (the only kinds the reader and the breakline code
    assign), so it is an ordering a sort can rely on. *)
Theorem compare_points_transitive (info : SURFACE_SEARCH) (a b c : SURFACE_DATA) :
  (kind a = 0 \/ kind a = SURFACE_BREAKLINE)%Z ->
  (kind b = 0 \/ kind b = SURFACE_BREAKLINE)%Z ->
  (kind c = 0 \/ kind c = SURFACE_BREAKLINE)%Z ->
  (surface_compare_points info a b <= 0)%Z ->
  (surface_compare_points info b c <= 0)%Z ->
  (surface_compare_points info a c <= 0)%Z.
Proof.
  intros Ka Kb Kc Hab Hbc.
  pose proof (compare_points_index _ _ _ Hab) as Iab.
  pose proof (compare_points_index _ _ _ Hbc) as Ibc.
  destruct (Z.eq_dec (index a) (index c)) as [Eac|Nac].
  - assert (Eab : index a = index b) by lia.
    assert (Ebc : index b = index c) by lia.
    destruct (Z.eq_dec (index a) SURFACE_OUTSIDE) as [Eo|No].
    + unfold surface_compare_points. rewrite <- Eac, Z.ltb_irrefl.
      apply Z.eqb_eq in Eo. rewrite Eo. lia.
    + apply compare_points_same_bin_le; auto.
      destruct (compare_points_same_bin info a b Eab No Ka Kb Hab) as [[H1 H2]|[H1 H2]];
        destruct (compare_points_same_bin info b c Ebc ltac:(congruence) Kb Kc Hbc)
          as [[H3 H4]|[H3 H4]].
      * unfold SURFACE_BREAKLINE in *. lia.
      * left. split; congruence.
      * left. split; congruence.
      * right. split; [congruence|].
        unfold bin_distance2 in *. rewrite <- Ebc, <- Eab in *.
        eapply Qle_trans; eassumption.
  - unfold surface_compare_points.
    destruct (Z.ltb_spec (index a) (index c)); lia.
Qed.

Lemma compare_points_transitive_witness :
  (surface_compare_points (info crowded_info)
     (mkData 0 (1 # 4) 7 1 20) (mkData 4 0 4 0 24) <= 0)%Z.
Proof.
  apply (compare_points_transitive (info crowded_info)
           (mkData 0 (1 # 4) 7 1 20) (mkData 0 0 3 0 20) (mkData 4 0 4 0 24)).
  - right. reflexivity.
  - left. reflexivity.
  - left. reflexivity.
  - vm_compute. discriminate.
  - vm_compute. discriminate.
Defined.

(** ** The stencil *)

(** With the bookkeeping of [surface_set_grid_parameters] and the offsets of
    [surface_set_offset], every one of the twelve neighbours of a node of
    the current grid is the node one or two rows or columns away, and it
    lies inside the padded array of current_mx * (current_ny + 4) elements:
    the stencil never addresses memory outside the grid and its two-cell
    halo. *)
Theorem stencil_stays_in_padded_grid (C0 : SURFACE_INFO) (row col : Z)
    (k : surface_nodes) :
  let C := surface_set_offset (surface_set_grid_parameters C0) in
  (0 <= row < current_ny C)%Z -> (0 <= col < current_nx C)%Z ->
  let node := row_col_to_node row col (current_mx C) in
  (node + offset C k)%Z
    = row_col_to_node (row + node_drow k) (col + node_dcol k) (current_mx C) /\
  (0 <= node + offset C k < current_mx C * (current_ny C + 4))%Z.
Proof.
  cbn -[Z.mul Z.opp Z.add Z.sub Z.quot]. intros Hrow Hcol.
  set (nx := (Z.quot (n_columns C0 - 1) (current_stride C0) + 1)%Z) in *.
  set (ny := (Z.quot (n_rows C0 - 1) (current_stride C0) + 1)%Z) in *.
  unfold row_col_to_node.
  assert (Hr : (0 <= row + node_drow k + 2 <= ny + 3)%Z) by (destruct k; cbn; lia).
  assert (Hc : (0 <= col + node_dcol k + 2 < nx + 4)%Z) by (destruct k; cbn; lia).
  assert (H1 : (0 <= (row + node_drow k + 2) * (nx + 4))%Z)
    by (apply Z.mul_nonneg_nonneg; lia).
  assert (H2 : ((row + node_drow k + 2) * (nx + 4) <= (ny + 3) * (nx + 4))%Z)
    by (apply Z.mul_le_mono_nonneg_r; lia).
  destruct k; cbn [node_drow node_dcol] in *; split; lia.
Qed.

Lemma stencil_stays_in_padded_grid_witness :
  let C := surface_set_offset (surface_set_grid_parameters (base_info 4 4 1 false [] (fun _ => 0))) in
  let node := row_col_to_node 0 0 (current_mx C) in
  (node + offset C N2)%Z = row_col_to_node (0 + node_drow N2) (0 + node_dcol N2) (current_mx C) /\
  (0 <= node + offset C N2 < current_mx C * (current_ny C + 4))%Z.
Proof.
  apply (stencil_stays_in_padded_grid (base_info 4 4 1 false [] (fun _ => 0)) 0 0 N2).
  - vm_compute. split; [discriminate | reflexivity].
  - vm_compute. split; [discriminate | reflexivity].
Defined.

(** The coefficients of the unconstrained stencil that
    [surface_set_coefficients] computes add up to one, whenever the
    denominator of a0 does not vanish: the relaxation reproduces a constant
    field.  They are also symmetric under the reflections of the stencil. *)
Theorem unconstrained_coefficients (C : SURFACE_INFO) :
  let loose := 1 - interior_tension C in
  let a2 := alpha C * alpha C in
  ~ (6 * (a2 * a2) * loose + 10 * a2 * loose + 8 * loose - 2 * (1 + a2))
      + 4 * interior_tension C * (1 + a2) == 0 ->
  let c := coeff (surface_set_coefficients C) SURFACE_UNCONSTRAINED in
  fold_left (fun acc k => acc + c k) all_nodes 0 == 1 /\
  c W1 = c E1 /\ c N1 = c S1 /\ c W2 = c E2 /\ c N2 = c S2 /\
  c NW = c NE /\ c NW = c SW /\ c NW = c SE.
Proof.
  intros loose a2 Hd c. split; [|repeat split; reflexivity].
  unfold c, surface_set_coefficients, all_nodes.
  cbn [coeff set_coeff fold_left].
  change (SURFACE_UNCONSTRAINED =? SURFACE_CONSTRAINED)%Z with false. cbv iota.
  fold a2. clear c. subst loose. clearbody a2.
  field. exact Hd.
Qed.

Lemma unconstrained_coefficients_witness :
  let c := coeff (surface_set_coefficients (base_info 4 4 1 false [] (fun _ => 0)))
             SURFACE_UNCONSTRAINED in
  fold_left (fun acc k => acc + c k) all_nodes 0 == 1.
Proof.
  refine (proj1 (unconstrained_coefficients (base_info 4 4 1 false [] (fun _ => 0)) _)).
  vm_compute. discriminate.
Defined.

(** ** A constant field is stationary *)

Lemma fold_left_invariant {A B : Type} (P : A -> Prop) (f : A -> B -> A)
    (l : list B) (a : A) :
  P a -> (forall a x, In x l -> P a -> P (f a x)) -> P (fold_left f l a).
Proof.
  revert a. induction l as [|x l IH]; intros a Ha Hf; [exact Ha|].
  cbn [fold_left]. apply IH.
  - apply Hf; [now left|exact Ha].
  - intros a' x' Hx'. apply Hf. now right.
Qed.

Lemma upd_constant (c : Q) (v : Z -> Q) (n : Z) (x : Q) :
  constant_field c v -> x == c -> constant_field c (upd v n x).
Proof.
  intros Hv Hx m. unfold upd. destruct (m =? n)%Z; [exact Hx|apply Hv].
Qed.

Ltac constant_step solve_value :=
  lazymatch goal with
  | |- constant_field ?c (upd ?v ?n ?x) =>
      apply upd_constant;
      [ constant_step solve_value
      | constant_values c solve_value; solve_value ]
  | |- _ => assumption
  end
with constant_values c solve_value :=
  repeat match goal with
         | |- context [upd ?v ?n ?x ?m] =>
             let E := fresh "E" in
             assert (E : constant_field c (upd v n x)) by (constant_step solve_value);
             rewrite (E m); clear E
         | Ha : constant_field c ?a |- context [?a ?m] => rewrite (Ha m)
         end.

Section ConstantField.

Variable C : SURFACE_INFO.
Variable c : Q.
Hypothesis Hy : ~ 2 * alpha C * (1 - boundary_tension C) + boundary_tension C == 0.
Hypothesis Hx : ~ 2 - boundary_tension C == 0.

Lemma set_BC1_south_north_constant (v : Z -> Q) :
  constant_field c v -> constant_field c (set_BC1_south_north C v).
Proof.
  intros Hv. unfold set_BC1_south_north. cbv zeta.
  apply fold_left_invariant; [exact Hv|].
  intros a x _ Ha. constant_step ltac:(field; exact Hy).
Qed.

Lemma set_BC1_west_east_constant (v : Z -> Q) :
  constant_field c v -> constant_field c (set_BC1_west_east C v).
Proof.
  intros Hv. unfold set_BC1_west_east. cbv zeta.
  apply fold_left_invariant; [exact Hv|].
  intros a x _ Ha. destruct (periodic C).
  - constant_step ltac:(try reflexivity; field).
  - constant_step ltac:(field; exact Hx).
Qed.

Lemma set_BC_corners_constant (v : Z -> Q) :
  constant_field c v -> constant_field c (set_BC_corners C v).
Proof.
  intros Hv. unfold set_BC_corners. cbv zeta.
  constant_step ltac:(ring).
Qed.

Lemma set_BC2_south_north_constant (v : Z -> Q) :
  constant_field c v -> constant_field c (set_BC2_south_north C v).
Proof.
  intros Hv. unfold set_BC2_south_north.
  apply fold_left_invariant; [exact Hv|].
  intros a x _ Ha. unfold BC2_south_north_body. cbv zeta.
  constant_step ltac:(ring).
Qed.

Lemma set_BC2_west_east_constant (v : Z -> Q) :
  constant_field c v -> constant_field c (set_BC2_west_east C v).
Proof.
  intros Hv. unfold set_BC2_west_east.
  apply fold_left_invariant; [exact Hv|].
  intros a x _ Ha. unfold BC2_west_east_body. cbv zeta.
  destruct (periodic C); constant_step ltac:(try reflexivity; ring).
Qed.

Lemma set_BCs_constant (v : Z -> Q) :
  constant_field c v -> constant_field c (surface_set_BCs C v).
Proof.
  intros Hv. unfold surface_set_BCs.
  apply set_BC2_west_east_constant, set_BC2_south_north_constant,
    set_BC_corners_constant, set_BC1_west_east_constant,
    set_BC1_south_north_constant, Hv.
Qed.

End ConstantField.

Lemma weighted_coefficient_sum (C0 : SURFACE_INFO) (f : surface_nodes -> Q) (c : Q) :
  let loose := 1 - interior_tension C0 in
  let a2 := alpha C0 * alpha C0 in
  ~ (6 * (a2 * a2) * loose + 10 * a2 * loose + 8 * loose - 2 * (1 + a2))
      + 4 * interior_tension C0 * (1 + a2) == 0 ->
  (forall k, f k == c) ->
  fold_left (fun acc k =>
      acc + f k * coeff (surface_set_coefficients C0) SURFACE_UNCONSTRAINED k)
    all_nodes 0 == c.
Proof.
  intros loose a2 Hd Hf.
  unfold surface_set_coefficients, all_nodes.
  cbn [coeff set_coeff fold_left].
  change (SURFACE_UNCONSTRAINED =? SURFACE_CONSTRAINED)%Z with false. cbv iota.
  rewrite !Hf. fold a2. subst loose. clearbody a2.
  field. exact Hd.
Qed.

Section ConstantSweep.

Variable C0 : SURFACE_INFO.
Variable c : Q.

Let C := surface_set_coefficients C0.

Hypothesis Hd :
  let loose := 1 - interior_tension C0 in
  let a2 := alpha C0 * alpha C0 in
  ~ (6 * (a2 * a2) * loose + 10 * a2 * loose + 8 * loose - 2 * (1 + a2))
      + 4 * interior_tension C0 * (1 + a2) == 0.
Hypothesis Hrelax : relax_old C0 + relax_new C0 == 1.
Hypothesis Hcon : constrained C0 = false.

Lemma iterate_node_constant (st : sweep_state) (row col : Z) :
  (let s := status C0 (node_nw_corner C0 + row * current_mx C0 + col)%Z in
   s = SURFACE_IS_UNCONSTRAINED \/ s = SURFACE_IS_CONSTRAINED) ->
  constant_field c (sw_u st) /\ sw_max_u_change st <= 0 ->
  constant_field c (sw_u (iterate_node C st (row, col))) /\
  sw_max_u_change (iterate_node C st (row, col)) <= 0.
Proof.
  intros Hs [Hu Hm]. unfold iterate_node.
  change (status C) with (status C0). change (node_nw_corner C) with (node_nw_corner C0).
  change (current_mx C) with (current_mx C0). change (constrained C) with (constrained C0).
  change (relax_old C) with (relax_old C0). change (relax_new C) with (relax_new C0).
  cbv zeta in Hs. destruct Hs as [-> | ->].
  - change (SURFACE_IS_UNCONSTRAINED =? SURFACE_IS_CONSTRAINED)%Z with false.
    change (SURFACE_IS_UNCONSTRAINED =? SURFACE_IS_UNCONSTRAINED)%Z with true.
    cbv iota zeta.
    change (SURFACE_UNCONSTRAINED =? SURFACE_CONSTRAINED)%Z with false.
    cbv iota. rewrite Hcon. cbn [sw_u sw_max_u_change].
    set (node := (node_nw_corner C0 + row * current_mx C0 + col)%Z).
    assert (Hsum : fold_left (fun acc k =>
                       acc + sw_u st (node + offset C k)%Z * coeff C SURFACE_UNCONSTRAINED k)
                     all_nodes 0 == c).
    { apply (weighted_coefficient_sum C0 (fun k => sw_u st (node + offset C k)%Z) c Hd).
      intros k. apply Hu. }
    assert (Hnew : sw_u st node * relax_old C0
                   + fold_left (fun acc k =>
                       acc + sw_u st (node + offset C k)%Z * coeff C SURFACE_UNCONSTRAINED k)
                     all_nodes 0 * relax_new C0 == c).
    { rewrite Hsum, (Hu node).
      setoid_replace (c * relax_old C0 + c * relax_new C0)
        with (c * (relax_old C0 + relax_new C0)) by ring.
      rewrite Hrelax. ring. }
    split.
    + apply upd_constant; [exact Hu|exact Hnew].
    + match goal with
      | |- (if Qltb _ ?ch then _ else _) <= 0 =>
          destruct (Qltb (sw_max_u_change st) ch); [|exact Hm]
      end.
      rewrite Hnew, (Hu node).
      setoid_replace (c - c) with 0 by ring.
      cbn. apply Qle_refl.
  - change (SURFACE_IS_CONSTRAINED =? SURFACE_IS_CONSTRAINED)%Z with true.
    cbv iota. split; assumption.
Qed.

End ConstantSweep.

Lemma sweep_constant (C0 : SURFACE_INFO) (c : Q) :
  let C := surface_set_coefficients C0 in
  let loose := 1 - interior_tension C in
  let a2 := alpha C * alpha C in
  ~ (6 * (a2 * a2) * loose + 10 * a2 * loose + 8 * loose - 2 * (1 + a2))
      + 4 * interior_tension C * (1 + a2) == 0 ->
  ~ 2 * alpha C * (1 - boundary_tension C) + boundary_tension C == 0 ->
  ~ 2 - boundary_tension C == 0 ->
  relax_old C + relax_new C == 1 ->
  constrained C = false ->
  (forall row col, (0 <= row < current_ny C)%Z -> (0 <= col < current_nx C)%Z ->
     let s := status C (node_nw_corner C + row * current_mx C + col)%Z in
     s = SURFACE_IS_UNCONSTRAINED \/ s = SURFACE_IS_CONSTRAINED) ->
  forall v, constant_field c v ->
  constant_field c (sw_u (surface_sweep C v)) /\
  sw_max_u_change (surface_sweep C v) <= 0.
Proof.
  intros C loose a2 Hd Hy Hx Hrelax Hcon Hst v Hv.
  unfold surface_sweep.
  apply (fold_left_invariant
           (fun st => constant_field c (sw_u st) /\ sw_max_u_change st <= 0)).
  - cbn [sw_u sw_max_u_change]. split; [|discriminate].
    apply set_BCs_constant; assumption.
  - intros st [row col] Hin Hinv. apply In_grid_nodes in Hin. destruct Hin as [Hr Hc].
    apply (iterate_node_constant C0 c Hd Hrelax Hcon st row col); [|exact Hinv].
    exact (Hst row col Hr Hc).
Qed.

(** A constant field is stationary.  With the coefficients of
    [surface_set_coefficients], relaxation weights that add up to one (as
    [surface_init_parameters] sets them), no bound grids, and every node of
    the current grid either unconstrained or fixed, a grid that holds the
    same value [c] everywhere is left at [c] by the boundary conditions and
    by the relaxation of every node, so [surface_iterate] returns after a
    single pass with the grid unchanged. *)
Theorem constant_field_is_stationary (C0 : SURFACE_INFO) (c : Q) (mode : Z) :
  let C := surface_set_coefficients C0 in
  let loose := 1 - interior_tension C in
  let a2 := alpha C * alpha C in
  ~ (6 * (a2 * a2) * loose + 10 * a2 * loose + 8 * loose - 2 * (1 + a2))
      + 4 * interior_tension C * (1 + a2) == 0 ->
  ~ 2 * alpha C * (1 - boundary_tension C) + boundary_tension C == 0 ->
  ~ 2 - boundary_tension C == 0 ->
  relax_old C + relax_new C == 1 ->
  constrained C = false ->
  (forall row col, (0 <= row < current_ny C)%Z -> (0 <= col < current_nx C)%Z ->
     let s := status C (node_nw_corner C + row * current_mx C + col)%Z in
     s = SURFACE_IS_UNCONSTRAINED \/ s = SURFACE_IS_CONSTRAINED) ->
  constant_field c (u C) ->
  0 <= converge_limit C -> 0 <= z_rms C -> (1 <= current_stride C)%Z ->
  exists C', surface_iterate C mode = Some (C', 1%Z) /\ constant_field c (u C').
Proof.
  intros C loose a2 Hd Hy Hx Hrelax Hcon Hst Hv Hlim Hz Hstride.
  destruct (sweep_constant C0 c Hd Hy Hx Hrelax Hcon Hst (u C) Hv) as [Hu Hm].
  fold C in Hu, Hm.
  exists (after_passes C 1). split.
  - unfold surface_iterate.
    change (surface_iterate_loop (Z.to_nat (current_max_iterations C)) C 0%Z)
      with (surface_iterate_loop (Z.to_nat (current_max_iterations C))
              (after_passes C 0) (Z.of_nat 0)).
    rewrite surface_iterate_loop_unfold.
    assert (Hfin : finished_after C 1 = true).
    { unfold finished_after. apply orb_true_iff. left. apply Qleb_le.
      change (after_passes C (1 - 1)) with C. unfold max_z_change.
      apply Qle_trans with 0.
      - setoid_replace 0 with (0 * z_rms C) by ring.
        apply Qmult_le_compat_r; assumption.
      - apply Qle_shift_div_l.
        + change 0 with (inject_Z 0). rewrite <- Zlt_Qlt. lia.
        + setoid_replace (0 * inject_Z (current_stride C)) with 0 by ring. exact Hlim. }
    rewrite Hfin. reflexivity.
  - exact Hu.
Qed.

Lemma constant_field_is_stationary_witness :
  let C := surface_set_coefficients
             (surface_set_offset
                (surface_set_grid_parameters (base_info 4 4 1 false [] (fun _ => 7)))) in
  exists C', surface_iterate C GRID_NODES = Some (C', 1%Z) /\ constant_field 7 (u C').
Proof.
  apply (constant_field_is_stationary
           (surface_set_offset
              (surface_set_grid_parameters (base_info 4 4 1 false [] (fun _ => 7))))
           7 GRID_NODES).
  - vm_compute. discriminate.
  - vm_compute. discriminate.
  - vm_compute. discriminate.
  - vm_compute. reflexivity.
  - reflexivity.
  - intros row col _ _. left. reflexivity.
  - intros n. reflexivity.
  - vm_compute. discriminate.
  - vm_compute. discriminate.
  - vm_compute. discriminate.
Defined.

(** ** The boundary conditions write ghost nodes only *)

Section BCFrame.

Variable C : SURFACE_INFO.
Hypothesis Hgeo : geometry_ok C.

Lemma set_BC1_south_north_frame (v : Z -> Q) (r c : Z) :
  (0 <= r < current_ny C)%Z -> (-2 <= c < current_nx C + 2)%Z ->
  set_BC1_south_north C v (row_col_to_node r c (current_mx C))
  = v (row_col_to_node r c (current_mx C)).
Proof.
  intros Hr Hc. pose proof (proj1 Hgeo) as Hmx.
  unfold set_BC1_south_north. cbv zeta.
  apply (fold_left_invariant
           (fun w => w (row_col_to_node r c (current_mx C))
                     = v (row_col_to_node r c (current_mx C)))); [reflexivity|].
  intros w col Hcol Hw. apply In_Zrange in Hcol.
  rewrite (south_edge_node C col Hgeo), (north_edge_node C col Hgeo).
  rewrite !(neighbour_node C _ _ _ Hgeo). cbn [node_drow node_dcol].
  rewrite !upd_other; [exact Hw| |]; apply row_col_to_node_neq; lia.
Qed.

Lemma set_BC1_west_east_frame (v : Z -> Q) (r c : Z) :
  (if periodic C then 0 < c < current_nx C - 1 else 0 <= c < current_nx C)%Z ->
  set_BC1_west_east C v (row_col_to_node r c (current_mx C))
  = v (row_col_to_node r c (current_mx C)).
Proof.
  intros Hc. pose proof (proj1 Hgeo) as Hmx.
  unfold set_BC1_west_east. cbv zeta.
  apply (fold_left_invariant
           (fun w => w (row_col_to_node r c (current_mx C))
                     = v (row_col_to_node r c (current_mx C)))); [reflexivity|].
  intros w row _ Hw.
  rewrite (west_edge_node C row Hgeo), (east_edge_node C row Hgeo).
  rewrite !(neighbour_node C _ _ _ Hgeo). cbn [node_drow node_dcol].
  destruct (periodic C);
    (rewrite !upd_other; [exact Hw|..]); apply row_col_to_node_neq; lia.
Qed.

Lemma set_BC_corners_frame (v : Z -> Q) (r c : Z) :
  (0 <= c < current_nx C)%Z ->
  set_BC_corners C v (row_col_to_node r c (current_mx C))
  = v (row_col_to_node r c (current_mx C)).
Proof.
  intros Hc. pose proof (proj1 Hgeo) as Hmx.
  assert (Esw : node_sw_corner C = row_col_to_node (current_ny C - 1) 0 (current_mx C)).
  { destruct Hgeo as (_ & Hnw & Hsw & _). unfold row_col_to_node. lia. }
  assert (Enw : node_nw_corner C = row_col_to_node 0 0 (current_mx C)).
  { destruct Hgeo as (_ & Hnw & _). unfold row_col_to_node. lia. }
  assert (Ese : node_se_corner C
                = row_col_to_node (current_ny C - 1) (current_nx C - 1) (current_mx C)).
  { destruct Hgeo as (_ & Hnw & Hsw & Hse & _). unfold row_col_to_node. lia. }
  assert (Ene : node_ne_corner C = row_col_to_node 0 (current_nx C - 1) (current_mx C)).
  { destruct Hgeo as (_ & Hnw & _ & _ & Hne & _). unfold row_col_to_node. lia. }
  unfold set_BC_corners. cbv zeta. rewrite Esw, Enw, Ese, Ene.
  rewrite !(neighbour_node C _ _ _ Hgeo). cbn [node_drow node_dcol].
  rewrite !upd_other; [reflexivity|..]; apply row_col_to_node_neq; lia.
Qed.

End BCFrame.

Lemma set_BCs_frame (C : SURFACE_INFO) (v : Z -> Q) (row col : Z) :
  geometry_ok C ->
  (0 <= row < current_ny C)%Z ->
  (if periodic C then 0 < col < current_nx C - 1 else 0 <= col < current_nx C)%Z ->
  surface_set_BCs C v (row_col_to_node row col (current_mx C))
  = v (row_col_to_node row col (current_mx C)).
Proof.
  intros Hgeo Hrow Hcol. unfold surface_set_BCs.
  assert (Hc : (0 <= col < current_nx C)%Z) by (destruct (periodic C); lia).
  unfold set_BC2_west_east, set_BC2_south_north.
  rewrite (set_BC2_west_east_frame C Hgeo) by lia.
  rewrite (set_BC2_south_north_frame C Hgeo)
    by (try (intros ? ?; now apply In_Zrange); try lia; left; lia).
  rewrite (set_BC_corners_frame C Hgeo) by lia.
  rewrite (set_BC1_west_east_frame C Hgeo) by assumption.
  apply (set_BC1_south_north_frame C Hgeo); lia.
Qed.

(** [surface_set_BCs] writes ghost nodes only: on a grid that is not
    periodic every node of the current grid keeps its value, and on a
    periodic grid every node outside the west and east columns (which are
    replaced by their average) does. *)
Theorem set_BCs_keeps_grid_nodes (C : SURFACE_INFO) (v : Z -> Q) (row col : Z) :
  geometry_ok C ->
  (0 <= row < current_ny C)%Z ->
  (if periodic C then 0 < col < current_nx C - 1 else 0 <= col < current_nx C)%Z ->
  surface_set_BCs C v (row_col_to_node row col (current_mx C))
  = v (row_col_to_node row col (current_mx C)).
Proof. apply set_BCs_frame. Qed.

Lemma set_BCs_keeps_grid_nodes_witness :
  surface_set_BCs ramp_info (u ramp_info) (row_col_to_node 1 2 (current_mx ramp_info))
  = u ramp_info (row_col_to_node 1 2 (current_mx ramp_info)).
Proof.
  apply (set_BCs_keeps_grid_nodes ramp_info (u ramp_info) 1 2).
  - apply geometry_of_setup.
  - vm_compute. split; [discriminate | reflexivity].
  - vm_compute. split; [discriminate | reflexivity].
Defined.

(** ** Fixed nodes *)

Lemma iterate_node_elsewhere (C : SURFACE_INFO) (st : sweep_state) (row col n : Z) :
  n <> (node_nw_corner C + row * current_mx C + col)%Z ->
  sw_u (iterate_node C st (row, col)) n = sw_u st n.
Proof.
  intros Hn. unfold iterate_node.
  destruct (status C _ =? SURFACE_IS_CONSTRAINED)%Z; [reflexivity|].
  cbv zeta. cbn [sw_u]. now apply upd_other.
Qed.

Lemma iterate_node_fixed (C : SURFACE_INFO) (st : sweep_state) (row col : Z) :
  status C (node_nw_corner C + row * current_mx C + col)%Z = SURFACE_IS_CONSTRAINED ->
  iterate_node C st (row, col) = st.
Proof.
  intros Hs. unfold iterate_node. rewrite Hs. reflexivity.
Qed.

Lemma sweep_keeps_fixed_node (C : SURFACE_INFO) (v : Z -> Q) (row col : Z) :
  geometry_ok C ->
  (0 <= row < current_ny C)%Z ->
  (if periodic C then 0 < col < current_nx C - 1 else 0 <= col < current_nx C)%Z ->
  status C (row_col_to_node row col (current_mx C)) = SURFACE_IS_CONSTRAINED ->
  sw_u (surface_sweep C v) (row_col_to_node row col (current_mx C))
  = v (row_col_to_node row col (current_mx C)).
Proof.
  intros Hgeo Hrow Hcol Hs. unfold surface_sweep.
  apply (fold_left_invariant
           (fun st => sw_u st (row_col_to_node row col (current_mx C))
                      = v (row_col_to_node row col (current_mx C)))).
  - cbn [sw_u]. now apply set_BCs_frame.
  - intros st [r c] Hin Hst. apply In_grid_nodes in Hin.
    pose proof (proj1 Hgeo) as Hmx.
    assert (Hnode : (node_nw_corner C + r * current_mx C + c)%Z
                    = row_col_to_node r c (current_mx C)).
    { destruct Hgeo as (_ & Hnw & _). unfold row_col_to_node. lia. }
    destruct (Z.eq_dec r row) as [->|Hr]; [destruct (Z.eq_dec c col) as [->|Hc]|].
    + rewrite iterate_node_fixed; [exact Hst|]. now rewrite Hnode.
    + rewrite iterate_node_elsewhere; [exact Hst|]. rewrite Hnode.
      apply row_col_to_node_neq; destruct (periodic C); lia.
    + rewrite iterate_node_elsewhere; [exact Hst|]. rewrite Hnode.
      apply row_col_to_node_neq; destruct (periodic C); lia.
Qed.

Lemma after_passes_fields (C : SURFACE_INFO) (k : nat) :
  status (after_passes C k) = status C /\
  periodic (after_passes C k) = periodic C /\
  current_nx (after_passes C k) = current_nx C /\
  current_ny (after_passes C k) = current_ny C /\
  current_mx (after_passes C k) = current_mx C /\
  (geometry_ok C -> geometry_ok (after_passes C k)).
Proof.
  induction k as [|k IH]; [tauto|].
  rewrite after_passes_S. unfold one_pass; cbn.
  destruct IH as (H1 & H2 & H3 & H4 & H5 & H6).
  repeat split; try assumption; apply H6; assumption.
Qed.

Lemma after_passes_keeps_fixed_node (C : SURFACE_INFO) (k : nat) (row col : Z) :
  geometry_ok C ->
  (0 <= row < current_ny C)%Z ->
  (if periodic C then 0 < col < current_nx C - 1 else 0 <= col < current_nx C)%Z ->
  status C (row_col_to_node row col (current_mx C)) = SURFACE_IS_CONSTRAINED ->
  u (after_passes C k) (row_col_to_node row col (current_mx C))
  = u C (row_col_to_node row col (current_mx C)).
Proof.
  intros Hgeo Hrow Hcol Hs. induction k as [|k IH]; [reflexivity|].
  rewrite after_passes_S. unfold one_pass. cbn [u set_u set_total_iterations].
  destruct (after_passes_fields C k) as (H1 & H2 & H3 & H4 & H5 & H6).
  rewrite <- H5 at 1 2.
  rewrite sweep_keeps_fixed_node; rewrite ?H1, ?H2, ?H3, ?H4, ?H5; auto.
Qed.

(** A node that [surface_find_nearest_constraint] or [fill_in_forecast] has
    marked [SURFACE_IS_CONSTRAINED] keeps its value through a whole call of
    [surface_iterate], whatever the number of passes: neither the boundary
    conditions nor the relaxation write it.  (On a periodic grid this is
    stated for the nodes outside the west and east columns, which the
    boundary conditions average.) *)
Theorem iterate_keeps_fixed_nodes (C : SURFACE_INFO) (mode row col : Z) :
  geometry_ok C ->
  (0 <= row < current_ny C)%Z ->
  (if periodic C then 0 < col < current_nx C - 1 else 0 <= col < current_nx C)%Z ->
  status C (row_col_to_node row col (current_mx C)) = SURFACE_IS_CONSTRAINED ->
  exists C' n,
    surface_iterate C mode = Some (C', n) /\
    u C' (row_col_to_node row col (current_mx C))
    = u C (row_col_to_node row col (current_mx C)).
Proof.
  intros Hgeo Hrow Hcol Hs.
  destruct (surface_iterate_loop_spec C (Z.to_nat (current_max_iterations C)) 0)
    as (n & _ & Hrun & _).
  { unfold current_max_iterations.
    pose proof (Z.mod_pos_bound (max_iterations C * current_stride C) (2 ^ 32)). lia. }
  exists (after_passes C n), (Z.of_nat n). split; [exact Hrun|].
  now apply after_passes_keeps_fixed_node.
Qed.

Lemma find_nearest_constraint_geometry (C : SURFACE_INFO) :
  geometry_ok C -> geometry_ok (surface_find_nearest_constraint C).
Proof. intros H. exact H. Qed.

Lemma iterate_keeps_fixed_nodes_witness :
  let C := surface_find_nearest_constraint aligned_info in
  exists C' n,
    surface_iterate C GRID_DATA = Some (C', n) /\
    u C' (row_col_to_node 3 3 (current_mx C)) = u C (row_col_to_node 3 3 (current_mx C)).
Proof.
  apply (iterate_keeps_fixed_nodes (surface_find_nearest_constraint aligned_info)
           GRID_DATA 3 3).
  - apply find_nearest_constraint_geometry, geometry_of_setup.
  - vm_compute. split; [discriminate | reflexivity].
  - vm_compute. split; [discriminate | reflexivity].
  - vm_compute. reflexivity.
Defined.

(** ** The indices of the data at a new stride *)

Lemma sorted_by_index (info : SURFACE_SEARCH) (l : list SURFACE_DATA) :
  StronglySorted (fun a b => (surface_compare_points info a b <= 0)%Z) l ->
  StronglySorted Z.le (map index l).
Proof.
  induction 1 as [|x l _ IH Hx]; cbn [map]; constructor; [exact IH|].
  apply Forall_forall. intros i Hi. apply in_map_iff in Hi.
  destruct Hi as (d & <- & Hd). rewrite Forall_forall in Hx.
  apply (compare_points_index info), Hx, Hd.
Qed.

Lemma set_index_datum_inside (C : SURFACE_INFO) (d : SURFACE_DATA) :
  (0 < current_nx C)%Z ->
  outside_grid C d = false ->
  let '(row, col) := datum_bin C d in
  index (set_index_datum C d) = row_col_to_index row col (current_nx C) /\
  (0 <= row < current_ny C)%Z /\ (0 <= col < current_nx C)%Z /\
  (0 <= index (set_index_datum C d) < current_nx C * current_ny C)%Z.
Proof.
  intros Hnx Ho. unfold set_index_datum. rewrite Ho.
  unfold outside_grid in Ho. destruct (datum_bin C d) as [row col].
  cbn [index].
  apply orb_false_iff in Ho. destruct Ho as [Ho H4].
  apply orb_false_iff in Ho. destruct Ho as [Ho H3].
  apply orb_false_iff in Ho. destruct Ho as [H1 H2].
  apply Z.ltb_ge in H1, H3. apply Z.leb_gt in H2, H4.
  unfold row_col_to_index. repeat split; try lia; nia.
Qed.

Lemma set_index_datum_usable (C : SURFACE_INFO) (d : SURFACE_DATA) :
  (0 < current_nx C)%Z -> (current_nx C * current_ny C <= SURFACE_OUTSIDE)%Z ->
  usable (set_index_datum C d) = negb (outside_grid C d).
Proof.
  intros Hnx Hsz. destruct (outside_grid C d) eqn:Ho.
  - unfold set_index_datum. rewrite Ho. destruct (datum_bin C d). reflexivity.
  - pose proof (set_index_datum_inside C d Hnx Ho) as H.
    destruct (datum_bin C d) as [row col]. destruct H as (_ & _ & _ & H).
    unfold usable. cbn [negb]. apply negb_true_iff, Z.eqb_neq. lia.
Qed.

Lemma filter_map_ext {A B : Type} (f : A -> B) (p : B -> bool) (q : A -> bool)
    (l : list A) :
  (forall x, p (f x) = q x) -> filter p (map f l) = map f (filter q l).
Proof.
  intros H. induction l as [|x l IH]; [reflexivity|].
  cbn [map filter]. rewrite H. destruct (q x); cbn [map]; now rewrite IH.
Qed.

Section SetIndex.

Variable qsort_r :
  (SURFACE_DATA -> SURFACE_DATA -> Z) -> list SURFACE_DATA -> list SURFACE_DATA.
Variable C : SURFACE_INFO.

Let cmp := surface_compare_points (info C).
Let indexed := map (set_index_datum C) (data C).

Hypothesis Hnx : (0 < current_nx C)%Z.
Hypothesis Hsize : (current_nx C * current_ny C <= SURFACE_OUTSIDE)%Z.
Hypothesis Hsort : sorts qsort_r cmp indexed.

Lemma set_index_data :
  data (surface_set_index qsort_r C) = filter usable (qsort_r cmp indexed) /\
  Permutation (data (surface_set_index qsort_r C))
    (map (set_index_datum C) (filter (fun d => negb (outside_grid C d)) (data C))).
Proof.
  destruct Hsort as [Hp Hs].
  assert (Hfm : filter usable indexed
                = map (set_index_datum C)
                    (filter (fun d => negb (outside_grid C d)) (data C))).
  { apply filter_map_ext. intros d. now apply set_index_datum_usable. }
  assert (Hle : forall m, In m (qsort_r cmp indexed) -> (index m <= SURFACE_OUTSIDE)%Z).
  { intros m Hm. apply (Permutation_in _ (Permutation_sym Hp)) in Hm.
    unfold indexed in Hm. apply in_map_iff in Hm. destruct Hm as (d & <- & _).
    destruct (outside_grid C d) eqn:Ho.
    - unfold set_index_datum. rewrite Ho. destruct (datum_bin C d). cbn. lia.
    - pose proof (set_index_datum_inside C d Hnx Ho) as H.
      destruct (datum_bin C d). lia. }
  assert (Hcount : Z.to_nat (Z.of_nat (length (data C))
                             - Z.of_nat (length (filter (outside_grid C) (data C))))
                   = length (filter usable (qsort_r cmp indexed))).
  { rewrite <- (Permutation_length (filter_Permutation usable _ _ Hp)), Hfm, length_map.
    pose proof (filter_length (outside_grid C) (data C)). lia. }
  assert (Hdata : data (surface_set_index qsort_r C) = filter usable (qsort_r cmp indexed)).
  { unfold surface_set_index. cbn [data set_data]. fold indexed. fold cmp.
    rewrite Hcount. apply (sorted_usable_first (info C)); assumption. }
  split; [exact Hdata|].
  rewrite Hdata, <- Hfm. apply Permutation_sym, filter_Permutation, Hp.
Qed.

End SetIndex.

(** After [surface_set_index] (given that qsort_r sorts) the data array is
    sorted by ascending index, it holds exactly the data whose bin lies in
    the current grid, each with the index row * current_nx + col of that
    bin, and every index is below current_nx * current_ny. *)
Theorem set_index_prepares_data
    (qsort_r : (SURFACE_DATA -> SURFACE_DATA -> Z) -> list SURFACE_DATA -> list SURFACE_DATA)
    (C : SURFACE_INFO) :
  (0 < current_nx C)%Z -> (current_nx C * current_ny C <= SURFACE_OUTSIDE)%Z ->
  sorts qsort_r (surface_compare_points (info C)) (map (set_index_datum C) (data C)) ->
  let C' := surface_set_index qsort_r C in
  StronglySorted Z.le (map index (data C')) /\
  Permutation (data C')
    (map (set_index_datum C) (filter (fun d => negb (outside_grid C d)) (data C))) /\
  (forall d, In d (data C') ->
     (0 <= index d < current_nx C * current_ny C)%Z /\
     exists d0, In d0 (data C) /\
       d_x d = d_x d0 /\ d_y d = d_y d0 /\ d_z d = d_z d0 /\ kind d = kind d0 /\
       index d = row_col_to_index (fst (datum_bin C d0)) (snd (datum_bin C d0))
                   (current_nx C) /\
       (0 <= fst (datum_bin C d0) < current_ny C)%Z /\
       (0 <= snd (datum_bin C d0) < current_nx C)%Z).
Proof.
  intros Hnx Hsize Hsort C'.
  destruct (set_index_data qsort_r C Hnx Hsize Hsort) as [Hdata Hperm].
  fold C' in Hdata, Hperm. split; [|split; [exact Hperm|]].
  - rewrite Hdata. apply StronglySorted_map_filter.
    apply (sorted_by_index (info C)), Hsort.
  - intros d Hd. apply (Permutation_in _ Hperm) in Hd.
    apply in_map_iff in Hd. destruct Hd as (d0 & <- & Hd0).
    apply filter_In in Hd0. destruct Hd0 as [Hin Ho]. apply negb_true_iff in Ho.
    pose proof (set_index_datum_inside C d0 Hnx Ho) as H.
    destruct (datum_bin C d0) as [row col] eqn:Eb. destruct H as (Hi & Hr & Hc & Hv).
    split; [exact Hv|]. exists d0. cbn [fst snd].
    unfold set_index_datum in Hi, Hv |- *. rewrite Eb, Ho in Hi, Hv |- *.
    cbn [d_x d_y d_z kind index] in Hi, Hv |- *.
    repeat split; auto; cbn [fst snd]; lia.
Qed.

Lemma set_index_prepares_data_witness :
  let C := surface_set_grid_parameters (base_info 5 5 1 false crowded_data (fun _ => 0)) in
  StronglySorted Z.le
    (map index (data (surface_set_index insertion_sort C))).
Proof.
  refine (proj1 (set_index_prepares_data insertion_sort
                   (surface_set_grid_parameters
                      (base_info 5 5 1 false crowded_data (fun _ => 0))) _ _ _)).
  - vm_compute. reflexivity.
  - vm_compute. discriminate.
  - split.
    + apply insertion_sort_Permutation.
    + match goal with
      | |- StronglySorted _ ?l =>
          let v := eval vm_compute in l in
          replace l with v by (vm_compute; reflexivity)
      end.
      repeat constructor; vm_compute; discriminate.
Defined.

(** ** The misfit estimate *)

(** The Taylor estimate of [surface_check_errors] is exact on quadratic
    surfaces: when the node and its twelve neighbours hold the values of a
    quadratic in the column and row offsets, the estimate at the offsets
    (dx, dy) of a datum is the value of that quadratic at (dx, dy). *)
Theorem taylor_estimate_exact_on_quadratics (C : SURFACE_INFO) (v : Z -> Q) (node : Z)
    (a b c d e f dx dy : Q) :
  v node == quadratic a b c d e f 0 0 ->
  (forall k, v (node + offset C k)%Z
             == quadratic a b c d e f (inject_Z (node_dcol k)) (inject_Z (- node_drow k))) ->
  taylor_estimate C v node dx dy == quadratic a b c d e f dx dy.
Proof.
  intros H0 Hk. unfold taylor_estimate. cbv zeta.
  rewrite !Hk, H0. unfold quadratic. cbn [node_dcol node_drow Z.opp].
  unfold inject_Z. field.
Qed.

Lemma taylor_estimate_exact_on_quadratics_witness :
  taylor_estimate ramp_info (u ramp_info) (row_col_to_node 1 1 (current_mx ramp_info))
    (1 # 3) (1 # 4)
  == quadratic 1 1 0 0 0 0 (1 # 3) (1 # 4).
Proof.
  apply (taylor_estimate_exact_on_quadratics ramp_info (u ramp_info)
           (row_col_to_node 1 1 (current_mx ramp_info)) 1 1 0 0 0 0 (1 # 3) (1 # 4)).
  - vm_compute. reflexivity.
  - intros k. destruct k; vm_compute; reflexivity.
Defined.

(** ** The point of a breakline edge closest to a node *)

Lemma Qsquares_nonzero (x y : Q) : ~ x == 0 -> ~ x * x + y * y == 0.
Proof.
  intros Hx H. pose proof (Qsquare_nonneg y).
  assert (0 < x * x) by (destruct (Qlt_le_dec x 0); [|assert (0 < x) by lra]; nra).
  lra.
Qed.

(** In its general case (an edge that is neither vertical nor horizontal)
    [surface_find_closest_point] returns, when it returns a point at all,
    the foot of the perpendicular from the node (x0, y0) to the line through
    the two vertices: the point lies on that line, the vector from the node
    to it is orthogonal to the edge, its z is interpolated linearly along
    the edge, it lies within half a cell of the node in x and in y, and r is
    its distance from the node as [hypot] gives it. *)
Theorem closest_point_is_foot_of_perpendicular
    (is_zero : Q -> bool) (hypot : Q -> Q -> Q)
    (xm ym zm xk yk zk x0 y0 half_dx half_dy r xx yy zz : Q) :
  (forall x, is_zero x = false -> ~ x == 0) ->
  is_zero (xk - xm) = false -> is_zero (yk - ym) = false ->
  surface_find_closest_point is_zero hypot (xm, ym, zm) (xk, yk, zk)
    x0 y0 half_dx half_dy = Some (r, (xx, yy, zz)) ->
  (yy - yk) * (xk - xm) == (xx - xk) * (yk - ym) /\
  (xx - x0) * (xk - xm) + (yy - y0) * (yk - ym) == 0 /\
  (zz - zm) * (xk - xm) == (zk - zm) * (xx - xm) /\
  Qabs (xx - x0) < half_dx /\ Qabs (yy - y0) < half_dy /\
  r = hypot (xx - x0) (yy - y0).
Proof.
  intros Hz Hdx Hdy. unfold surface_find_closest_point. rewrite Hdx, Hdy. cbv zeta.
  apply Hz in Hdx, Hdy.
  pose proof (Qsquares_nonzero _ (xk - xm) Hdy) as Hsq.
  destruct (_ || _); [|discriminate].
  destruct (Qltb _ half_dx && Qltb _ half_dy) eqn:Hbin; [|discriminate].
  intros [= <- <- <- <-].
  apply andb_true_iff in Hbin. destruct Hbin as [H1 H2].
  apply Qltb_lt in H1, H2.
  split; [|split; [|split; [|split; [exact H1|split; [exact H2|reflexivity]]]]].
  - field. repeat split; auto.
  - field. repeat split; auto.
  - field. repeat split; auto.
Qed.

Lemma is_zero_conv8_sound (x : Q) : is_zero_conv8 x = false -> ~ x == 0.
Proof.
  unfold is_zero_conv8. intros H E. apply Qltb_ge in H. rewrite E in H.
  vm_compute in H. apply H. reflexivity.
Qed.

Lemma closest_point_is_foot_of_perpendicular_witness :
  ((96 # 128) - 2) * (2 - 0) == ((48 # 64) - 2) * (2 - 0) /\
  ((48 # 64) - 1) * (2 - 0) + ((96 # 128) - (1 # 2)) * (2 - 0) == 0 /\
  ((224 # 128) - 1) * (2 - 0) == (3 - 1) * ((48 # 64) - 0) /\
  Qabs ((48 # 64) - 1) < 1 # 2 /\ Qabs ((96 # 128) - (1 # 2)) < 1 # 2 /\
  (353553390 # 1000000000) = hypot_down ((48 # 64) - 1) ((96 # 128) - (1 # 2)).
Proof.
  apply (closest_point_is_foot_of_perpendicular is_zero_conv8 hypot_down
           0 0 1 2 2 3 1 (1 # 2) (1 # 2) (1 # 2)).
  - exact is_zero_conv8_sound.
  - vm_compute. reflexivity.
  - vm_compute. reflexivity.
  - vm_compute. reflexivity.
Defined.

(** ** A plane is stationary *)

Section PlaneOnGrid.

Variable C : SURFACE_INFO.
Variables a b g : Q.
Hypothesis Hgeo : geometry_ok C.
Hypothesis Hnx : (1 <= current_nx C)%Z.

Lemma plane_at_node (v : Z -> Q) (r c : Z) :
  plane_on_grid C a b g v -> (-2 <= c < current_nx C + 2)%Z ->
  v (row_col_to_node r c (current_mx C)) == a + b * inject_Z c + g * inject_Z r.
Proof.
  intros Hv Hc. rewrite (Hv _). pose proof (proj1 Hgeo) as Hmx.
  unfold row_col_to_node.
  replace ((r + 2) * current_mx C + c + 2)%Z with ((c + 2) + (r + 2) * current_mx C)%Z by lia.
  rewrite Z_mod_plus_full, Z_div_plus_full by lia.
  rewrite Z.mod_small, Z.div_small by lia.
  replace (c + 2 - 2)%Z with c by lia. replace (0 + (r + 2) - 2)%Z with r by lia.
  reflexivity.
Qed.

Lemma upd_plane (v : Z -> Q) (r c : Z) (x : Q) :
  plane_on_grid C a b g v -> (-2 <= c < current_nx C + 2)%Z ->
  x == a + b * inject_Z c + g * inject_Z r ->
  plane_on_grid C a b g (upd v (row_col_to_node r c (current_mx C)) x).
Proof.
  intros Hv Hc Hx m. unfold upd.
  destruct (Z.eqb_spec m (row_col_to_node r c (current_mx C))) as [->|_]; [|apply Hv].
  rewrite Hx. symmetry.
  apply (plane_at_node (fun n => a + b * inject_Z (n mod current_mx C - 2)
                                 + g * inject_Z (n / current_mx C - 2))); [|exact Hc].
  intros n. reflexivity.
Qed.

End PlaneOnGrid.

Ltac plane_step C a b g Hgeo Hnx solve_value :=
  lazymatch goal with
  | |- plane_on_grid C a b g (upd ?v (row_col_to_node ?r ?c _) ?x) =>
      apply (upd_plane C a b g Hgeo Hnx);
      [ plane_step C a b g Hgeo Hnx solve_value
      | lia
      | plane_values C a b g Hgeo Hnx solve_value; solve_value ]
  | |- _ => assumption
  end
with plane_values C a b g Hgeo Hnx solve_value :=
  repeat match goal with
         | |- context [upd ?v ?n ?x (row_col_to_node ?r ?c ?m)] =>
             let E := fresh "E" in
             assert (E : plane_on_grid C a b g (upd v n x))
               by (plane_step C a b g Hgeo Hnx solve_value);
             rewrite (plane_at_node C a b g Hgeo Hnx (upd v n x) r c E) by lia; clear E
         | Ha : plane_on_grid C a b g ?w |- context [?w (row_col_to_node ?r ?c ?m)] =>
             rewrite (plane_at_node C a b g Hgeo Hnx w r c Ha) by lia
         end.

Ltac Q_of_Z :=
  unfold Z.sub; rewrite ?inject_Z_plus, ?inject_Z_opp; unfold inject_Z.

Section PlaneBCs.

Variable C : SURFACE_INFO.
Variables a b g : Q.
Hypothesis Hgeo : geometry_ok C.
Hypothesis Hnx : (1 <= current_nx C)%Z.
Hypothesis Hper : periodic C = false.
Hypothesis Htension : boundary_tension C == 0.
Hypothesis Halpha : ~ alpha C == 0.
Hypothesis Hem : two_plus_em2 C == 2 + 2 * eps_m2 C.
Hypothesis Hep : two_plus_ep2 C == 2 + 2 * eps_p2 C.

Lemma set_BC1_south_north_plane (v : Z -> Q) :
  plane_on_grid C a b g v -> plane_on_grid C a b g (set_BC1_south_north C v).
Proof.
  intros Hv. unfold set_BC1_south_north. cbv zeta.
  apply fold_left_invariant; [exact Hv|].
  intros w col Hcol Hw. apply In_Zrange in Hcol.
  rewrite (south_edge_node C col Hgeo), (north_edge_node C col Hgeo).
  rewrite !(neighbour_node C _ _ _ Hgeo). cbn [node_drow node_dcol].
  plane_step C a b g Hgeo Hnx ltac:(Q_of_Z; rewrite Htension; field; exact Halpha).
Qed.

Lemma set_BC1_west_east_plane (v : Z -> Q) :
  plane_on_grid C a b g v -> plane_on_grid C a b g (set_BC1_west_east C v).
Proof.
  intros Hv. unfold set_BC1_west_east. cbv zeta. rewrite Hper.
  apply fold_left_invariant; [exact Hv|].
  intros w row _ Hw.
  rewrite (west_edge_node C row Hgeo), (east_edge_node C row Hgeo).
  rewrite !(neighbour_node C _ _ _ Hgeo). cbn [node_drow node_dcol].
  plane_step C a b g Hgeo Hnx ltac:(Q_of_Z; rewrite Htension; field).
Qed.

Lemma corner_nodes :
  node_sw_corner C = row_col_to_node (current_ny C - 1) 0 (current_mx C) /\
  node_nw_corner C = row_col_to_node 0 0 (current_mx C) /\
  node_se_corner C = row_col_to_node (current_ny C - 1) (current_nx C - 1) (current_mx C) /\
  node_ne_corner C = row_col_to_node 0 (current_nx C - 1) (current_mx C).
Proof.
  destruct Hgeo as (Hmx & Hnw & Hsw & Hse & Hne & _).
  unfold row_col_to_node. repeat split; lia.
Qed.

Lemma set_BC_corners_plane (v : Z -> Q) :
  plane_on_grid C a b g v -> plane_on_grid C a b g (set_BC_corners C v).
Proof.
  intros Hv. unfold set_BC_corners. cbv zeta.
  destruct corner_nodes as (-> & -> & -> & ->).
  rewrite !(neighbour_node C _ _ _ Hgeo). cbn [node_drow node_dcol].
  plane_step C a b g Hgeo Hnx ltac:(Q_of_Z; ring).
Qed.

Lemma set_BC2_south_north_plane (v : Z -> Q) :
  plane_on_grid C a b g v -> plane_on_grid C a b g (set_BC2_south_north C v).
Proof.
  intros Hv. unfold set_BC2_south_north.
  apply fold_left_invariant; [exact Hv|].
  intros w col Hcol Hw. apply In_Zrange in Hcol. unfold BC2_south_north_body. cbv zeta.
  rewrite (south_edge_node C col Hgeo), (north_edge_node C col Hgeo).
  rewrite !(neighbour_node C _ _ _ Hgeo). cbn [node_drow node_dcol].
  plane_step C a b g Hgeo Hnx ltac:(Q_of_Z; rewrite Hem; ring).
Qed.

Lemma set_BC2_west_east_plane (v : Z -> Q) :
  plane_on_grid C a b g v -> plane_on_grid C a b g (set_BC2_west_east C v).
Proof.
  intros Hv. unfold set_BC2_west_east.
  apply fold_left_invariant; [exact Hv|].
  intros w row _ Hw. unfold BC2_west_east_body. cbv zeta. rewrite Hper.
  rewrite (west_edge_node C row Hgeo), (east_edge_node C row Hgeo).
  rewrite !(neighbour_node C _ _ _ Hgeo). cbn [node_drow node_dcol].
  plane_step C a b g Hgeo Hnx ltac:(Q_of_Z; rewrite Hep; ring).
Qed.

Lemma set_BCs_plane (v : Z -> Q) :
  plane_on_grid C a b g v -> plane_on_grid C a b g (surface_set_BCs C v).
Proof.
  intros Hv. unfold surface_set_BCs.
  apply set_BC2_west_east_plane, set_BC2_south_north_plane,
    set_BC_corners_plane, set_BC1_west_east_plane,
    set_BC1_south_north_plane, Hv.
Qed.

End PlaneBCs.

Lemma plane_coefficient_sum (C0 : SURFACE_INFO) (f : surface_nodes -> Q) (p b g : Q) :
  let loose := 1 - interior_tension C0 in
  let a2 := alpha C0 * alpha C0 in
  ~ (6 * (a2 * a2) * loose + 10 * a2 * loose + 8 * loose - 2 * (1 + a2))
      + 4 * interior_tension C0 * (1 + a2) == 0 ->
  (forall k, f k == p + b * inject_Z (node_dcol k) + g * inject_Z (node_drow k)) ->
  fold_left (fun acc k =>
      acc + f k * coeff (surface_set_coefficients C0) SURFACE_UNCONSTRAINED k)
    all_nodes 0 == p.
Proof.
  intros loose a2 Hd Hf.
  unfold surface_set_coefficients, all_nodes.
  cbn [coeff set_coeff fold_left].
  change (SURFACE_UNCONSTRAINED =? SURFACE_CONSTRAINED)%Z with false. cbv iota.
  rewrite !Hf. cbn [node_dcol node_drow]. unfold inject_Z.
  fold a2. subst loose. clearbody a2.
  field. exact Hd.
Qed.

Section PlaneSweep.

Variable C0 : SURFACE_INFO.
Variables a b g : Q.

Let C := surface_set_coefficients C0.

Hypothesis Hgeo : geometry_ok C0.
Hypothesis Hnx : (1 <= current_nx C0)%Z.
Hypothesis Hd :
  let loose := 1 - interior_tension C0 in
  let a2 := alpha C0 * alpha C0 in
  ~ (6 * (a2 * a2) * loose + 10 * a2 * loose + 8 * loose - 2 * (1 + a2))
      + 4 * interior_tension C0 * (1 + a2) == 0.
Hypothesis Hrelax : relax_old C0 + relax_new C0 == 1.
Hypothesis Hcon : constrained C0 = false.

Lemma iterate_node_plane (st : sweep_state) (row col : Z) :
  (0 <= col < current_nx C0)%Z ->
  (let s := status C0 (node_nw_corner C0 + row * current_mx C0 + col)%Z in
   s = SURFACE_IS_UNCONSTRAINED \/ s = SURFACE_IS_CONSTRAINED) ->
  plane_on_grid C0 a b g (sw_u st) /\ sw_max_u_change st <= 0 ->
  plane_on_grid C0 a b g (sw_u (iterate_node C st (row, col))) /\
  sw_max_u_change (iterate_node C st (row, col)) <= 0.
Proof.
  intros Hcol Hs [Hu Hm]. unfold iterate_node.
  change (status C) with (status C0). change (node_nw_corner C) with (node_nw_corner C0).
  change (current_mx C) with (current_mx C0). change (constrained C) with (constrained C0).
  change (relax_old C) with (relax_old C0). change (relax_new C) with (relax_new C0).
  change (offset C) with (offset C0).
  cbv zeta in Hs. destruct Hs as [-> | ->].
  - change (SURFACE_IS_UNCONSTRAINED =? SURFACE_IS_CONSTRAINED)%Z with false.
    change (SURFACE_IS_UNCONSTRAINED =? SURFACE_IS_UNCONSTRAINED)%Z with true.
    cbv iota zeta.
    change (SURFACE_UNCONSTRAINED =? SURFACE_CONSTRAINED)%Z with false.
    cbv iota. rewrite Hcon. cbn [sw_u sw_max_u_change].
    assert (Hnode : (node_nw_corner C0 + row * current_mx C0 + col)%Z
                    = row_col_to_node row col (current_mx C0)).
    { destruct Hgeo as (_ & Hnw & _). unfold row_col_to_node. lia. }
    rewrite Hnode.
    set (node := row_col_to_node row col (current_mx C0)).
    set (p := a + b * inject_Z col + g * inject_Z row).
    assert (Hp : sw_u st node == p).
    { unfold node, p. apply (plane_at_node C0 a b g Hgeo Hnx); [exact Hu|lia]. }
    assert (Hsum : fold_left (fun acc k =>
                       acc + sw_u st (node + offset C0 k)%Z * coeff C SURFACE_UNCONSTRAINED k)
                     all_nodes 0 == p).
    { apply (plane_coefficient_sum C0 (fun k => sw_u st (node + offset C0 k)%Z) p b g Hd).
      intros k. unfold node. rewrite (neighbour_node C0 _ _ _ Hgeo).
      rewrite (plane_at_node C0 a b g Hgeo Hnx _ _ _ Hu) by (destruct k; cbn; lia).
      unfold p. rewrite !inject_Z_plus. ring. }
    assert (Hnew : sw_u st node * relax_old C0
                   + fold_left (fun acc k =>
                       acc + sw_u st (node + offset C0 k)%Z * coeff C SURFACE_UNCONSTRAINED k)
                     all_nodes 0 * relax_new C0 == p).
    { rewrite Hsum, Hp.
      setoid_replace (p * relax_old C0 + p * relax_new C0)
        with (p * (relax_old C0 + relax_new C0)) by ring.
      rewrite Hrelax. ring. }
    split.
    + unfold node. apply (upd_plane C0 a b g Hgeo Hnx); [exact Hu|lia|exact Hnew].
    + match goal with
      | |- (if Qltb _ ?ch then _ else _) <= 0 =>
          destruct (Qltb (sw_max_u_change st) ch); [|exact Hm]
      end.
      rewrite Hnew, Hp.
      setoid_replace (p - p) with 0 by ring.
      cbn. apply Qle_refl.
  - change (SURFACE_IS_CONSTRAINED =? SURFACE_IS_CONSTRAINED)%Z with true.
    cbv iota. split; assumption.
Qed.

End PlaneSweep.

(** A plane is stationary.  On a grid that is not periodic, with no
    boundary tension, the coefficients of [surface_set_coefficients],
    relaxation weights that add up to one, no bound grids, and every node of
    the current grid either unconstrained or fixed: an array that holds a
    plane a + b * col + g * row, the halo included, is left unchanged by the
    boundary conditions and by the relaxation of every node, so
    [surface_iterate] returns after a single pass with that plane. *)
Theorem plane_is_stationary (C0 : SURFACE_INFO) (a b g : Q) (mode : Z) :
  let C := surface_set_coefficients C0 in
  let loose := 1 - interior_tension C in
  let a2 := alpha C * alpha C in
  geometry_ok C -> (1 <= current_nx C)%Z ->
  periodic C = false -> boundary_tension C == 0 -> ~ alpha C == 0 ->
  ~ (6 * (a2 * a2) * loose + 10 * a2 * loose + 8 * loose - 2 * (1 + a2))
      + 4 * interior_tension C * (1 + a2) == 0 ->
  relax_old C + relax_new C == 1 ->
  constrained C = false ->
  (forall row col, (0 <= row < current_ny C)%Z -> (0 <= col < current_nx C)%Z ->
     let s := status C (node_nw_corner C + row * current_mx C + col)%Z in
     s = SURFACE_IS_UNCONSTRAINED \/ s = SURFACE_IS_CONSTRAINED) ->
  plane_on_grid C a b g (u C) ->
  0 <= converge_limit C -> 0 <= z_rms C -> (1 <= current_stride C)%Z ->
  exists C', surface_iterate C mode = Some (C', 1%Z) /\ plane_on_grid C a b g (u C').
Proof.
  intros C loose a2 Hgeo Hnx Hper Hten Halpha Hd Hrelax Hcon Hst Hv Hlim Hz Hstride.
  assert (Hsweep : plane_on_grid C a b g (sw_u (surface_sweep C (u C))) /\
                   sw_max_u_change (surface_sweep C (u C)) <= 0).
  { unfold surface_sweep.
    apply (fold_left_invariant
             (fun st => plane_on_grid C a b g (sw_u st) /\ sw_max_u_change st <= 0)).
    - cbn [sw_u sw_max_u_change]. split; [|discriminate].
      apply set_BCs_plane; try assumption.
      + unfold C, surface_set_coefficients. cbn [two_plus_em2 eps_m2 set_coeff]. reflexivity.
      + unfold C, surface_set_coefficients. cbn [two_plus_ep2 eps_p2 set_coeff]. reflexivity.
    - intros st [row col] Hin Hinv. apply In_grid_nodes in Hin. destruct Hin as [Hr Hc].
      apply (iterate_node_plane C0 a b g Hgeo Hnx Hd Hrelax Hcon st row col Hc);
        [|exact Hinv].
      exact (Hst row col Hr Hc). }
  destruct Hsweep as [Hu Hm].
  exists (after_passes C 1). split.
  - unfold surface_iterate.
    change (surface_iterate_loop (Z.to_nat (current_max_iterations C)) C 0%Z)
      with (surface_iterate_loop (Z.to_nat (current_max_iterations C))
              (after_passes C 0) (Z.of_nat 0)).
    rewrite surface_iterate_loop_unfold.
    assert (Hfin : finished_after C 1 = true).
    { unfold finished_after. apply orb_true_iff. left. apply Qleb_le.
      change (after_passes C (1 - 1)) with C. unfold max_z_change.
      apply Qle_trans with 0.
      - setoid_replace 0 with (0 * z_rms C) by ring.
        apply Qmult_le_compat_r; assumption.
      - apply Qle_shift_div_l.
        + change 0 with (inject_Z 0). rewrite <- Zlt_Qlt. lia.
        + setoid_replace (0 * inject_Z (current_stride C)) with 0 by ring. exact Hlim. }
    rewrite Hfin. reflexivity.
  - exact Hu.
Qed.

Lemma plane_is_stationary_witness :
  exists C', surface_iterate ramp_info GRID_NODES = Some (C', 1%Z) /\
             plane_on_grid ramp_info 0 1 0 (u C').
Proof.
  apply (plane_is_stationary
           (surface_set_offset
              (surface_set_grid_parameters
                 (base_info 4 4 1 false [] (fun node => inject_Z (node mod 8 - 2)))))
           0 1 0 GRID_NODES).
  - apply geometry_of_setup.
  - vm_compute. discriminate.
  - reflexivity.
  - vm_compute. reflexivity.
  - vm_compute. discriminate.
  - vm_compute. discriminate.
  - vm_compute. reflexivity.
  - reflexivity.
  - intros row col _ _. left. reflexivity.
  - intros n. change (inject_Z (n mod 8 - 2) == 0 + 1 * inject_Z (n mod 8 - 2)
                                                  + 0 * inject_Z (n / 8 - 2)). ring.
  - vm_compute. discriminate.
  - vm_compute. discriminate.
  - vm_compute. discriminate.
Defined.

(** ** The misfit of planar data *)

Lemma taylor_estimate_on_plane (C : SURFACE_INFO) (a b g : Q) (v : Z -> Q)
    (row col : Z) (dx dy : Q) :
  geometry_ok C -> (1 <= current_nx C)%Z -> (0 <= col < current_nx C)%Z ->
  plane_on_grid C a b g v ->
  taylor_estimate C v (row_col_to_node row col (current_mx C)) dx dy
  == a + b * (inject_Z col + dx) + g * (inject_Z row - dy).
Proof.
  intros Hgeo Hnx Hcol Hv. unfold taylor_estimate. cbv zeta.
  rewrite !(neighbour_node C _ _ _ Hgeo). cbn [node_drow node_dcol].
  rewrite !(plane_at_node C a b g Hgeo Hnx v _ _ Hv) by lia.
  rewrite !inject_Z_plus.
  repeat match goal with |- context [inject_Z (Zpos ?p)] =>
    change (inject_Z (Zpos p)) with (Zpos p # 1) end.
  repeat match goal with |- context [inject_Z (Zneg ?p)] =>
    change (inject_Z (Zneg p)) with (Zneg p # 1) end.
  repeat match goal with |- context [inject_Z 0] =>
    change (inject_Z 0) with (0 # 1) end.
  field.
Qed.

(** On a grid that holds a plane (halo included; no boundary tension, not
    periodic, final stride) the misfit that [surface_check_errors] reports
    for data lying on that plane vanishes: the sum of the misfits and the
    sum of their squares are both zero, so the mean misfit is zero and the
    figure handed to [sqrt] is zero. *)
Theorem misfit_of_planar_data_vanishes (sqrt : Q -> Q) (C : SURFACE_INFO) (a b g : Q) :
  geometry_ok C -> (1 <= current_nx C)%Z ->
  periodic C = false -> boundary_tension C == 0 -> ~ alpha C == 0 ->
  two_plus_em2 C == 2 + 2 * eps_m2 C -> two_plus_ep2 C == 2 + 2 * eps_p2 C ->
  n_columns C = current_nx C -> mx C = current_mx C ->
  plane_on_grid C a b g (u C) ->
  (forall d, In d (data C) -> (0 <= index d)%Z /\ datum_on_plane C a b g d) ->
  fst (surface_check_errors_misfit sqrt C) == 0 /\
  exists s, s == 0 /\ snd (surface_check_errors_misfit sqrt C) = sqrt s.
Proof.
  intros Hgeo Hnx Hper Hten Halpha Hem Hep Hnc Hmx Hv Hdata.
  unfold surface_check_errors_misfit. cbv zeta. cbn [fst snd].
  set (v := surface_set_BCs C (u C)).
  assert (Hpv : plane_on_grid C a b g v) by (apply set_BCs_plane; assumption).
  match goal with
  | |- context [fold_left ?f (data C) (0, 0)] =>
      assert (Hsums : fst (fold_left f (data C) (0, 0)) == 0 /\
                      snd (fold_left f (data C) (0, 0)) == 0)
  end.
  { apply (fold_left_invariant (fun acc : Q * Q => fst acc == 0 /\ snd acc == 0));
      [split; reflexivity|].
    intros acc d Hd [H1 H2]. destruct (Hdata d Hd) as [Hi Hon].
    destruct (status C _ =? SURFACE_IS_CONSTRAINED)%Z; [split; assumption|].
    cbn [fst snd]. rewrite Hmx, Hnc.
    assert (Hcol : (0 <= index_to_col (index d) (current_nx C) < current_nx C)%Z).
    { unfold index_to_col. pose proof (Z.rem_bound_pos (index d) (current_nx C)). lia. }
    rewrite (taylor_estimate_on_plane C a b g v _ _ _ _ Hgeo Hnx Hcol Hpv).
    unfold datum_on_plane in Hon. cbv zeta in Hon. rewrite Hnc in Hon.
    rewrite Hon, H1, H2. split; ring. }
  destruct Hsums as [H1 H2]. split.
  - rewrite H1. unfold Qdiv. ring.
  - eexists. split; [|reflexivity]. rewrite H2. unfold Qdiv. ring.
Qed.

Lemma misfit_of_planar_data_vanishes_witness :
  fst (surface_check_errors_misfit sqrt_down ramp_data_info) == 0.
Proof.
  refine (proj1 (misfit_of_planar_data_vanishes sqrt_down ramp_data_info 0 1 0
                   _ _ _ _ _ _ _ _ _ _ _)).
  - apply geometry_of_setup.
  - vm_compute. discriminate.
  - reflexivity.
  - vm_compute. reflexivity.
  - vm_compute. discriminate.
  - vm_compute. reflexivity.
  - vm_compute. reflexivity.
  - vm_compute. reflexivity.
  - vm_compute. reflexivity.
  - intros n. change (inject_Z (n mod 8 - 2) == 0 + 1 * inject_Z (n mod 8 - 2)
                                                  + 0 * inject_Z (n / 8 - 2)). ring.
  - intros d Hd.
    replace (data ramp_data_info) with ramp_data in Hd by (vm_compute; reflexivity).
    destruct Hd as [<- | [<- | []]]; split; vm_compute; discriminate || reflexivity.
Defined.

(** ** The plane fitted to the data *)

Section Sums.

Context {A : Type}.

Lemma fold_sum_shift (f : A -> Q) (l : list A) (x : Q) :
  fold_left (fun acc d => acc + f d) l x == x + fold_left (fun acc d => acc + f d) l 0.
Proof.
  revert x. induction l as [|d l IH]; intros x; cbn [fold_left]; [ring|].
  rewrite (IH (x + f d)), (IH (0 + f d)). ring.
Qed.

Lemma fold_sum_cons (f : A -> Q) (d : A) (l : list A) :
  fold_left (fun acc d => acc + f d) (d :: l) 0
  == f d + fold_left (fun acc d => acc + f d) l 0.
Proof. cbn [fold_left]. rewrite fold_sum_shift. ring. Qed.

Lemma fold_sum_map {B : Type} (m : B -> A) (f : A -> Q) (l : list B) (x : Q) :
  fold_left (fun acc d => acc + f d) (map m l) x
  = fold_left (fun acc d => acc + f (m d)) l x.
Proof. revert x. induction l as [|d l IH]; intros x; cbn; [reflexivity|apply IH]. Qed.

(** The sum of w * (z - (a + b x + c y)) over a list, in terms of the sums
    of w z, w, w x and w y. *)
Lemma fold_sum_residual (w z x y : A -> Q) (a b c : Q) (l : list A) :
  fold_left (fun acc d => acc + w d * (z d - (a + (b * x d + c * y d)))) l 0
  == fold_left (fun acc d => acc + w d * z d) l 0
     - a * fold_left (fun acc d => acc + w d) l 0
     - b * fold_left (fun acc d => acc + w d * x d) l 0
     - c * fold_left (fun acc d => acc + w d * y d) l 0.
Proof.
  induction l as [|d l IH]; [cbn; ring|].
  rewrite !fold_sum_cons, IH. ring.
Qed.

Lemma fold_sum_ext (f g : A -> Q) (l : list A) :
  (forall d, f d == g d) ->
  fold_left (fun acc d => acc + f d) l 0 == fold_left (fun acc d => acc + g d) l 0.
Proof.
  intros H. induction l as [|d l IH]; [reflexivity|].
  rewrite !fold_sum_cons, IH, H. reflexivity.
Qed.

Lemma fold_sum_one (l : list A) :
  fold_left (fun acc _ => acc + 1) l 0 == inject_Z (Z.of_nat (length l)).
Proof.
  induction l as [|d l IH]; [reflexivity|].
  rewrite (fold_sum_cons (fun _ => 1)), IH. cbn [length].
  rewrite Nat2Z.inj_succ. unfold Z.succ. rewrite inject_Z_plus. ring.
Qed.

End Sums.

(** [surface_remove_planar_trend] removes the least-squares plane: when the
    determinant of the normal equations does not vanish and the grid is not
    periodic, the residuals it leaves in the data satisfy the three normal
    equations: they add up to zero, and so do their products with the
    column and with the row coordinate of the data. *)
Theorem detrended_data_satisfy_normal_equations (C : SURFACE_INFO) :
  let fcol := fun d => x_to_fcol (d_x d) (h_wesn C XLO) (h_r_inc C GMT_X) in
  let frow := fun d => y_to_frow (d_y d) (h_wesn C YLO) (h_r_inc C GMT_Y) in
  let sum := fun (f : SURFACE_DATA -> Q) l => fold_left (fun acc d => acc + f d) l 0 in
  let n := inject_Z (Z.of_nat (length (data C))) in
  periodic C = false ->
  ~ n * sum (fun d => fcol d * fcol d) (data C) * sum (fun d => frow d * frow d) (data C)
    + 2 * sum fcol (data C) * sum frow (data C) * sum (fun d => fcol d * frow d) (data C)
    - n * sum (fun d => fcol d * frow d) (data C) * sum (fun d => fcol d * frow d) (data C)
    - sum fcol (data C) * sum fcol (data C) * sum (fun d => frow d * frow d) (data C)
    - sum frow (data C) * sum frow (data C) * sum (fun d => fcol d * fcol d) (data C)
    == 0 ->
  let C' := surface_remove_planar_trend C in
  sum d_z (data C') == 0 /\
  sum (fun d => fcol d * d_z d) (data C') == 0 /\
  sum (fun d => frow d * d_z d) (data C') == 0.
Proof.
  intros fcol frow sum n Hper Hd C'.
  set (sx := sum fcol (data C)) in *.
  set (sy := sum frow (data C)) in *.
  set (sz := sum d_z (data C)).
  set (sxx := sum (fun d => fcol d * fcol d) (data C)) in *.
  set (sxy := sum (fun d => fcol d * frow d) (data C)) in *.
  set (sxz := sum (fun d => fcol d * d_z d) (data C)).
  set (syy := sum (fun d => frow d * frow d) (data C)) in *.
  set (syz := sum (fun d => frow d * d_z d) (data C)).
  set (dd := n * sxx * syy + 2 * sx * sy * sxy - n * sxy * sxy
             - sx * sx * syy - sy * sy * sxx) in *.
  set (pa := (sz * sxx * syy + sx * sxy * syz + sy * sxy * sxz - sz * sxy * sxy
              - sx * sxz * syy - sy * syz * sxx) / dd).
  set (pb := (n * sxz * syy + sz * sy * sxy + sy * sx * syz - n * sxy * syz
              - sz * sx * syy - sy * sy * sxz) / dd).
  set (pc := (n * sxx * syz + sx * sy * sxz + sz * sx * sxy - n * sxy * sxz
              - sx * sx * syz - sz * sy * sxx) / dd).
  assert (Hform : data C' =
            if Qeqb dd 0 then data C
            else map (fun k => mkData (d_x k) (d_y k)
                                 (d_z k - (pa + ((if periodic C then 0 else pb) * fcol k
                                                 + pc * frow k)))
                                 (kind k) (index k)) (data C)).
  { unfold C', surface_remove_planar_trend. cbv zeta.
    change (Qeqb _ 0) with (Qeqb dd 0).
    destruct (Qeqb dd 0); reflexivity. }
  rewrite Hform. clear Hform.
  destruct (Qeqb dd 0) eqn:E; [apply Qeqb_eq in E; contradiction|].
  rewrite Hper. unfold sum at 1 2 3.
  rewrite !fold_sum_map.
  change (fold_left (fun acc d => acc + (d_z d - (pa + (pb * fcol d + pc * frow d))))
            (data C) 0 == 0 /\
          fold_left (fun acc d =>
              acc + fcol d * (d_z d - (pa + (pb * fcol d + pc * frow d)))) (data C) 0 == 0 /\
          fold_left (fun acc d =>
              acc + frow d * (d_z d - (pa + (pb * fcol d + pc * frow d)))) (data C) 0 == 0).
  assert (H1 : fold_left (fun acc d => acc + (d_z d - (pa + (pb * fcol d + pc * frow d))))
                 (data C) 0
               == sz - pa * n - pb * sx - pc * sy).
  { rewrite (fold_sum_ext _ (fun d => 1 * (d_z d - (pa + (pb * fcol d + pc * frow d)))))
      by (intros; ring).
    rewrite (fold_sum_residual (fun _ => 1) d_z fcol frow pa pb pc).
    rewrite (fold_sum_ext (fun d => 1 * d_z d) d_z) by (intros; ring).
    rewrite (fold_sum_ext (fun d => 1 * fcol d) fcol) by (intros; ring).
    rewrite (fold_sum_ext (fun d => 1 * frow d) frow) by (intros; ring).
    rewrite fold_sum_one. reflexivity. }
  assert (H2 : fold_left (fun acc d =>
                   acc + fcol d * (d_z d - (pa + (pb * fcol d + pc * frow d))))
                 (data C) 0
               == sxz - pa * sx - pb * sxx - pc * sxy).
  { rewrite (fold_sum_residual fcol d_z fcol frow pa pb pc). reflexivity. }
  assert (H3 : fold_left (fun acc d =>
                   acc + frow d * (d_z d - (pa + (pb * fcol d + pc * frow d))))
                 (data C) 0
               == syz - pa * sy - pb * sxy - pc * syy).
  { rewrite (fold_sum_residual frow d_z fcol frow pa pb pc).
    rewrite (fold_sum_ext (fun d => frow d * fcol d) (fun d => fcol d * frow d))
      by (intros; ring).
    reflexivity. }
  rewrite H1, H2, H3. unfold pa, pb, pc. unfold dd in *.
  clearbody sx sy sz sxx sxy sxz syy syz n.
  repeat split; field; exact Hd.
Qed.

Lemma detrended_data_satisfy_normal_equations_witness :
  fold_left (fun acc d => acc + d_z d)
    (data (surface_remove_planar_trend (plane_info false))) 0 == 0.
Proof.
  refine (proj1 (detrended_data_satisfy_normal_equations (plane_info false) _ _)).
  - reflexivity.
  - vm_compute. discriminate.
Defined.

(** ** The normalisation of the residuals *)

Lemma fold_sum_scale {A : Type} (f : A -> Q) (k : Q) (l : list A) :
  fold_left (fun acc d => acc + k * f d) l 0
  == k * fold_left (fun acc d => acc + f d) l 0.
Proof.
  induction l as [|d l IH]; [cbn; ring|].
  rewrite (fold_sum_cons (fun d => k * f d)), (fold_sum_cons f), IH. ring.
Qed.

(** When the root-mean-square z_rms of the residuals is not below 1e-8 (and
    [sqrt] is exact on their mean square), [surface_rescale_z_values]
    reports 0, stores z_rms and its reciprocal, and divides every residual
    by z_rms: multiplying back by z_rms recovers the residuals, and the
    squares of the new residuals add up to the number of data, so their
    root-mean-square is one. *)
Theorem rescale_z_values_normalises (sqrt : Q -> Q) (C : SURFACE_INFO) :
  let n := inject_Z (Z.of_nat (length (data C))) in
  let ssz := fold_left (fun acc d => acc + d_z d * d_z d) (data C) 0 in
  let rms := sqrt (ssz / n) in
  GMT_CONV8_LIMIT <= rms -> rms * rms == ssz / n -> (0 < length (data C))%nat ->
  let C' := fst (surface_rescale_z_values sqrt C) in
  snd (surface_rescale_z_values sqrt C) = 0%Z /\
  z_rms C' = rms /\ z_rms C' * r_z_rms C' == 1 /\
  Forall2 (fun d' d => d_z d' * z_rms C' == d_z d /\
                       d_x d' = d_x d /\ d_y d' = d_y d /\
                       kind d' = kind d /\ index d' = index d) (data C') (data C) /\
  fold_left (fun acc d => acc + d_z d * d_z d) (data C') 0 == n.
Proof.
  intros n ssz rms Hlim Hsq Hn C'.
  assert (Hpos : 0 < rms).
  { eapply Qlt_le_trans; [|exact Hlim]. reflexivity. }
  assert (Hnz : ~ rms == 0) by (intros E; rewrite E in Hpos; discriminate).
  assert (Hnn : ~ n == 0).
  { unfold n. intros E. unfold Qeq, inject_Z in E. cbn [Qnum Qden] in E. lia. }
  assert (Hform :
    snd (surface_rescale_z_values sqrt C) = 0%Z /\
    z_rms C' = rms /\ r_z_rms C' = 1 / rms /\
    data C' = map (fun k => mkData (d_x k) (d_y k) (d_z k * (1 / rms)) (kind k) (index k))
                (data C)).
  { unfold C', surface_rescale_z_values. cbv zeta. fold ssz. fold n. fold rms.
    destruct (Qltb rms GMT_CONV8_LIMIT) eqn:E.
    { apply Qltb_lt in E. exfalso. apply (Qlt_not_le _ _ E Hlim). }
    destruct (_ || _); cbn; auto. }
  destruct Hform as (Hkey & Hz & Hr & Hdata).
  split; [exact Hkey|]. split; [exact Hz|]. rewrite Hz, Hr, Hdata. split; [|split].
  - field. exact Hnz.
  - clearbody rms. clear - Hnz.
    induction (data C) as [|d l IH]; cbn [map]; constructor; [|exact IH].
    cbn [d_x d_y d_z kind index]. repeat split. field. exact Hnz.
  - rewrite fold_sum_map. cbn [d_z].
    rewrite (fold_sum_ext _ (fun d => (1 / rms) * (1 / rms) * (d_z d * d_z d)))
      by (intros; ring).
    rewrite fold_sum_scale. fold ssz.
    assert (Hs : ssz == rms * rms * n) by (rewrite Hsq; field; exact Hnn).
    rewrite Hs. field. exact Hnz.
Qed.

Lemma rescale_z_values_normalises_witness :
  let C := base_info 4 4 1 false
             [mkData 0 0 3 0 12; mkData 1 1 (-3) 0 9] (fun _ => 0) in
  fold_left (fun acc d => acc + d_z d * d_z d)
    (data (fst (surface_rescale_z_values sqrt_down C))) 0
  == inject_Z (Z.of_nat (length (data C))).
Proof.
  refine (proj2 (proj2 (proj2 (proj2
            (rescale_z_values_normalises sqrt_down
               (base_info 4 4 1 false
                  [mkData 0 0 3 0 12; mkData 1 1 (-3) 0 9] (fun _ => 0)) _ _ _))))).
  - vm_compute. discriminate.
  - vm_compute. reflexivity.
  - vm_compute. lia.
Defined.

(** ** The grid handed to the writer *)



(** ** The bounds during the iteration *)

Lemma clip_lo_else_hi_bounds (C : SURFACE_INFO) (n : Z) (z : Q) :
  let x := clip_lo_else_hi C n z in
  (set_limit C HI <> 0%Z -> forall hi, Bound C HI n = Some hi ->
     (forall lo, set_limit C LO <> 0%Z -> Bound C LO n = Some lo -> lo <= hi) ->
     x <= hi) /\
  (set_limit C LO <> 0%Z -> forall lo, Bound C LO n = Some lo ->
     (forall hi, set_limit C HI <> 0%Z -> Bound C HI n = Some hi -> lo <= hi) ->
     lo <= x).
Proof.
  unfold clip_lo_else_hi. cbv zeta.
  destruct (Bound C LO n) as [lo|]; destruct (Bound C HI n) as [hi|];
    destruct (Z.eqb_spec (set_limit C LO) 0) as [El|El];
    destruct (Z.eqb_spec (set_limit C HI) 0) as [Eh|Eh];
    cbn [negb andb]; Qltb_cases; split; intros Hs b Hb Hx;
    try congruence; try discriminate;
    try (injection Hb as <-);
    try (specialize (Hx _ ltac:(assumption) eq_refl));
    try lra; try apply Qle_refl.
Qed.

Lemma fold_iterate_elsewhere (C : SURFACE_INFO) (l : list (Z * Z)) (st : sweep_state)
    (n : Z) :
  (forall r c, In (r, c) l -> n <> (node_nw_corner C + r * current_mx C + c)%Z) ->
  sw_u (fold_left (iterate_node C) l st) n = sw_u st n.
Proof.
  revert st. induction l as [|[r c] l IH]; intros st Hl; [reflexivity|].
  cbn [fold_left]. rewrite IH by (intros; apply Hl; now right).
  apply iterate_node_elsewhere, Hl. now left.
Qed.

(** With bound grids in effect, every node that a sweep of
    [surface_iterate] relaxes (every node of the current grid that is not
    fixed) ends the sweep within the bounds of its node of the final grid:
    not above a finite upper bound and not below a finite lower bound,
    provided the two do not cross there. *)
Theorem sweep_respects_bounds (C : SURFACE_INFO) (v : Z -> Q) (row col : Z) :
  geometry_ok C -> constrained C = true ->
  (0 <= row < current_ny C)%Z -> (0 <= col < current_nx C)%Z ->
  status C (row_col_to_node row col (current_mx C)) <> SURFACE_IS_CONSTRAINED ->
  let node_final :=
    (gmt_M_ijp (mx C) (current_stride C * row) 0 + col * current_stride C)%Z in
  let x := sw_u (surface_sweep C v) (row_col_to_node row col (current_mx C)) in
  (set_limit C HI <> 0%Z -> forall hi, Bound C HI node_final = Some hi ->
     (forall lo, set_limit C LO <> 0%Z -> Bound C LO node_final = Some lo -> lo <= hi) ->
     x <= hi) /\
  (set_limit C LO <> 0%Z -> forall lo, Bound C LO node_final = Some lo ->
     (forall hi, set_limit C HI <> 0%Z -> Bound C HI node_final = Some hi -> lo <= hi) ->
     lo <= x).
Proof.
  intros Hgeo Hcon Hrow Hcol Hst node_final x.
  pose proof (proj1 Hgeo) as Hmx.
  assert (Hnode : forall r c, (node_nw_corner C + r * current_mx C + c)%Z
                              = row_col_to_node r c (current_mx C)).
  { intros r c. destruct Hgeo as (_ & Hnw & _). unfold row_col_to_node. lia. }
  assert (Hin : In (row, col) (grid_nodes (current_ny C) (current_nx C)))
    by (apply In_grid_nodes; lia).
  destruct (in_split _ _ Hin) as (pre & post & Hsplit).
  pose proof (NoDup_grid_nodes (current_ny C) (current_nx C)) as Hnd.
  rewrite Hsplit in Hnd. apply NoDup_remove_2 in Hnd.
  assert (Hx : exists z, x = clip_lo_else_hi C node_final z).
  { unfold x, surface_sweep. rewrite Hsplit, fold_left_app. cbn [fold_left].
    rewrite fold_iterate_elsewhere.
    - unfold iterate_node. rewrite Hnode.
      apply Z.eqb_neq in Hst. rewrite Hst. cbv zeta. rewrite Hcon. cbn [sw_u].
      rewrite upd_same. eexists. reflexivity.
    - intros r c Hrc. rewrite Hnode.
      assert (Hg : In (r, c) (grid_nodes (current_ny C) (current_nx C))).
      { rewrite Hsplit. apply in_or_app. right. now right. }
      apply In_grid_nodes in Hg.
      apply row_col_to_node_neq; try lia.
      destruct (Z.eq_dec row r) as [->|]; [|now left].
      destruct (Z.eq_dec col c) as [->|]; [|now right].
      exfalso. apply Hnd, in_or_app. now right. }
  destruct Hx as [z ->]. apply clip_lo_else_hi_bounds.
Qed.

Ltac concrete_geometry :=
  unfold geometry_ok; repeat split; try (vm_compute; reflexivity);
  intros k; destruct k; vm_compute; reflexivity.

Lemma sweep_respects_bounds_witness :
  sw_u (surface_sweep clipped_info (u clipped_info))
    (row_col_to_node 1 2 (current_mx clipped_info)) <= 3.
Proof.
  refine (proj1 (sweep_respects_bounds clipped_info (u clipped_info) 1 2 _ _ _ _ _)
            _ 3 _ _).
  - concrete_geometry.
  - vm_compute. reflexivity.
  - vm_compute. split; [discriminate | reflexivity].
  - vm_compute. split; [discriminate | reflexivity].
  - vm_compute. discriminate.
  - vm_compute. discriminate.
  - vm_compute. reflexivity.
  - intros lo _ Hlo. vm_compute in Hlo. injection Hlo as <-. vm_compute. discriminate.
Defined.

(** ** The bound grids *)

Lemma transform_bound_value (C : SURFACE_INFO) (g : Z -> option Q) (row col : Z) :
  (h_n_columns C <= current_mx C - 2)%Z ->
  (0 <= row < h_n_rows C)%Z -> (0 <= col < h_n_columns C)%Z ->
  transform_bound C g (row_col_to_node row col (current_mx C))
  = match g (row_col_to_node row col (current_mx C)) with
    | None => None
    | Some b => Some ((b - evaluate_plane C (inject_Z col) (inject_Z (h_n_rows C - row - 1)))
                      * r_z_rms C)
    end.
Proof.
  intros Hm Hrow Hcol. unfold transform_bound.
  set (step := fun (g : Z -> option Q) (rc : Z * Z) => _).
  assert (Hother : forall l g0 n,
            (forall r c, In (r, c) l -> n <> row_col_to_node r c (current_mx C)) ->
            fold_left step l g0 n = g0 n).
  { induction l as [|[r c] l IH]; intros g0 n Hl; [reflexivity|].
    cbn [fold_left]. rewrite IH by (intros; apply Hl; now right).
    unfold step.
    replace (row_col_to_node r 0 (current_mx C) + c)%Z
      with (row_col_to_node r c (current_mx C)) by (unfold row_col_to_node; lia).
    destruct (g0 (row_col_to_node r c (current_mx C))); [|reflexivity].
    apply upd_other, Hl. now left. }
  assert (Hin : In (row, col) (grid_nodes (h_n_rows C) (h_n_columns C)))
    by (apply In_grid_nodes; lia).
  destruct (in_split _ _ Hin) as (pre & post & Hsplit).
  pose proof (NoDup_grid_nodes (h_n_rows C) (h_n_columns C)) as Hnd.
  rewrite Hsplit in Hnd.
  assert (Hfar : forall l, (forall r c, In (r, c) l ->
                    In (r, c) (grid_nodes (h_n_rows C) (h_n_columns C)) /\
                    (r, c) <> (row, col)) ->
                 forall r c, In (r, c) l ->
                   row_col_to_node row col (current_mx C)
                   <> row_col_to_node r c (current_mx C)).
  { intros l Hl r c Hrc. destruct (Hl r c Hrc) as [Hg Hne].
    apply In_grid_nodes in Hg. apply row_col_to_node_neq; try lia.
    destruct (Z.eq_dec row r) as [->|]; [|now left].
    destruct (Z.eq_dec col c) as [->|]; [|now right]. congruence. }
  rewrite Hsplit, fold_left_app. cbn [fold_left].
  rewrite Hother.
  - unfold step at 1.
    replace (row_col_to_node row 0 (current_mx C) + col)%Z
      with (row_col_to_node row col (current_mx C)) by (unfold row_col_to_node; lia).
    rewrite (Hother pre).
    + destruct (g (row_col_to_node row col (current_mx C))) eqn:Eg.
      * apply upd_same.
      * rewrite (Hother pre); [exact Eg|].
        apply Hfar. intros r c Hrc. split.
        -- rewrite Hsplit. apply in_or_app. now left.
        -- intros [= -> ->]. apply NoDup_remove_2 in Hnd. apply Hnd, in_or_app. now left.
    + apply Hfar. intros r c Hrc. split.
      * rewrite Hsplit. apply in_or_app. now left.
      * intros [= -> ->]. apply NoDup_remove_2 in Hnd. apply Hnd, in_or_app. now left.
  - apply Hfar. intros r c Hrc. split.
    + rewrite Hsplit. apply in_or_app. right. now right.
    + intros [= -> ->]. apply NoDup_remove_2 in Hnd. apply Hnd, in_or_app. now right.
Qed.

(** The transformation that [surface_load_constraints] applies to a bound
    grid is undone by [surface_restore_planar_trend]: at every node of the
    grid a NaN stays a NaN, and a finite bound b becomes b' with
    b' * z_rms + plane = b, so that the normalised solution is at or above
    (below) the transformed bound exactly when the restored solution is at
    or above (below) the bound the user gave. *)
Theorem transformed_bounds_match_restored_grid (C : SURFACE_INFO)
    (g : Z -> option Q) (row col : Z) :
  (h_n_columns C <= current_mx C - 2)%Z ->
  (0 <= row < h_n_rows C)%Z -> (0 <= col < h_n_columns C)%Z ->
  0 < z_rms C -> z_rms C * r_z_rms C == 1 ->
  let node := row_col_to_node row col (current_mx C) in
  let restored := u (surface_restore_planar_trend C) node in
  match g node with
  | None => transform_bound C g node = None
  | Some b =>
      exists b', transform_bound C g node = Some b' /\
        b' * z_rms C + evaluate_plane C (inject_Z col) (inject_Z (h_n_rows C - row - 1)) == b /\
        (b' <= u C node <-> b <= restored) /\
        (u C node <= b' <-> restored <= b)
  end.
Proof.
  intros Hm Hrow Hcol Hz Hr node restored.
  unfold restored, node. rewrite restore_planar_trend_value by assumption.
  rewrite transform_bound_value by assumption.
  destruct (g (row_col_to_node row col (current_mx C))) as [b|]; [|reflexivity].
  eexists. split; [reflexivity|].
  set (p := evaluate_plane C (inject_Z col) (inject_Z (h_n_rows C - row - 1))).
  set (x := u C (row_col_to_node row col (current_mx C))).
  assert (Hb : (b - p) * r_z_rms C * z_rms C + p == b).
  { setoid_replace ((b - p) * r_z_rms C * z_rms C) with ((b - p) * (z_rms C * r_z_rms C))
      by ring.
    rewrite Hr. ring. }
  split; [exact Hb|]. split; split; intros H.
  - rewrite <- Hb. apply Qplus_le_compat; [|apply Qle_refl].
    apply Qmult_le_compat_r; [exact H|now apply Qlt_le_weak].
  - rewrite <- Hb in H.
    apply Qplus_le_l in H. apply Qmult_le_r in H; assumption.
  - rewrite <- Hb. apply Qplus_le_compat; [|apply Qle_refl].
    apply Qmult_le_compat_r; [exact H|now apply Qlt_le_weak].
  - rewrite <- Hb in H.
    apply Qplus_le_l in H. apply Qmult_le_r in H; assumption.
Qed.

Lemma transformed_bounds_match_restored_grid_witness :
  let C := set_rms (set_plane (bounded_info false) 1 1 1) 2 (1 # 2) in
  let node := row_col_to_node 1 2 (current_mx C) in
  exists b', transform_bound C (fun _ => Some 5) node = Some b' /\
    b' * z_rms C + evaluate_plane C (inject_Z 2) (inject_Z (h_n_rows C - 1 - 1)) == 5 /\
    (b' <= u C node <-> 5 <= u (surface_restore_planar_trend C) node) /\
    (u C node <= b' <-> u (surface_restore_planar_trend C) node <= 5).
Proof.
  apply (transformed_bounds_match_restored_grid
           (set_rms (set_plane (bounded_info false) 1 1 1) 2 (1 # 2))
           (fun _ => Some 5) 1 2).
  - vm_compute. discriminate.
  - vm_compute. split; [discriminate | reflexivity].
  - vm_compute. split; [discriminate | reflexivity].
  - vm_compute. reflexivity.
  - vm_compute. reflexivity.
Defined.



(** ** Blocks of NaN in a constraint grid *)

Lemma In_Zrange_incl (r0 r1 r : Z) : In r (Zrange_incl r0 r1) <-> (r0 <= r <= r1)%Z.
Proof.
  unfold Zrange_incl. rewrite in_map_iff. split.
  - intros (k & <- & Hk). apply In_Zrange in Hk. lia.
  - intros H. exists (r - r0)%Z. split; [lia|]. apply In_Zrange. lia.
Qed.

Lemma set_NaN_value (h_mx : Z) (G : Z -> option Q) (r0 r1 c0 c1 r c : Z) :
  (-2 <= c0)%Z -> (c1 < h_mx - 2)%Z -> (-2 <= c < h_mx - 2)%Z ->
  surface_set_NaN h_mx G r0 r1 c0 c1 (gmt_M_ijp h_mx r c)
  = if ((r0 <=? r) && (r <=? r1) && (c0 <=? c) && (c <=? c1))%Z
    then None else G (gmt_M_ijp h_mx r c).
Proof.
  intros Hc0 Hc1 Hc. unfold surface_set_NaN. cbv zeta.
  assert (Hnode : forall r' c', (gmt_M_ijp h_mx r0 c0 + (r' - r0) * h_mx + (c' - c0))%Z
                                = row_col_to_node r' c' h_mx).
  { intros r' c'. unfold gmt_M_ijp, row_col_to_node. lia. }
  change (gmt_M_ijp h_mx r c) with (row_col_to_node r c h_mx).
  assert (Hcols : forall l r' (G0 : Z -> option Q),
            (forall c', In c' l -> (c0 <= c' <= c1)%Z) ->
            fold_left (fun G c' =>
                upd G (gmt_M_ijp h_mx r0 c0 + (r' - r0) * h_mx + (c' - c0))%Z None) l G0
              (row_col_to_node r c h_mx)
            = if (r' =? r)%Z && existsb (fun c' => (c' =? c)%Z) l then None
              else G0 (row_col_to_node r c h_mx)).
  { induction l as [|c' l IH]; intros r' G0 Hl.
    - cbn. now rewrite andb_false_r.
    - cbn [fold_left existsb]. rewrite IH by (intros; apply Hl; now right).
      rewrite Hnode. specialize (Hl c' (or_introl eq_refl)).
      destruct (Z.eqb_spec r' r) as [->|Hr]; cbn [andb].
      + destruct (existsb _ l); [now rewrite orb_true_r|]. rewrite orb_false_r.
        destruct (Z.eqb_spec c' c) as [->|Hcc]; [apply upd_same|].
        apply upd_other, row_col_to_node_neq; lia.
      + apply upd_other, row_col_to_node_neq; lia. }
  assert (Hrows : forall l (G0 : Z -> option Q),
            fold_left (fun G r' =>
                fold_left (fun G c' =>
                    upd G (gmt_M_ijp h_mx r0 c0 + (r' - r0) * h_mx + (c' - c0))%Z None)
                  (Zrange_incl c0 c1) G) l G0
              (row_col_to_node r c h_mx)
            = if existsb (fun r' => (r' =? r)%Z) l
                 && existsb (fun c' => (c' =? c)%Z) (Zrange_incl c0 c1)
              then None else G0 (row_col_to_node r c h_mx)).
  { induction l as [|r' l IH]; intros G0; [reflexivity|].
    cbn [fold_left existsb]. rewrite IH.
    rewrite Hcols by (intros; now apply In_Zrange_incl).
    destruct (Z.eqb_spec r' r) as [->|Hr]; cbn [andb orb]; [|reflexivity].
    destruct (existsb (fun r' => (r' =? r)%Z) l); cbn [andb];
      destruct (existsb _ (Zrange_incl c0 c1)); reflexivity. }
  rewrite Hrows.
  assert (Hex : forall a b x, existsb (fun y => (y =? x)%Z) (Zrange_incl a b)
                              = ((a <=? x) && (x <=? b))%Z).
  { intros a b x. apply eq_true_iff_eq. rewrite existsb_exists, andb_true_iff.
    rewrite !Z.leb_le. split.
    - intros (y & Hy & E). apply Z.eqb_eq in E. subst y. now apply In_Zrange_incl in Hy.
    - intros H. exists x. split; [apply In_Zrange_incl; lia|apply Z.eqb_refl]. }
  rewrite !Hex. rewrite !andb_assoc. reflexivity.
Qed.

(** [surface_set_NaN] sets exactly the block it is given: a node of the
    padded grid is NaN afterwards when its row and column lie in r0 .. r1
    and c0 .. c1, and keeps its value otherwise. *)
Theorem set_NaN_sets_the_block (h_mx : Z) (G : Z -> option Q) (r0 r1 c0 c1 r c : Z) :
  (-2 <= c0)%Z -> (c1 < h_mx - 2)%Z -> (-2 <= c < h_mx - 2)%Z ->
  surface_set_NaN h_mx G r0 r1 c0 c1 (gmt_M_ijp h_mx r c)
  = if ((r0 <=? r) && (r <=? r1) && (c0 <=? c) && (c <=? c1))%Z
    then None else G (gmt_M_ijp h_mx r c).
Proof. exact (set_NaN_value h_mx G r0 r1 c0 c1 r c). Qed.

Lemma set_NaN_sets_the_block_witness :
  surface_set_NaN 8 (fun _ => Some 1) 0 3 0 1 (gmt_M_ijp 8 2 1)
  = if ((0 <=? 2) && (2 <=? 3) && (0 <=? 1) && (1 <=? 1))%Z
    then None else (fun _ => Some 1) (gmt_M_ijp 8 2 1).
Proof.
  apply (set_NaN_sets_the_block 8 (fun _ => Some 1) 0 3 0 1 2 1); lia.
Defined.



(** ** The forecast on an expanded grid *)

Lemma fold_left_establishes {A B : Type} (P : A -> Prop) (f : A -> B -> A)
    (l : list B) (a : A) :
  (forall a x, In x l -> P a -> P (f a x)) ->
  (exists x, In x l /\ forall a, P (f a x)) ->
  P (fold_left f l a).
Proof.
  intros Hkeep (x & Hx & Hset).
  destruct (in_split _ _ Hx) as (l1 & l2 & ->).
  rewrite fold_left_app. cbn [fold_left].
  apply fold_left_invariant; [apply Hset|].
  intros a' y Hy. apply Hkeep. apply in_or_app. right. now right.
Qed.

(** A loop that carries an index which grows by [step] each round is the
    loop in which the index is computed from the loop variable. *)
Lemma fold_left_carried {St : Type} (body : St * Z -> Z -> St * Z) (step a i0 : Z) :
  (forall s i x, snd (body (s, i) x) = (i + step)%Z) ->
  forall (n s0 : nat) (st : St),
    fold_left body (map (fun k => (a + Z.of_nat k)%Z) (seq s0 n))
      (st, (i0 + Z.of_nat s0 * step)%Z)
    = (fold_left (fun s x => fst (body (s, (i0 + (x - a) * step)%Z) x))
         (map (fun k => (a + Z.of_nat k)%Z) (seq s0 n)) st,
       (i0 + Z.of_nat (s0 + n) * step)%Z).
Proof.
  intros Hstep. induction n as [|n IH]; intros s0 st.
  - cbn. now rewrite Nat.add_0_r.
  - cbn [seq map fold_left].
    rewrite (surjective_pairing (body (st, (i0 + Z.of_nat s0 * step)%Z) (a + Z.of_nat s0)%Z)).
    rewrite Hstep.
    replace (i0 + Z.of_nat s0 * step + step)%Z with (i0 + Z.of_nat (S s0) * step)%Z by lia.
    rewrite IH.
    replace (a + Z.of_nat s0 - a)%Z with (Z.of_nat s0) by lia.
    f_equal. f_equal. lia.
Qed.

Lemma Zrange_incl_seq (r0 r1 : Z) :
  Zrange_incl r0 r1
  = map (fun k => (r0 + Z.of_nat k)%Z) (seq 0 (Z.to_nat (r1 - r0 + 1))).
Proof. unfold Zrange_incl, Zrange. now rewrite map_map. Qed.

Lemma Zrange_seq (n : Z) :
  Zrange n = map (fun k => (0 + Z.of_nat k)%Z) (seq 0 (Z.to_nat n)).
Proof. unfold Zrange. apply map_ext. intros; lia. Qed.

Lemma coarse_node_multiples (e pr pc : Z) :
  (1 <= e)%Z -> coarse_node e (pr * e) (pc * e) = true.
Proof.
  intros He. unfold coarse_node. rewrite !Z.mod_mul by lia. reflexivity.
Qed.

Lemma coarse_node_between (e pr pc j i : Z) :
  (1 <= e)%Z -> (0 <= j < e)%Z -> (0 <= i < e)%Z -> (j <> 0 \/ i <> 0)%Z ->
  coarse_node e (pr * e - j) (pc * e + i) = false.
Proof.
  intros He Hj Hi Hne. unfold coarse_node.
  apply andb_false_iff.
  destruct (Z.eq_dec j 0) as [->|Hj0].
  - right. apply Z.eqb_neq.
    replace (pc * e + i)%Z with (i + pc * e)%Z by lia.
    rewrite Z.mod_add, Z.mod_small by lia. lia.
  - left. apply Z.eqb_neq.
    replace (pr * e - j)%Z with ((e - j) + (pr - 1) * e)%Z by lia.
    rewrite Z.mod_add, Z.mod_small by lia. lia.
Qed.

Section Forecast.

Variable C : SURFACE_INFO.
Variable e : Z.
Variable fraction : Z -> Q.
Variable Inv : forecast_state -> Prop.

Hypothesis Hgeo : geometry_ok C.
Hypothesis He : (1 <= e)%Z.
Hypothesis Hpnx : (1 <= previous_nx C)%Z.
Hypothesis Hpny : (1 <= previous_ny C)%Z.
Hypothesis Hnx : (current_nx C - 1 = e * (previous_nx C - 1))%Z.
Hypothesis Hny : (current_ny C - 1 = e * (previous_ny C - 1))%Z.
Hypothesis Hstable : forecast_stable C e Inv.

Lemma forecast_bin_row_keeps (u : Z -> Q) (s : Z -> Z) (pr pc j : Z)
    (v : Z -> Q) (l : list Z) :
  (0 <= pc <= previous_nx C - 2)%Z -> (0 <= j < e)%Z ->
  (forall i, In i l -> (0 <= i < e)%Z /\ (j <> 0 \/ i <> 0)%Z) ->
  Inv (u, s) ->
  Inv (fold_left (fun (st : forecast_state) i =>
           let '(u, status) := st in
           let index_new :=
             (row_col_to_node (pr * e) (pc * e) (current_mx C) - j * current_mx C + i)%Z in
           (upd u index_new (v i), upd status index_new SURFACE_IS_UNCONSTRAINED))
         l (u, s)).
Proof.
  intros Hpc Hj Hl Hinv.
  apply fold_left_invariant; [exact Hinv|].
  intros [u' s'] i Hi Hst. destruct (Hl i Hi) as [Hi1 Hi2]. cbv zeta.
  replace (row_col_to_node (pr * e) (pc * e) (current_mx C) - j * current_mx C + i)%Z
    with (row_col_to_node (pr * e - j) (pc * e + i) (current_mx C))
    by (unfold row_col_to_node; lia).
  apply (proj1 Hstable); [nia| |exact Hst].
  now apply coarse_node_between.
Qed.

Lemma forecast_bin_keeps (st : forecast_state) (pr pc : Z) :
  (0 <= pc <= previous_nx C - 2)%Z ->
  Inv st -> Inv (forecast_bin e fraction C pr st pc).
Proof.
  intros Hpc Hinv. destruct st as [u s]. unfold forecast_bin. cbv zeta.
  lazymatch goal with
  | |- context [fold_left ?f ?l (u, s)] =>
      assert (Hin : Inv (fold_left f l (u, s)));
      [|destruct (fold_left f l (u, s)) as [u1 s1]]
  end.
  - apply fold_left_invariant; [exact Hinv|].
    intros [u' s'] j Hj Hst. apply In_Zrange in Hj.
    apply (forecast_bin_row_keeps u' s' pr pc j
             (fun i => u (row_col_to_node (pr * e) (pc * e) (current_mx C))
                       + (u (row_col_to_node (pr * e) (pc * e) (current_mx C)
                             - e * current_mx C)%Z
                          - u (row_col_to_node (pr * e) (pc * e) (current_mx C)))
                         * fraction j
                       + fraction i * _)); try assumption.
    intros i Hi. apply In_Zrange_incl in Hi.
    destruct (Z.eqb_spec j 0); lia.
  - apply (proj2 Hstable); [nia| |exact Hin].
    now apply coarse_node_multiples.
Qed.

Lemma ne_corner_node :
  node_ne_corner C = row_col_to_node 0 (current_nx C - 1) (current_mx C).
Proof.
  destruct Hgeo as (_ & Hnw & _ & _ & Hne & _). unfold row_col_to_node. lia.
Qed.

Lemma nw_corner_node : node_nw_corner C = row_col_to_node 0 0 (current_mx C).
Proof.
  destruct Hgeo as (_ & Hnw & _). unfold row_col_to_node. lia.
Qed.

Lemma coarse_east (r : Z) : coarse_node e (r * e) (current_nx C - 1) = true.
Proof.
  rewrite Hnx. replace (e * (previous_nx C - 1))%Z with ((previous_nx C - 1) * e)%Z by lia.
  now apply coarse_node_multiples.
Qed.

Lemma forecast_east_keeps (st : forecast_state) (pr : Z) :
  Inv st ->
  Inv (fst (forecast_east e fraction C
              (st, (node_ne_corner C + (pr - 1) * (e * current_mx C))%Z) pr)).
Proof.
  intros Hinv. destruct st as [u s]. unfold forecast_east. cbv zeta.
  replace (node_ne_corner C + (pr - 1) * (e * current_mx C) + e * current_mx C)%Z
    with (row_col_to_node (pr * e) (current_nx C - 1) (current_mx C))
    by (rewrite ne_corner_node; unfold row_col_to_node; lia).
  lazymatch goal with
  | |- context [fold_left ?f ?l (u, s)] =>
      assert (Hin : Inv (fold_left f l (u, s)));
      [|destruct (fold_left f l (u, s)) as [u1 s1]]
  end.
  - apply fold_left_invariant; [exact Hinv|].
    intros [u' s'] j Hj Hst. apply In_Zrange_incl in Hj. cbv zeta.
    replace (row_col_to_node (pr * e) (current_nx C - 1) (current_mx C)
             - j * current_mx C)%Z
      with (row_col_to_node (pr * e - j) (current_nx C - 1) (current_mx C))
      by (unfold row_col_to_node; lia).
    apply (proj1 Hstable); [nia| |exact Hst].
    replace (current_nx C - 1)%Z with ((previous_nx C - 1) * e + 0)%Z by lia.
    apply coarse_node_between; lia.
  - cbn [fst]. apply (proj2 Hstable); [nia|apply coarse_east|exact Hin].
Qed.

Lemma forecast_north_keeps (st : forecast_state) (pc : Z) :
  (0 <= pc <= previous_nx C - 2)%Z ->
  Inv st ->
  Inv (fst (forecast_north e fraction C (st, (node_nw_corner C + (pc - 0) * e)%Z) pc)).
Proof.
  intros Hpc Hinv. destruct st as [u s]. unfold forecast_north. cbv zeta.
  replace (node_nw_corner C + (pc - 0) * e)%Z
    with (row_col_to_node (0 * e) (pc * e) (current_mx C))
    by (rewrite nw_corner_node; unfold row_col_to_node; lia).
  lazymatch goal with
  | |- context [fold_left ?f ?l (u, s)] =>
      assert (Hin : Inv (fold_left f l (u, s)));
      [|destruct (fold_left f l (u, s)) as [u1 s1]]
  end.
  - apply fold_left_invariant; [exact Hinv|].
    intros [u' s'] i Hi Hst. apply In_Zrange_incl in Hi. cbv zeta.
    replace (row_col_to_node (0 * e) (pc * e) (current_mx C) + i)%Z
      with (row_col_to_node (0 * e - 0) (pc * e + i) (current_mx C))
      by (unfold row_col_to_node; lia).
    apply (proj1 Hstable); [nia| |exact Hst].
    apply coarse_node_between; lia.
  - cbn [fst]. apply (proj2 Hstable); [nia| |exact Hin].
    now apply coarse_node_multiples.
Qed.

End Forecast.

Lemma forecast_east_carried (C : SURFACE_INFO) (e : Z) (fraction : Z -> Q)
    (st : forecast_state) (m : Z) :
  fst (fold_left (forecast_east e fraction C) (Zrange_incl 1 m) (st, node_ne_corner C))
  = fold_left (fun s pr =>
        fst (forecast_east e fraction C
               (s, (node_ne_corner C + (pr - 1) * (e * current_mx C))%Z) pr))
      (Zrange_incl 1 m) st.
Proof.
  rewrite Zrange_incl_seq.
  replace (node_ne_corner C) with (node_ne_corner C + Z.of_nat 0 * (e * current_mx C))%Z at 1
    by (cbn; lia).
  rewrite (fold_left_carried (forecast_east e fraction C) (e * current_mx C) 1
             (node_ne_corner C)); [reflexivity|].
  intros [u s] i x. unfold forecast_east. cbv zeta.
  now destruct (fold_left _ _ _).
Qed.

Lemma forecast_north_carried (C : SURFACE_INFO) (e : Z) (fraction : Z -> Q)
    (st : forecast_state) (m : Z) :
  fst (fold_left (forecast_north e fraction C) (Zrange m) (st, node_nw_corner C))
  = fold_left (fun s pc =>
        fst (forecast_north e fraction C (s, (node_nw_corner C + (pc - 0) * e)%Z) pc))
      (Zrange m) st.
Proof.
  rewrite Zrange_seq.
  replace (node_nw_corner C) with (node_nw_corner C + Z.of_nat 0 * e)%Z at 1 by (cbn; lia).
  rewrite (fold_left_carried (forecast_north e fraction C) e 0 (node_nw_corner C));
    [reflexivity|].
  intros [u s] i x. unfold forecast_north. cbv zeta.
  now destruct (fold_left _ _ _).
Qed.

(** The state of the arrays after the loops of [fill_in_forecast], before
    the north-east corner is marked. *)
Lemma fill_in_forecast_unfold (previous_stride : Z) (C : SURFACE_INFO) :
  let e := Z.quot previous_stride (current_stride C) in
  let fraction := fun i : Z => inject_Z i * (1 / inject_Z previous_stride) in
  let st1 := fold_left (fun st previous_row =>
                 fold_left (forecast_bin e fraction C previous_row)
                   (Zrange (previous_nx C - 1)) st)
               (Zrange_incl 1 (previous_ny C - 1)) (forecast_copy e C (u C), status C) in
  let st2 := fold_left (fun s pr =>
                 fst (forecast_east e fraction C
                        (s, (node_ne_corner C + (pr - 1) * (e * current_mx C))%Z) pr))
               (Zrange_incl 1 (previous_ny C - 1)) st1 in
  let st3 := fold_left (fun s pc =>
                 fst (forecast_north e fraction C
                        (s, (node_nw_corner C + (pc - 0) * e)%Z) pc))
               (Zrange (previous_nx C - 1)) st2 in
  u (fill_in_forecast previous_stride C) = fst st3 /\
  status (fill_in_forecast previous_stride C)
  = upd (snd st3) (node_ne_corner C) SURFACE_IS_CONSTRAINED.
Proof.
  intros e fraction st1 st2 st3. unfold fill_in_forecast. cbv zeta.
  fold e. fold fraction. rewrite forecast_east_carried, forecast_north_carried.
  fold st1. fold st2. fold st3. destruct st3 as [u3 s3]. split; reflexivity.
Qed.

Section ForecastStatus.

Variable C : SURFACE_INFO.
Variable e : Z.
Variable fraction : Z -> Q.
Variables row0 col0 : Z.

Hypothesis Hgeo : geometry_ok C.
Hypothesis He : (1 <= e)%Z.
Hypothesis Hpnx : (1 <= previous_nx C)%Z.
Hypothesis Hpny : (1 <= previous_ny C)%Z.
Hypothesis Hnx : (current_nx C - 1 = e * (previous_nx C - 1))%Z.
Hypothesis Hny : (current_ny C - 1 = e * (previous_ny C - 1))%Z.
Hypothesis Hrow0 : (0 <= row0 < current_ny C)%Z.
Hypothesis Hcol0 : (0 <= col0 < current_nx C)%Z.

Let marked := fun st : forecast_state =>
  snd st (row_col_to_node row0 col0 (current_mx C)) = forecast_status e row0 col0.

Lemma marked_write (s : Z -> Z) (r c v : Z) :
  (0 <= c < current_nx C)%Z ->
  v = forecast_status e r c ->
  (r = row0 -> c = col0 -> True) ->
  s (row_col_to_node row0 col0 (current_mx C)) = forecast_status e row0 col0 \/
  (r = row0 /\ c = col0) ->
  upd s (row_col_to_node r c (current_mx C)) v (row_col_to_node row0 col0 (current_mx C))
  = forecast_status e row0 col0.
Proof.
  intros Hc Hv _ H. pose proof (proj1 Hgeo) as Hmx.
  destruct (Z.eq_dec r row0) as [->|Hr]; [destruct (Z.eq_dec c col0) as [->|Hcc]|].
  - rewrite upd_same. exact Hv.
  - rewrite upd_other by (apply row_col_to_node_neq; lia). destruct H as [H|[_ H]]; [exact H|lia].
  - rewrite upd_other by (apply row_col_to_node_neq; lia). destruct H as [H|[H _]]; [exact H|lia].
Qed.

Lemma marked_stable : forecast_stable C e marked.
Proof.
  split.
  - intros u s r c v Hc Hco Hm. unfold marked in *. cbn [snd] in *.
    apply marked_write; auto. unfold forecast_status. now rewrite Hco.
  - intros u s r c Hc Hco Hm. unfold marked in *. cbn [snd] in *.
    apply marked_write; auto. unfold forecast_status. now rewrite Hco.
Qed.

Lemma forecast_bin_marks (st : forecast_state) (pr pc j0 i0 : Z) :
  (0 <= pc <= previous_nx C - 2)%Z ->
  (0 <= j0 < e)%Z -> (0 <= i0 < e)%Z ->
  row0 = (pr * e - j0)%Z -> col0 = (pc * e + i0)%Z ->
  marked (forecast_bin e fraction C pr st pc).
Proof.
  intros Hpc Hj0 Hi0 Er Ec. destruct st as [u s]. unfold forecast_bin. cbv zeta.
  lazymatch goal with
  | |- context [fold_left ?f ?l (u, s)] =>
      assert (Hin : (j0 <> 0 \/ i0 <> 0)%Z -> marked (fold_left f l (u, s)));
      [|destruct (fold_left f l (u, s)) as [u1 s1]]
  end.
  - intros Hne. apply fold_left_establishes.
    + intros [u' s'] j Hj Hst. apply In_Zrange in Hj.
      apply (forecast_bin_row_keeps C e marked)
        with (v := fun i => u (row_col_to_node (pr * e) (pc * e) (current_mx C))
                         + (u (row_col_to_node (pr * e) (pc * e) (current_mx C)
                               - e * current_mx C)%Z
                            - u (row_col_to_node (pr * e) (pc * e) (current_mx C)))
                           * fraction j
                         + fraction i * _);
        try assumption; try exact marked_stable.
      intros i Hi. apply In_Zrange_incl in Hi. destruct (Z.eqb_spec j 0); lia.
    + exists j0. split; [apply In_Zrange; lia|]. intros a.
      apply fold_left_establishes.
      * intros [u' s'] i Hi Hst. apply In_Zrange_incl in Hi. cbv zeta.
        replace (row_col_to_node (pr * e) (pc * e) (current_mx C) - j0 * current_mx C + i)%Z
          with (row_col_to_node (pr * e - j0) (pc * e + i) (current_mx C))
          by (unfold row_col_to_node; lia).
        assert (Hi' : (0 <= i < e)%Z /\ (j0 <> 0 \/ i <> 0)%Z)
          by (destruct (Z.eqb_spec j0 0); lia).
        clear Hi. destruct Hi' as [Hi1 Hi2].
        apply (proj1 marked_stable); [nia| |exact Hst].
        apply coarse_node_between; lia.
      * exists i0. split; [apply In_Zrange_incl; destruct (Z.eqb_spec j0 0); lia|].
        intros [u' s']. cbv zeta. unfold marked. cbn [snd].
        replace (row_col_to_node (pr * e) (pc * e) (current_mx C) - j0 * current_mx C + i0)%Z
          with (row_col_to_node row0 col0 (current_mx C))
          by (subst row0 col0; unfold row_col_to_node; lia).
        rewrite upd_same. unfold forecast_status. subst row0 col0.
        now rewrite coarse_node_between.
  - unfold marked in *. cbn [snd] in *.
    apply marked_write; [nia| |trivial|].
    + unfold forecast_status. now rewrite coarse_node_multiples.
    + destruct (Z.eq_dec j0 0) as [->|]; [destruct (Z.eq_dec i0 0) as [->|]|].
      * right. lia.
      * left. apply Hin. now right.
      * left. apply Hin. now left.
Qed.

Lemma forecast_east_marks (st : forecast_state) (pr j0 : Z) :
  (0 <= j0 < e)%Z -> row0 = (pr * e - j0)%Z -> col0 = (current_nx C - 1)%Z ->
  marked (fst (forecast_east e fraction C
                 (st, (node_ne_corner C + (pr - 1) * (e * current_mx C))%Z) pr)).
Proof.
  intros Hj0 Er Ec. destruct st as [u s]. unfold forecast_east. cbv zeta.
  replace (node_ne_corner C + (pr - 1) * (e * current_mx C) + e * current_mx C)%Z
    with (row_col_to_node (pr * e) (current_nx C - 1) (current_mx C))
    by (rewrite (ne_corner_node C Hgeo); unfold row_col_to_node; lia).
  lazymatch goal with
  | |- context [fold_left ?f ?l (u, s)] =>
      assert (Hin : j0 <> 0%Z -> marked (fold_left f l (u, s)));
      [|destruct (fold_left f l (u, s)) as [u1 s1]]
  end.
  - intros Hne. apply fold_left_establishes.
    + intros [u' s'] j Hj Hst. apply In_Zrange_incl in Hj. cbv zeta.
      replace (row_col_to_node (pr * e) (current_nx C - 1) (current_mx C)
               - j * current_mx C)%Z
        with (row_col_to_node (pr * e - j) (current_nx C - 1) (current_mx C))
        by (unfold row_col_to_node; lia).
      apply (proj1 marked_stable); [nia| |exact Hst].
      replace (current_nx C - 1)%Z with ((previous_nx C - 1) * e + 0)%Z by lia.
      apply coarse_node_between; lia.
    + exists j0. split; [apply In_Zrange_incl; lia|].
      intros [u' s']. cbv zeta. unfold marked. cbn [snd].
      replace (row_col_to_node (pr * e) (current_nx C - 1) (current_mx C)
               - j0 * current_mx C)%Z
        with (row_col_to_node row0 col0 (current_mx C))
        by (subst row0 col0; unfold row_col_to_node; lia).
      rewrite upd_same. unfold forecast_status. subst row0 col0.
      replace (current_nx C - 1)%Z with ((previous_nx C - 1) * e + 0)%Z by lia.
      rewrite coarse_node_between by lia. reflexivity.
  - cbn [fst]. unfold marked in *. cbn [snd] in *.
    apply marked_write; [nia| |trivial|].
    + unfold forecast_status. now rewrite (coarse_east C e He Hnx).
    + destruct (Z.eq_dec j0 0) as [->|]; [right; lia|left; now apply Hin].
Qed.

Lemma forecast_north_marks (st : forecast_state) (pc i0 : Z) :
  (0 <= pc <= previous_nx C - 2)%Z -> (0 <= i0 < e)%Z ->
  row0 = 0%Z -> col0 = (pc * e + i0)%Z ->
  marked (fst (forecast_north e fraction C (st, (node_nw_corner C + (pc - 0) * e)%Z) pc)).
Proof.
  intros Hpc Hi0 Er Ec. destruct st as [u s]. unfold forecast_north. cbv zeta.
  replace (node_nw_corner C + (pc - 0) * e)%Z
    with (row_col_to_node (0 * e) (pc * e) (current_mx C))
    by (rewrite (nw_corner_node C Hgeo); unfold row_col_to_node; lia).
  lazymatch goal with
  | |- context [fold_left ?f ?l (u, s)] =>
      assert (Hin : i0 <> 0%Z -> marked (fold_left f l (u, s)));
      [|destruct (fold_left f l (u, s)) as [u1 s1]]
  end.
  - intros Hne. apply fold_left_establishes.
    + intros [u' s'] i Hi Hst. apply In_Zrange_incl in Hi. cbv zeta.
      replace (row_col_to_node (0 * e) (pc * e) (current_mx C) + i)%Z
        with (row_col_to_node (0 * e - 0) (pc * e + i) (current_mx C))
        by (unfold row_col_to_node; lia).
      apply (proj1 marked_stable); [nia| |exact Hst].
      apply coarse_node_between; lia.
    + exists i0. split; [apply In_Zrange_incl; lia|].
      intros [u' s']. cbv zeta. unfold marked. cbn [snd].
      replace (row_col_to_node (0 * e) (pc * e) (current_mx C) + i0)%Z
        with (row_col_to_node row0 col0 (current_mx C))
        by (subst row0 col0; unfold row_col_to_node; lia).
      rewrite upd_same. unfold forecast_status. subst row0 col0.
      replace 0%Z with (0 * e - 0)%Z at 1 by lia.
      rewrite coarse_node_between by lia. reflexivity.
  - cbn [fst]. unfold marked in *. cbn [snd] in *.
    apply marked_write; [nia| |trivial|].
    + unfold forecast_status. now rewrite coarse_node_multiples.
    + destruct (Z.eq_dec i0 0) as [->|]; [right; lia|left; now apply Hin].
Qed.

Lemma forecast_loops_mark (u0 : Z -> Q) (s0 : Z -> Z) :
  let st1 := fold_left (fun st previous_row =>
                 fold_left (forecast_bin e fraction C previous_row)
                   (Zrange (previous_nx C - 1)) st)
               (Zrange_incl 1 (previous_ny C - 1)) (u0, s0) in
  let st2 := fold_left (fun s pr =>
                 fst (forecast_east e fraction C
                        (s, (node_ne_corner C + (pr - 1) * (e * current_mx C))%Z) pr))
               (Zrange_incl 1 (previous_ny C - 1)) st1 in
  let st3 := fold_left (fun s pc =>
                 fst (forecast_north e fraction C
                        (s, (node_nw_corner C + (pc - 0) * e)%Z) pc))
               (Zrange (previous_nx C - 1)) st2 in
  upd (snd st3) (node_ne_corner C) SURFACE_IS_CONSTRAINED
    (row_col_to_node row0 col0 (current_mx C))
  = forecast_status e row0 col0.
Proof.
  intros st1 st2 st3.
  assert (Hbins : forall st pr, marked st ->
            marked (fold_left (forecast_bin e fraction C pr)
                      (Zrange (previous_nx C - 1)) st)).
  { intros st pr Hst. apply fold_left_invariant; [exact Hst|].
    intros a pc Hpc Ha. apply In_Zrange in Hpc.
    apply (forecast_bin_keeps C e fraction marked); try assumption;
      try exact marked_stable; lia. }
  assert (Heast : forall st, marked st ->
            marked (fold_left (fun s pr =>
                        fst (forecast_east e fraction C
                               (s, (node_ne_corner C + (pr - 1) * (e * current_mx C))%Z) pr))
                      (Zrange_incl 1 (previous_ny C - 1)) st)).
  { intros st Hst. apply fold_left_invariant; [exact Hst|].
    intros a pr _ Ha.
    apply (forecast_east_keeps C e fraction marked); try assumption;
      exact marked_stable. }
  assert (Hnorth : forall st, marked st ->
            marked (fold_left (fun s pc =>
                        fst (forecast_north e fraction C
                               (s, (node_nw_corner C + (pc - 0) * e)%Z) pc))
                      (Zrange (previous_nx C - 1)) st)).
  { intros st Hst. apply fold_left_invariant; [exact Hst|].
    intros a pc Hpc Ha. apply In_Zrange in Hpc.
    apply (forecast_north_keeps C e fraction marked); try assumption;
      try exact marked_stable; lia. }
  rewrite (ne_corner_node C Hgeo).
  apply marked_write; [nia| |trivial|].
  { unfold forecast_status.
    replace 0%Z with (0 * e)%Z at 1 by lia. now rewrite (coarse_east C e He Hnx). }
  destruct (Z.eq_dec col0 (current_nx C - 1)) as [Ec|Nc].
  - destruct (Z.eq_dec row0 0) as [Er|Nr]; [right; lia|left].
    (* the east edge *)
    apply Hnorth. unfold st2.
    set (pr := ((row0 + e - 1) / e)%Z).
    assert (Hpr : (pr * e - (pr * e - row0) = row0 /\ 0 <= pr * e - row0 < e)%Z).
    { unfold pr. pose proof (Z.div_mod (row0 + e - 1) e ltac:(lia)) as Hd.
      pose proof (Z.mod_pos_bound (row0 + e - 1) e ltac:(lia)). nia. }
    assert (Hprr : (1 <= pr <= previous_ny C - 1)%Z) by nia.
    apply fold_left_establishes.
    + intros a x _ Ha.
      apply (forecast_east_keeps C e fraction marked); try assumption;
        exact marked_stable.
    + exists pr. split; [apply In_Zrange_incl; lia|]. intros a.
      apply (forecast_east_marks a pr (pr * e - row0)); lia.
  - left. destruct (Z.eq_dec row0 0) as [Er|Nr].
    + (* the north edge *)
      set (pc := (col0 / e)%Z).
      assert (Hpc : (col0 = pc * e + col0 mod e /\ 0 <= col0 mod e < e)%Z).
      { unfold pc. pose proof (Z.div_mod col0 e ltac:(lia)).
        pose proof (Z.mod_pos_bound col0 e ltac:(lia)). lia. }
      assert (Hpcr : (0 <= pc <= previous_nx C - 2)%Z) by nia.
      unfold st3. apply fold_left_establishes.
      * intros a x Hx Ha. apply In_Zrange in Hx.
        apply (forecast_north_keeps C e fraction marked); try assumption;
          try exact marked_stable; lia.
      * exists pc. split; [apply In_Zrange; lia|]. intros a.
        apply (forecast_north_marks a pc (col0 mod e)); lia.
    + (* a bin *)
      apply Hnorth, Heast. unfold st1.
      set (pr := ((row0 + e - 1) / e)%Z).
      assert (Hpr : (pr * e - (pr * e - row0) = row0 /\ 0 <= pr * e - row0 < e)%Z).
      { unfold pr. pose proof (Z.div_mod (row0 + e - 1) e ltac:(lia)) as Hd.
        pose proof (Z.mod_pos_bound (row0 + e - 1) e ltac:(lia)). nia. }
      assert (Hprr : (1 <= pr <= previous_ny C - 1)%Z) by nia.
      set (pc := (col0 / e)%Z).
      assert (Hpc : (col0 = pc * e + col0 mod e /\ 0 <= col0 mod e < e)%Z).
      { unfold pc. pose proof (Z.div_mod col0 e ltac:(lia)).
        pose proof (Z.mod_pos_bound col0 e ltac:(lia)). lia. }
      assert (Hpcr : (0 <= pc <= previous_nx C - 2)%Z) by nia.
      apply fold_left_establishes.
      * intros a x _ Ha. now apply Hbins.
      * exists pr. split; [apply In_Zrange_incl; lia|]. intros a.
        apply fold_left_establishes.
        -- intros a' x Hx Ha'. apply In_Zrange in Hx.
           apply (forecast_bin_keeps C e fraction marked); try assumption;
             try exact marked_stable; lia.
        -- exists pc. split; [apply In_Zrange; lia|]. intros a'.
           apply (forecast_bin_marks a' pr pc (pr * e - row0) (col0 mod e)); lia.
Qed.

End ForecastStatus.

(** After [fill_in_forecast] every node of the expanded grid is marked: the
    nodes that were nodes of the previous grid (row and column multiples of
    [expand]) are "constrained", all others "unconstrained"; no other status
    is left on the grid. *)
Theorem forecast_marks_the_previous_nodes (previous_stride : Z) (C : SURFACE_INFO)
    (row col : Z) :
  let expand := Z.quot previous_stride (current_stride C) in
  geometry_ok C -> (1 <= expand)%Z ->
  (1 <= previous_nx C)%Z -> (1 <= previous_ny C)%Z ->
  (current_nx C - 1 = expand * (previous_nx C - 1))%Z ->
  (current_ny C - 1 = expand * (previous_ny C - 1))%Z ->
  (0 <= row < current_ny C)%Z -> (0 <= col < current_nx C)%Z ->
  status (fill_in_forecast previous_stride C) (row_col_to_node row col (current_mx C))
  = forecast_status expand row col.
Proof.
  intros expand Hgeo He Hpnx Hpny Hnx Hny Hrow Hcol.
  rewrite (proj2 (fill_in_forecast_unfold previous_stride C)).
  fold expand.
  now apply (forecast_loops_mark C expand _ row col Hgeo He).
Qed.

Lemma geometry_of_offsets (C0 : SURFACE_INFO) :
  geometry_ok (surface_set_offset (surface_set_grid_parameters C0)).
Proof.
  unfold geometry_ok; cbn. repeat split; try lia.
  all: intros k; destruct k; reflexivity.
Qed.

Lemma forecast_marks_the_previous_nodes_witness :
  status (fill_in_forecast 2 refined_info) (row_col_to_node 2 4 (current_mx refined_info))
  = forecast_status (Z.quot 2 (current_stride refined_info)) 2 4.
Proof.
  apply (forecast_marks_the_previous_nodes 2 refined_info 2 4).
  - apply geometry_of_offsets.
  - vm_compute. discriminate.
  - vm_compute. discriminate.
  - vm_compute. discriminate.
  - vm_compute. reflexivity.
  - vm_compute. reflexivity.
  - vm_compute. split; [discriminate | reflexivity].
  - vm_compute. split; [discriminate | reflexivity].
Defined.

Lemma StronglySorted_unmap {A : Type} (R : Z -> Z -> Prop) (f : A -> Z) (l : list A) :
  StronglySorted R (map f l) -> StronglySorted (fun a b => R (f a) (f b)) l.
Proof.
  induction l as [|x l IH]; intros H; [constructor|].
  cbn [map] in H. inversion H as [|? ? Hs Hx]; subst.
  constructor; [now apply IH|].
  rewrite Forall_forall in Hx |- *. intros y Hy. apply Hx. now apply in_map.
Qed.

Lemma StronglySorted_rev {A : Type} (R : A -> A -> Prop) (l : list A) :
  StronglySorted R l -> StronglySorted (fun a b => R b a) (rev l).
Proof.
  induction 1 as [|x l Hs IH Hx]; [constructor|].
  cbn [rev]. apply StronglySorted_app; [exact IH|repeat constructor|].
  intros a b Ha [<-|[]]. rewrite Forall_forall in Hx. apply Hx. now apply in_rev.
Qed.

Lemma StronglySorted_split {A : Type} (R : A -> A -> Prop) (l1 l2 : list A) (x : A) :
  StronglySorted R (l1 ++ x :: l2) ->
  (forall y, In y l1 -> R y x) /\ (forall y, In y l2 -> R x y).
Proof.
  induction l1 as [|z l1 IH]; cbn [app]; intros H; inversion H as [|? ? Hs Hz]; subst.
  - split; [intros y []|]. rewrite Forall_forall in Hz. exact Hz.
  - destruct (IH Hs) as [H1 H2]. split; [|exact H2].
    intros y [<-|Hy]; [|now apply H1].
    rewrite Forall_forall in Hz. apply Hz. apply in_or_app. right. now left.
Qed.

Lemma copy_loop_elsewhere {X : Type} (cur prev : X -> Z) (l : list X) (u : Z -> Q) (n : Z) :
  (forall y, In y l -> cur y <> n) ->
  fold_left (fun u x => upd u (cur x) (u (prev x))) l u n = u n.
Proof.
  revert u. induction l as [|y l IH]; intros u Hl; [reflexivity|].
  cbn [fold_left]. rewrite IH by (intros; apply Hl; now right).
  apply upd_other. intros E. apply (Hl y); [now left|now symmetry].
Qed.

Lemma copy_loop_value {X : Type} (cur prev : X -> Z) (l1 l2 : list X) (x : X)
    (u : Z -> Q) :
  (forall y, In y l1 -> cur y <> prev x) ->
  (forall y, In y l2 -> cur y <> cur x) ->
  fold_left (fun u x => upd u (cur x) (u (prev x))) (l1 ++ x :: l2) u (cur x)
  = u (prev x).
Proof.
  intros H1 H2. rewrite fold_left_app. cbn [fold_left].
  rewrite copy_loop_elsewhere by assumption. rewrite upd_same.
  now apply copy_loop_elsewhere.
Qed.

(** The first loop of [fill_in_forecast] copies the previous solution in
    place, from the last node to the first, so that no value is overwritten
    before it has been copied. *)
Lemma forecast_copy_value (C : SURFACE_INFO) (e : Z) (u : Z -> Q) (pr pc : Z) :
  (1 <= e)%Z -> current_mx C = (current_nx C + 4)%Z ->
  previous_mx C = (previous_nx C + 4)%Z ->
  (current_nx C - 1 = e * (previous_nx C - 1))%Z ->
  (0 <= pr < previous_ny C)%Z -> (0 <= pc < previous_nx C)%Z ->
  forecast_copy e C u (row_col_to_node (pr * e) (pc * e) (current_mx C))
  = u (row_col_to_node pr pc (previous_mx C)).
Proof.
  intros He Hcmx Hpmx Hnx Hpr Hpc. unfold forecast_copy.
  set (cur := fun rc : Z * Z =>
                row_col_to_node (fst rc * e) (snd rc * e) (current_mx C)).
  set (prev := fun rc : Z * Z => row_col_to_node (fst rc) (snd rc) (previous_mx C)).
  rewrite (fold_left_ext _ (fun u x => upd u (cur x) (u (prev x))))
    by (intros a [r c] _; reflexivity).
  assert (Hin : In (pr, pc) (rev (grid_nodes (previous_ny C) (previous_nx C))))
    by (apply in_rev; rewrite rev_involutive; apply In_grid_nodes; lia).
  destruct (in_split _ _ Hin) as (l1 & l2 & Hsplit).
  pose proof (StronglySorted_rev _ _
                (StronglySorted_unmap Z.lt _ _
                   (grid_nodes_index_sorted (previous_ny C) (previous_nx C)))) as Hs.
  rewrite Hsplit in Hs. apply StronglySorted_split in Hs. destruct Hs as [Hbefore Hafter].
  assert (Hmem : forall y, In y (l1 ++ (pr, pc) :: l2) ->
            (0 <= fst y < previous_ny C)%Z /\ (0 <= snd y < previous_nx C)%Z).
  { intros [r c] Hy. rewrite <- Hsplit in Hy. apply in_rev in Hy.
    now apply In_grid_nodes in Hy. }
  rewrite Hsplit.
  change (row_col_to_node (pr * e) (pc * e) (current_mx C)) with (cur (pr, pc)).
  change (row_col_to_node pr pc (previous_mx C)) with (prev (pr, pc)).
  apply copy_loop_value.
  - intros [r c] Hy. specialize (Hbefore _ Hy). cbn [fst snd] in Hbefore.
    destruct (Hmem (r, c)) as [Hr Hc]; [apply in_or_app; now left|]. cbn [fst snd] in Hr, Hc.
    unfold cur, prev, row_col_to_node, row_col_to_index in *. cbn [fst snd].
    rewrite Hcmx, Hpmx.
    assert (A1 : (pr < r \/ (pr = r /\ pc < c))%Z) by nia.
    assert (A2 : ((pr + 2) * (previous_nx C + 4) + pc + 2
                  < (r + 2) * (previous_nx C + 4) + c + 2)%Z) by nia.
    assert (B1 : (r <= r * e)%Z) by nia.
    assert (B2 : (c <= c * e)%Z) by nia.
    assert (B3 : (previous_nx C <= current_nx C)%Z) by nia.
    assert (A3 : ((r + 2) * (previous_nx C + 4) <= (r * e + 2) * (current_nx C + 4))%Z)
      by (apply Z.mul_le_mono_nonneg; lia).
    lia.
  - intros [r c] Hy. specialize (Hafter _ Hy). cbn [fst snd] in Hafter.
    destruct (Hmem (r, c)) as [Hr Hc]; [apply in_or_app; right; now right|].
    cbn [fst snd] in Hr, Hc. unfold cur. cbn [fst snd].
    apply row_col_to_node_neq; try nia.
    unfold row_col_to_index in Hafter.
    destruct (Z.eq_dec r pr) as [->|]; [right|left]; nia.
Qed.

Lemma forecast_loops_keep (C : SURFACE_INFO) (e : Z) (fraction : Z -> Q)
    (Inv : forecast_state -> Prop) (st0 : forecast_state) :
  geometry_ok C -> (1 <= e)%Z -> (1 <= previous_nx C)%Z ->
  (current_nx C - 1 = e * (previous_nx C - 1))%Z ->
  forecast_stable C e Inv -> Inv st0 ->
  let st1 := fold_left (fun st previous_row =>
                 fold_left (forecast_bin e fraction C previous_row)
                   (Zrange (previous_nx C - 1)) st)
               (Zrange_incl 1 (previous_ny C - 1)) st0 in
  let st2 := fold_left (fun s pr =>
                 fst (forecast_east e fraction C
                        (s, (node_ne_corner C + (pr - 1) * (e * current_mx C))%Z) pr))
               (Zrange_incl 1 (previous_ny C - 1)) st1 in
  let st3 := fold_left (fun s pc =>
                 fst (forecast_north e fraction C
                        (s, (node_nw_corner C + (pc - 0) * e)%Z) pc))
               (Zrange (previous_nx C - 1)) st2 in
  Inv st3.
Proof.
  intros Hgeo He Hpnx Hnx Hstable H0 st1 st2 st3.
  unfold st3. apply fold_left_invariant.
  - unfold st2. apply fold_left_invariant.
    + unfold st1. apply fold_left_invariant; [exact H0|].
      intros a pr _ Ha. apply fold_left_invariant; [exact Ha|].
      intros a' pc Hpc Ha'. apply In_Zrange in Hpc.
      apply (forecast_bin_keeps C e fraction Inv); try assumption; lia.
    + intros a pr _ Ha. apply (forecast_east_keeps C e fraction Inv); assumption.
  - intros a pc Hpc Ha. apply In_Zrange in Hpc.
    apply (forecast_north_keeps C e fraction Inv); try assumption; lia.
Qed.

(** [fill_in_forecast] keeps the previous solution: the node of the
    expanded grid that coincides with the previous node (pr, pc) holds the
    value that node had in the layout of the previous grid; the copy in
    place loses no value and the interpolation never writes such a node. *)
Theorem forecast_keeps_the_previous_solution (previous_stride : Z) (C : SURFACE_INFO)
    (pr pc : Z) :
  let expand := Z.quot previous_stride (current_stride C) in
  geometry_ok C -> (1 <= expand)%Z ->
  previous_mx C = (previous_nx C + 4)%Z ->
  (current_nx C - 1 = expand * (previous_nx C - 1))%Z ->
  (0 <= pr < previous_ny C)%Z -> (0 <= pc < previous_nx C)%Z ->
  u (fill_in_forecast previous_stride C)
    (row_col_to_node (pr * expand) (pc * expand) (current_mx C))
  = u C (row_col_to_node pr pc (previous_mx C)).
Proof.
  intros expand Hgeo He Hpmx Hnx Hpr Hpc.
  rewrite (proj1 (fill_in_forecast_unfold previous_stride C)). fold expand.
  pose proof (proj1 Hgeo) as Hcmx.
  apply (forecast_loops_keep C expand _
           (fun st => fst st (row_col_to_node (pr * expand) (pc * expand) (current_mx C))
                      = u C (row_col_to_node pr pc (previous_mx C))));
    try assumption; try lia.
  - split.
    + intros u0 s r c v Hc Hco Hst. cbn [fst] in *.
      rewrite upd_other; [exact Hst|].
      intros E. symmetry in E. revert E. apply row_col_to_node_neq; try nia.
      destruct (Z.eq_dec r (pr * expand)) as [->|]; [|now left].
      destruct (Z.eq_dec c (pc * expand)) as [->|]; [|now right].
      rewrite coarse_node_multiples in Hco by lia. discriminate.
    + intros u0 s r c Hc Hco Hst. exact Hst.
  - cbn [fst]. now apply forecast_copy_value.
Qed.

Lemma forecast_keeps_the_previous_solution_witness :
  u (fill_in_forecast 2 refined_info)
    (row_col_to_node (1 * Z.quot 2 (current_stride refined_info))
       (2 * Z.quot 2 (current_stride refined_info)) (current_mx refined_info))
  = u refined_info (row_col_to_node 1 2 (previous_mx refined_info)).
Proof.
  apply (forecast_keeps_the_previous_solution 2 refined_info 1 2).
  - apply geometry_of_offsets.
  - vm_compute. discriminate.
  - vm_compute. reflexivity.
  - vm_compute. reflexivity.
  - vm_compute. split; [discriminate | reflexivity].
  - vm_compute. split; [discriminate | reflexivity].
Defined.

(** ** The early exit applies no bounds *)

Lemma write_grid_unconstrained_any (GMT : GMT_CTRL) (Ctrl : SURFACE_CTRL)
    (r1 r2 : Z * (surface_bound -> Z -> option Q)) (C : SURFACE_INFO) :
  constrained C = false ->
  surface_write_grid GMT Ctrl r1 C = surface_write_grid GMT Ctrl r2 C.
Proof.
  intros Hcon.
  destruct (write_grid_header_fields GMT Ctrl C)
    as (nc & nr & w & pad & reg & hmx & n1 & n2 & EH).
  unfold surface_write_grid. cbv zeta.
  assert (F : constrained (write_grid_header GMT Ctrl C) = false)
    by (rewrite EH; exact Hcon).
  rewrite F. reflexivity.
Qed.

(** When the data lie on a plane, bound grids play no part in what
    [GMT_surface] writes: [surface_load_constraints] is called after the
    early exit only, [C->constrained] is still unset when the plane is
    written, and whatever a reload of the bound grids would give, the
    result is the same. *)
Theorem planar_exit_applies_no_bounds (GMT : GMT_CTRL) (Ctrl : SURFACE_CTRL)
    (qsort_r : (SURFACE_DATA -> SURFACE_DATA -> Z) -> list SURFACE_DATA -> list SURFACE_DATA)
    (sqrt : Q -> Q)
    (r1 r2 : Z * (surface_bound -> Z -> option Q))
    (multigrid_solve : SURFACE_INFO -> SURFACE_INFO * Z)
    (C : SURFACE_INFO) :
  constrained C = false ->
  residual_rms sqrt
    (surface_remove_planar_trend
       (surface_throw_away_unusables qsort_r
          (surface_set_grid_parameters (set_current_stride C 1%Z))))
  < GMT_CONV8_LIMIT ->
  GMT_surface GMT Ctrl qsort_r sqrt r1 multigrid_solve C
  = GMT_surface GMT Ctrl qsort_r sqrt r2 multigrid_solve C.
Proof.
  intros Hcon Hrms.
  pose proof (detrended_setup qsort_r C) as Hfit. cbv zeta in Hfit.
  destruct Hfit as (Hc1 & _).
  unfold GMT_surface. revert Hrms Hc1.
  generalize (surface_remove_planar_trend
                (surface_throw_away_unusables qsort_r
                   (surface_set_grid_parameters (set_current_stride C 1%Z)))).
  intros fit Hrms Hc1.
  rewrite (rescale_z_values_planar sqrt _ Hrms).
  destruct (negb (GMT_Set_Comment GMT _ =? GMT_NOERROR)%Z); [reflexivity|].
  cbn [Z.eqb Pos.eqb].
  destruct (negb (GMT_Create_Data GMT _)); [reflexivity|].
  rewrite (write_grid_unconstrained_any GMT Ctrl r1 r2); [reflexivity|].
  cbn. congruence.
Qed.

Lemma planar_exit_applies_no_bounds_witness :
  let C := make_info 5 5 1 false false (fun _ => VALUE) plane_data (fun _ => 0) in
  let run := fun B =>
    GMT_surface (example_GMT GMT_GRID_NODE_REG) example_Ctrl insertion_sort sqrt_down
      (0%Z, B) (fun C => (C, GMT_RUNTIME_ERROR)) C in
  run (fun _ _ => Some 3) = run (fun _ _ => None).
Proof.
  apply (planar_exit_applies_no_bounds (example_GMT GMT_GRID_NODE_REG) example_Ctrl
           insertion_sort sqrt_down (0%Z, fun _ _ => Some 3) (0%Z, fun _ _ => None)
           (fun C => (C, GMT_RUNTIME_ERROR))
           (make_info 5 5 1 false false (fun _ => VALUE) plane_data (fun _ => 0))).
  - reflexivity.
  - vm_compute. reflexivity.
Defined.
